(** * HighsLp: the in-memory LP/MIP model of HiGHS (lp_data/HighsLp.cpp)

    A shallow embedding of the operations of [HighsLp], [HighsLpMods] and
    [HighsNameHash], and the properties of them that the design document
    states.

    Conventions of the embedding.
    - [HighsInt] and [int] are modelled by [Z]; sizes, indices and counters
      are taken inside the range of the machine type, where the conversions
      of the source are exact (signed overflow is undefined in C++). A
      statement about the value of a counter or of a sum of counts carries
      the hypothesis that the value is in that range ([HighsInt_range]).
    - [double] is modelled by the canonical rationals [Qc]: arithmetic is
      exact, and [==] on doubles is Leibniz equality.
    - [std::vector<T>] is a [list T]; [operator[]] outside the vector is
      undefined behaviour in C++ and is the fault [OutOfRange] here.
    - [std::unordered_map<std::string, int>] is a [gmap string Z].
    - [assert] is a live check: a failed assertion is the fault
      [AssertionFailure]. *)

From Stdlib Require Import ZArith QArith Qcanon Lia.
From stdpp Require Import base option numbers list strings gmap pretty.

Local Open Scope Z_scope.

(** ** Outcomes of a call *)

Inductive fault : Type :=
  | AssertionFailure
  | OutOfRange
  | LengthError.

Inductive outcome (A : Type) : Type :=
  | Done (a : A)
  | Fault (f : fault).
Arguments Done {A} a.
Arguments Fault {A} f.

#[global] Instance outcome_ret : MRet outcome := λ A a, Done a.
#[global] Instance outcome_bind : MBind outcome := λ A B k m,
  match m with
  | Done a => k a
  | Fault f => Fault f
  end.

#[global] Instance fault_eq_dec : EqDecision fault.
Proof. solve_decision. Defined.
#[global] Instance outcome_eq_dec `{EqDecision A} : EqDecision (outcome A).
Proof. solve_decision. Defined.

(** [assert(b)] *)
Definition cpp_assert (b : bool) : outcome unit :=
  if b then Done () else Fault AssertionFailure.

(** ** std::vector *)

(** [v.size()], converted to a signed integer. *)
Definition vsize {A} (v : list A) : Z := Z.of_nat (length v).

(** [v[i]] as an rvalue. *)
Definition at_ {A} (v : list A) (i : Z) : outcome A :=
  if decide (0 ≤ i) then
    match v !! Z.to_nat i with
    | Some x => Done x
    | None => Fault OutOfRange
    end
  else Fault OutOfRange.

(** [v[i] = x] *)
Definition set_at {A} (v : list A) (i : Z) (x : A) : outcome (list A) :=
  if decide (0 ≤ i < vsize v) then Done (<[Z.to_nat i := x]> v)
  else Fault OutOfRange.

(** [v[i] op= c], with [f] the operation applied to the element. *)
Definition update_at {A} (v : list A) (i : Z) (f : A → A) : outcome (list A) :=
  x ← at_ v i; set_at v i (f x).

(** [v.resize(n)] with [n] converted to [size_t]: a negative [n] becomes
    a size beyond [max_size()] and the call throws [std::length_error].
    New elements are value-initialised to [d]. *)
Definition vresize {A} (d : A) (n : Z) (v : list A) : outcome (list A) :=
  if decide (0 ≤ n) then Done (resize (Z.to_nat n) d v)
  else Fault LengthError.

(** ** Loops *)

(** [for (i = lo; ...; i++) body], run for [n] iterations. *)
Fixpoint for_steps {S} (n : nat) (i : Z)
    (body : Z → S → outcome S) (s : S) : outcome S :=
  match n with
  | O => Done s
  | Datatypes.S n' => s' ← body i s; for_steps n' (i + 1) body s'
  end.

(** [for (i = lo; i < hi; i++) body] *)
Definition for_range {S} (lo hi : Z)
    (body : Z → S → outcome S) (s : S) : outcome S :=
  for_steps (Z.to_nat (hi - lo)) lo body s.

(** A loop whose body may leave the function: [Leave r] is [return r]
    (or [break] carrying [r]). *)
Inductive flow (S R : Type) : Type :=
  | Next (s : S)
  | Leave (r : R).
Arguments Next {S R} s.
Arguments Leave {S R} r.

Fixpoint until_steps {S R} (n : nat) (i : Z)
    (body : Z → S → outcome (flow S R)) (s : S) : outcome (flow S R) :=
  match n with
  | O => Done (Next s)
  | Datatypes.S n' =>
      r ← body i s;
      match r with
      | Next s' => until_steps n' (i + 1) body s'
      | Leave r => Done (Leave r)
      end
  end.

Definition until_range {S R} (lo hi : Z)
    (body : Z → S → outcome (flow S R)) (s : S) : outcome (flow S R) :=
  until_steps (Z.to_nat (hi - lo)) lo body s.

(** ** Data model *)

(** Modelled from the spec: the enum [HighsVarType] is declared in a header
    that is not part of this file; the data model lists the variable types
    continuous, integer, semi-continuous and semi-integer, and these are
    the four enumerators the source names. *)
Inductive HighsVarType : Type :=
  | kContinuous
  | kInteger
  | kSemiContinuous
  | kSemiInteger.

#[global] Instance HighsVarType_eq_dec : EqDecision HighsVarType.
Proof. solve_decision. Defined.

Inductive ObjSense : Type :=
  | kMinimize
  | kMaximize.

#[global] Instance ObjSense_eq_dec : EqDecision ObjSense.
Proof. solve_decision. Defined.

Inductive MatrixFormat : Type :=
  | kColwise
  | kRowwise.

#[global] Instance MatrixFormat_eq_dec : EqDecision MatrixFormat.
Proof. solve_decision. Defined.

(** [HighsScale] *)
Record HighsScale : Type := mkHighsScale {
  strategy : Z;
  has_scaling : bool;
  num_col : Z;
  num_row : Z;
  cost : Qc;
  col : list Qc;
  row : list Qc;
}.

#[global] Instance HighsScale_eq_dec : EqDecision HighsScale.
Proof. solve_decision. Defined.

Module HighsSparseMatrix.

(** Modelled from the spec: the class [HighsSparseMatrix] is declared and
    implemented outside this file. The data model describes it as sparse,
    with dimensions tied to the column and row counts and a format that
    is row-major or column-major; the entries are kept as
    (row index, column index, value) triples. The fields [num_col_] and
    [num_row_] are the ones [HighsLp::setMatrixDimensions] writes. *)
Record t : Type := mk {
  format_ : MatrixFormat;
  num_col_ : Z;
  num_row_ : Z;
  entries : list (Z * Z * Qc);
}.

#[global] Instance eq_dec : EqDecision t.
Proof. solve_decision. Defined.

(** Modelled from the spec: [operator==] of the matrix, "value
    equality". *)
Definition eqb (a b : t) : bool := bool_decide (a = b).

(** Modelled from the spec: [applyScale(scale)] of the matrix, "the
    per-entry multiply by 1/colFactor[j] and rowFactor[i]". *)
Definition applyScale (scale : HighsScale) (m : t) : outcome t :=
  es ← mapM (M := outcome) (λ e : Z * Z * Qc,
          let '(i, j, v) := e in
          c ← at_ (col scale) j;
          r ← at_ (row scale) i;
          mret (i, j, (v * (1 / c) * r)%Qc)) (entries m);
  mret (mk (format_ m) (num_col_ m) (num_row_ m) es).

(** Modelled from the spec: [unapplyScale(scale)] of the matrix, the
    inverse of the per-entry multiply: the same two factors, divided
    out. *)
Definition unapplyScale (scale : HighsScale) (m : t) : outcome t :=
  es ← mapM (M := outcome) (λ e : Z * Z * Qc,
          let '(i, j, v) := e in
          c ← at_ (col scale) j;
          r ← at_ (row scale) i;
          mret (i, j, (v / r / (1 / c))%Qc)) (entries m);
  mret (mk (format_ m) (num_col_ m) (num_row_ m) es).

End HighsSparseMatrix.

(** [HighsLpMods]: the four logs of the modification journal, stored as
    nine parallel vectors. *)
Record HighsLpMods : Type := mkHighsLpMods {
  save_non_semi_variable_index : list Z;
  save_inconsistent_semi_variable_index : list Z;
  save_inconsistent_semi_variable_lower_bound_value : list Qc;
  save_inconsistent_semi_variable_upper_bound_value : list Qc;
  save_inconsistent_semi_variable_type : list HighsVarType;
  save_relaxed_semi_variable_lower_bound_index : list Z;
  save_relaxed_semi_variable_lower_bound_value : list Qc;
  save_tightened_semi_variable_upper_bound_index : list Z;
  save_tightened_semi_variable_upper_bound_value : list Qc;
}.

#[global] Instance HighsLpMods_eq_dec : EqDecision HighsLpMods.
Proof. solve_decision. Defined.

(** [HighsNameHash] *)
Record HighsNameHash : Type := mkHighsNameHash {
  name2index : gmap string Z;
}.

#[global] Instance HighsNameHash_eq_dec : EqDecision HighsNameHash.
Proof. solve_decision. Defined.

(** [HighsLp] *)
Record HighsLp : Type := mkHighsLp {
  num_col_ : Z;
  num_row_ : Z;
  col_cost_ : list Qc;
  col_lower_ : list Qc;
  col_upper_ : list Qc;
  row_lower_ : list Qc;
  row_upper_ : list Qc;
  a_matrix_ : HighsSparseMatrix.t;
  sense_ : ObjSense;
  offset_ : Qc;
  model_name_ : string;
  objective_name_ : string;
  new_col_name_ix_ : Z;
  new_row_name_ix_ : Z;
  col_names_ : list string;
  row_names_ : list string;
  integrality_ : list HighsVarType;
  col_hash_ : HighsNameHash;
  row_hash_ : HighsNameHash;
  scale_ : HighsScale;
  is_scaled_ : bool;
  is_moved_ : bool;
  cost_row_location_ : Z;
  mods_ : HighsLpMods;
}.

#[global] Instance HighsLp_eq_dec : EqDecision HighsLp.
Proof. solve_decision. Defined.

(** Assignments to single members of [*this]. *)
Definition with_col_cost_ (v : list Qc) (lp : HighsLp) : HighsLp :=
  let 'mkHighsLp a b _ d e f g h i j k l m n o p q r s t u w x y := lp in
  mkHighsLp a b v d e f g h i j k l m n o p q r s t u w x y.
Definition with_col_lower_ (v : list Qc) (lp : HighsLp) : HighsLp :=
  let 'mkHighsLp a b c _ e f g h i j k l m n o p q r s t u w x y := lp in
  mkHighsLp a b c v e f g h i j k l m n o p q r s t u w x y.
Definition with_col_upper_ (v : list Qc) (lp : HighsLp) : HighsLp :=
  let 'mkHighsLp a b c d _ f g h i j k l m n o p q r s t u w x y := lp in
  mkHighsLp a b c d v f g h i j k l m n o p q r s t u w x y.
Definition with_row_lower_ (v : list Qc) (lp : HighsLp) : HighsLp :=
  let 'mkHighsLp a b c d e _ g h i j k l m n o p q r s t u w x y := lp in
  mkHighsLp a b c d e v g h i j k l m n o p q r s t u w x y.
Definition with_row_upper_ (v : list Qc) (lp : HighsLp) : HighsLp :=
  let 'mkHighsLp a b c d e f _ h i j k l m n o p q r s t u w x y := lp in
  mkHighsLp a b c d e f v h i j k l m n o p q r s t u w x y.
Definition with_a_matrix_ (v : HighsSparseMatrix.t) (lp : HighsLp) : HighsLp :=
  let 'mkHighsLp a b c d e f g _ i j k l m n o p q r s t u w x y := lp in
  mkHighsLp a b c d e f g v i j k l m n o p q r s t u w x y.
Definition with_new_col_name_ix_ (v : Z) (lp : HighsLp) : HighsLp :=
  let 'mkHighsLp a b c d e f g h i j k l _ n o p q r s t u w x y := lp in
  mkHighsLp a b c d e f g h i j k l v n o p q r s t u w x y.
Definition with_col_names_ (v : list string) (lp : HighsLp) : HighsLp :=
  let 'mkHighsLp a b c d e f g h i j k l m n _ p q r s t u w x y := lp in
  mkHighsLp a b c d e f g h i j k l m n v p q r s t u w x y.
Definition with_row_names_ (v : list string) (lp : HighsLp) : HighsLp :=
  let 'mkHighsLp a b c d e f g h i j k l m n o _ q r s t u w x y := lp in
  mkHighsLp a b c d e f g h i j k l m n o v q r s t u w x y.
Definition with_integrality_ (v : list HighsVarType) (lp : HighsLp) : HighsLp :=
  let 'mkHighsLp a b c d e f g h i j k l m n o p _ r s t u w x y := lp in
  mkHighsLp a b c d e f g h i j k l m n o p v r s t u w x y.
Definition with_col_hash_ (v : HighsNameHash) (lp : HighsLp) : HighsLp :=
  let 'mkHighsLp a b c d e f g h i j k l m n o p q _ s t u w x y := lp in
  mkHighsLp a b c d e f g h i j k l m n o p q v s t u w x y.
Definition with_is_scaled_ (v : bool) (lp : HighsLp) : HighsLp :=
  let 'mkHighsLp a b c d e f g h i j k l m n o p q r s t _ w x y := lp in
  mkHighsLp a b c d e f g h i j k l m n o p q r s t v w x y.
Definition with_mods_ (v : HighsLpMods) (lp : HighsLp) : HighsLp :=
  let 'mkHighsLp a b c d e f g h i j k l m n o p q r s t u w x _ := lp in
  mkHighsLp a b c d e f g h i j k l m n o p q r s t u w x v.

(** ** HighsLp::isMip and HighsLp::hasSemiVariables *)

Definition isMip (lp : HighsLp) : outcome bool :=
  let integrality_size := vsize (integrality_ lp) in
  if decide (integrality_size ≠ 0) then
    cpp_assert (bool_decide (integrality_size = num_col_ lp));;
    r ← until_range 0 (num_col_ lp) (λ iCol (_ : unit),
          t ← at_ (integrality_ lp) iCol;
          if decide (t ≠ kContinuous) then mret (Leave true)
          else mret (Next ())) ();
    match r with
    | Leave b => mret b
    | Next _ => mret false
    end
  else mret false.

Definition hasSemiVariables (lp : HighsLp) : outcome bool :=
  let integrality_size := vsize (integrality_ lp) in
  if decide (integrality_size ≠ 0) then
    cpp_assert (bool_decide (integrality_size = num_col_ lp));;
    r ← until_range 0 (num_col_ lp) (λ iCol (_ : unit),
          t ← at_ (integrality_ lp) iCol;
          if decide (t = kSemiContinuous ∨ t = kSemiInteger)
          then mret (Leave true)
          else mret (Next ())) ();
    match r with
    | Leave b => mret b
    | Next _ => mret false
    end
  else mret false.

(** ** HighsLp::operator==, equalNames, equalButForNames *)

Definition equalNames (this lp : HighsLp) : bool :=
  let equal := true in
  let equal := bool_decide (objective_name_ this = objective_name_ lp) && equal in
  let equal := bool_decide (row_names_ this = row_names_ lp) && equal in
  let equal := bool_decide (col_names_ this = col_names_ lp) && equal in
  equal.

Definition equalButForNames (this lp : HighsLp) : bool :=
  let equal := true in
  let equal := bool_decide (num_col_ this = num_col_ lp) && equal in
  let equal := bool_decide (num_row_ this = num_row_ lp) && equal in
  let equal := bool_decide (sense_ this = sense_ lp) && equal in
  let equal := bool_decide (offset_ this = offset_ lp) && equal in
  let equal := bool_decide (model_name_ this = model_name_ lp) && equal in
  let equal := bool_decide (col_cost_ this = col_cost_ lp) && equal in
  let equal := bool_decide (col_upper_ this = col_upper_ lp) && equal in
  let equal := bool_decide (col_lower_ this = col_lower_ lp) && equal in
  let equal := bool_decide (row_upper_ this = row_upper_ lp) && equal in
  let equal := bool_decide (row_lower_ this = row_lower_ lp) && equal in

  let equal := HighsSparseMatrix.eqb (a_matrix_ this) (a_matrix_ lp) in

  let equal :=
    bool_decide (strategy (scale_ this) = strategy (scale_ lp)) && equal in
  let equal :=
    bool_decide (has_scaling (scale_ this) = has_scaling (scale_ lp)) && equal in
  let equal :=
    bool_decide (num_col (scale_ this) = num_col (scale_ lp)) && equal in
  let equal :=
    bool_decide (num_row (scale_ this) = num_row (scale_ lp)) && equal in
  let equal := bool_decide (cost (scale_ this) = cost (scale_ lp)) && equal in
  let equal := bool_decide (col (scale_ this) = col (scale_ lp)) && equal in
  let equal := bool_decide (row (scale_ this) = row (scale_ lp)) && equal in
  equal.

Definition HighsLp_eq (this lp : HighsLp) : bool :=
  let equal := equalButForNames this lp in
  let equal := equalNames this lp && equal in
  equal.

(** ** HighsLp::exactResize *)

Section ExactResize.

(** [HighsSparseMatrix::exactResize], implemented outside this file. *)
Variable matrix_exactResize : HighsSparseMatrix.t → HighsSparseMatrix.t.

(** Value-initialised elements of a grown vector: [0.0], the empty
    string, and the zero enumerator of [HighsVarType], taken to be
    [kContinuous]. *)
Definition exactResize (lp : HighsLp) : outcome HighsLp :=
  v ← vresize 0%Qc (num_col_ lp) (col_cost_ lp);
  let lp := with_col_cost_ v lp in
  v ← vresize 0%Qc (num_col_ lp) (col_lower_ lp);
  let lp := with_col_lower_ v lp in
  v ← vresize 0%Qc (num_col_ lp) (col_upper_ lp);
  let lp := with_col_upper_ v lp in
  v ← vresize 0%Qc (num_row_ lp) (row_lower_ lp);
  let lp := with_row_lower_ v lp in
  v ← vresize 0%Qc (num_row_ lp) (row_upper_ lp);
  let lp := with_row_upper_ v lp in
  let lp := with_a_matrix_ (matrix_exactResize (a_matrix_ lp)) lp in
  lp ← (if decide (vsize (col_names_ lp) ≠ 0)
        then v ← vresize "" (num_col_ lp) (col_names_ lp);
             mret (with_col_names_ v lp)
        else mret lp);
  lp ← (if decide (vsize (row_names_ lp) ≠ 0)
        then v ← vresize "" (num_row_ lp) (row_names_ lp);
             mret (with_row_names_ v lp)
        else mret lp);
  lp ← (if decide (vsize (integrality_ lp) ≠ 0)
        then v ← vresize kContinuous (num_col_ lp) (integrality_ lp);
             mret (with_integrality_ v lp)
        else mret lp);
  mret lp.

End ExactResize.

(** ** HighsLp::applyScale and HighsLp::unapplyScale *)

Definition applyScale (lp : HighsLp) : outcome HighsLp :=
  let scale := scale_ lp in
  if is_scaled_ lp then
    cpp_assert (has_scaling scale);;
    mret lp
  else
    let lp := with_is_scaled_ false lp in
    if has_scaling scale then
      lp ← for_range 0 (num_col_ lp) (λ iCol lp,
             c ← at_ (col scale) iCol;
             v ← update_at (col_lower_ lp) iCol (λ x, x / c)%Qc;
             let lp := with_col_lower_ v lp in
             v ← update_at (col_upper_ lp) iCol (λ x, x / c)%Qc;
             let lp := with_col_upper_ v lp in
             v ← update_at (col_cost_ lp) iCol (λ x, x * c)%Qc;
             mret (with_col_cost_ v lp)) lp;
      lp ← for_range 0 (num_row_ lp) (λ iRow lp,
             r ← at_ (row scale) iRow;
             v ← update_at (row_lower_ lp) iRow (λ x, x * r)%Qc;
             let lp := with_row_lower_ v lp in
             v ← update_at (row_upper_ lp) iRow (λ x, x * r)%Qc;
             mret (with_row_upper_ v lp)) lp;
      m ← HighsSparseMatrix.applyScale scale (a_matrix_ lp);
      let lp := with_a_matrix_ m lp in
      mret (with_is_scaled_ true lp)
    else mret lp.

Definition unapplyScale (lp : HighsLp) : outcome HighsLp :=
  let scale := scale_ lp in
  if negb (is_scaled_ lp) then mret lp
  else
    cpp_assert (has_scaling scale);;
    lp ← for_range 0 (num_col_ lp) (λ iCol lp,
           c ← at_ (col scale) iCol;
           v ← update_at (col_lower_ lp) iCol (λ x, x * c)%Qc;
           let lp := with_col_lower_ v lp in
           v ← update_at (col_upper_ lp) iCol (λ x, x * c)%Qc;
           let lp := with_col_upper_ v lp in
           v ← update_at (col_cost_ lp) iCol (λ x, x / c)%Qc;
           mret (with_col_cost_ v lp)) lp;
    lp ← for_range 0 (num_row_ lp) (λ iRow lp,
           r ← at_ (row scale) iRow;
           v ← update_at (row_lower_ lp) iRow (λ x, x / r)%Qc;
           let lp := with_row_lower_ v lp in
           v ← update_at (row_upper_ lp) iRow (λ x, x / r)%Qc;
           mret (with_row_upper_ v lp)) lp;
    m ← HighsSparseMatrix.unapplyScale scale (a_matrix_ lp);
    let lp := with_a_matrix_ m lp in
    mret (with_is_scaled_ false lp).

(** ** HighsLpMods::clear and HighsLpMods::isClear *)

Definition HighsLpMods_clear (this : HighsLpMods) : HighsLpMods :=
  mkHighsLpMods [] [] [] [] [] [] [] [] [].

Definition HighsLpMods_isClear (this : HighsLpMods) : bool :=
  if decide (vsize (save_non_semi_variable_index this) ≠ 0) then false
  else if decide (vsize (save_inconsistent_semi_variable_index this) ≠ 0)
  then false
  else if decide
    (vsize (save_inconsistent_semi_variable_lower_bound_value this) ≠ 0)
  then false
  else if decide
    (vsize (save_inconsistent_semi_variable_upper_bound_value this) ≠ 0)
  then false
  else if decide (vsize (save_inconsistent_semi_variable_type this) ≠ 0)
  then false
  else if decide (vsize (save_relaxed_semi_variable_lower_bound_value this) ≠ 0)
  then false
  else if decide (vsize (save_relaxed_semi_variable_lower_bound_value this) ≠ 0)
  then false
  else if decide
    (vsize (save_tightened_semi_variable_upper_bound_index this) ≠ 0)
  then false
  else if decide
    (vsize (save_tightened_semi_variable_upper_bound_value this) ≠ 0)
  then false
  else true.

(** ** HighsNameHash *)

(** [m.emplace(k, v)]: the map afterwards, and whether the pair was
    inserted (the [.second] of the result). *)
Definition emplace (k : string) (v : Z) (m : gmap string Z)
    : gmap string Z * bool :=
  match m !! k with
  | Some _ => (m, false)
  | None => (<[k := v]> m, true)
  end.

Definition HighsNameHash_clear (this : HighsNameHash) : HighsNameHash :=
  mkHighsNameHash ∅.

Section NameHash.

(** The sentinel [kHashIsDuplicate], a constant defined in a header that
    is not part of this file. *)
Variable kHashIsDuplicate : Z.

(** One iteration of the loop of [HighsNameHash::form]. *)
Definition HighsNameHash_form_body (name : list string) (index : Z)
    (this : HighsNameHash) : outcome HighsNameHash :=
  nm ← at_ name index;
  let '(m, inserted) := emplace nm index (name2index this) in
  let duplicate := negb inserted in
  if duplicate then
    match m !! nm with
    | None => Fault AssertionFailure
    | Some second =>
        cpp_assert (bool_decide (second < Z.of_nat (size m)));;
        let m := delete nm m in
        let m := (emplace nm kHashIsDuplicate m).1 in
        mret (mkHighsNameHash m)
    end
  else mret (mkHighsNameHash m).

Definition HighsNameHash_form (name : list string) (this : HighsNameHash)
    : outcome HighsNameHash :=
  let num_name := vsize name in
  let this := HighsNameHash_clear this in
  for_range 0 num_name (HighsNameHash_form_body name) this.

End NameHash.

(** [HighsNameHash::hasDuplicate]: the returned flag and the hash
    afterwards. *)
Definition HighsNameHash_hasDuplicate (name : list string)
    (this : HighsNameHash) : outcome (bool * HighsNameHash) :=
  let num_name := vsize name in
  let this := HighsNameHash_clear this in
  let has_duplicate := false in
  r ← until_range 0 num_name (λ index '(this, _),
        nm ← at_ name index;
        let '(m, inserted) := emplace nm index (name2index this) in
        let has_duplicate := negb inserted in
        if has_duplicate
        then mret (Leave (mkHighsNameHash m, has_duplicate))
        else mret (Next (mkHighsNameHash m, has_duplicate)))
      (this, has_duplicate);
  let '(this, has_duplicate) :=
    match r with Next s => s | Leave s => s end in
  let this := HighsNameHash_clear this in
  mret (has_duplicate, this).

(** ** HighsLp::addColNames *)

Section AddColNames.

Variable kHashIsDuplicate : Z.

(** The body of the loop over the new columns; [Leave] is the [return]
    of the failure branch. *)
Definition addColNames_body (col_names_size : Z) (iCol : Z) (lp : HighsLp)
    : outcome (flow HighsLp HighsLp) :=
  let col_name := "col_ekk_" +:+ pretty (new_col_name_ix_ lp) in
  let lp := with_new_col_name_ix_ (new_col_name_ix_ lp + 1) lp in
  let added := false in
  '(lp, added) ←
    match name2index (col_hash_ lp) !! col_name with
    | None =>
        if decide (col_names_size = num_col_ lp) then
          mret (with_col_names_ (col_names_ lp ++ [col_name]) lp, true)
        else if decide (col_names_size > iCol) then
          cur ← at_ (col_names_ lp) iCol;
          if decide (cur = "") then
            v ← set_at (col_names_ lp) iCol col_name;
            mret (with_col_names_ v lp, true)
          else mret (lp, added)
        else mret (lp, added)
    | Some _ => mret (lp, added)
    end;
  if added : bool then
    let '(m, inserted) := emplace col_name iCol (name2index (col_hash_ lp)) in
    let lp := with_col_hash_ (mkHighsNameHash m) lp in
    let duplicate := negb inserted in
    cpp_assert (negb duplicate);;
    cur ← at_ (col_names_ lp) iCol;
    cpp_assert (bool_decide (cur = col_name));;
    match name2index (col_hash_ lp) !! col_name with
    | Some second => cpp_assert (bool_decide (second = iCol))
    | None => Fault OutOfRange
    end;;
    mret (Next lp)
  else
    mret (Leave (with_col_hash_ (mkHighsNameHash ∅) lp)).

(** The part of [addColNames] before the loop: the two early returns
    ([Leave]), the forming of the hash and the assertion on [name]. *)
Definition addColNames_entry (name : string) (lp : HighsLp)
    : outcome (flow HighsLp HighsLp) :=
  if decide (num_col_ lp = 0) then mret (Leave lp) else
  let col_names_size := vsize (col_names_ lp) in
  if decide (col_names_size < num_col_ lp) then mret (Leave lp) else
  lp ← (if decide (size (name2index (col_hash_ lp)) = 0%nat)
        then h ← HighsNameHash_form kHashIsDuplicate
                   (col_names_ lp) (col_hash_ lp);
             mret (with_col_hash_ h lp)
        else mret lp);
  cpp_assert (bool_decide (name = ""));;
  mret (Next lp).

Definition addColNames (name : string) (num_new_col : Z) (lp : HighsLp)
    : outcome HighsLp :=
  let col_names_size := vsize (col_names_ lp) in
  e ← addColNames_entry name lp;
  match e with
  | Leave lp => mret lp
  | Next lp =>
      r ← until_range (num_col_ lp) (num_col_ lp + num_new_col)
            (addColNames_body col_names_size) lp;
      match r with
      | Next lp => mret lp
      | Leave lp => mret lp
      end
  end.

End AddColNames.

(** ** HighsLp::unapplyMods *)

Definition is_semi (t : HighsVarType) : bool :=
  bool_decide (t = kSemiContinuous) || bool_decide (t = kSemiInteger).

Definition unapplyMods (lp : HighsLp) : outcome HighsLp :=
  (* Restore any non-semi types *)
  let num_non_semi := vsize (save_non_semi_variable_index (mods_ lp)) in
  lp ← for_range 0 num_non_semi (λ k lp,
         iCol ← at_ (save_non_semi_variable_index (mods_ lp)) k;
         t ← at_ (integrality_ lp) iCol;
         cpp_assert (bool_decide (t = kContinuous) || bool_decide (t = kInteger));;
         t ← at_ (integrality_ lp) iCol;
         v ← (if decide (t = kContinuous)
              then set_at (integrality_ lp) iCol kSemiContinuous
              else set_at (integrality_ lp) iCol kSemiInteger);
         mret (with_integrality_ v lp)) lp;
  (* Restore any inconsistent semi variables *)
  let num_inconsistent_semi :=
    vsize (save_inconsistent_semi_variable_index (mods_ lp)) in
  (if decide (num_inconsistent_semi = 0) then
     cpp_assert (bool_decide (vsize
       (save_inconsistent_semi_variable_lower_bound_value (mods_ lp)) = 0));;
     cpp_assert (bool_decide (vsize
       (save_inconsistent_semi_variable_upper_bound_value (mods_ lp)) = 0));;
     cpp_assert (bool_decide (vsize
       (save_inconsistent_semi_variable_type (mods_ lp)) = 0))
   else mret ());;
  lp ← for_range 0 num_inconsistent_semi (λ k lp,
         iCol ← at_ (save_inconsistent_semi_variable_index (mods_ lp)) k;
         x ← at_ (save_inconsistent_semi_variable_lower_bound_value (mods_ lp)) k;
         v ← set_at (col_lower_ lp) iCol x;
         let lp := with_col_lower_ v lp in
         x ← at_ (save_inconsistent_semi_variable_upper_bound_value (mods_ lp)) k;
         v ← set_at (col_upper_ lp) iCol x;
         let lp := with_col_upper_ v lp in
         x ← at_ (save_inconsistent_semi_variable_type (mods_ lp)) k;
         v ← set_at (integrality_ lp) iCol x;
         mret (with_integrality_ v lp)) lp;
  (* Restore any relaxed lower bounds *)
  let relaxed_semi_variable_lower_index :=
    save_relaxed_semi_variable_lower_bound_index (mods_ lp) in
  let relaxed_semi_variable_lower_value :=
    save_relaxed_semi_variable_lower_bound_value (mods_ lp) in
  let num_lower_bound := vsize relaxed_semi_variable_lower_index in
  (if decide (num_lower_bound = 0) then
     cpp_assert (bool_decide (vsize relaxed_semi_variable_lower_value = 0))
   else mret ());;
  lp ← for_range 0 num_lower_bound (λ k lp,
         iCol ← at_ relaxed_semi_variable_lower_index k;
         t ← at_ (integrality_ lp) iCol;
         cpp_assert (is_semi t);;
         x ← at_ relaxed_semi_variable_lower_value k;
         v ← set_at (col_lower_ lp) iCol x;
         mret (with_col_lower_ v lp)) lp;
  (* Restore any tightened upper bounds *)
  let tightened_semi_variable_upper_bound_index :=
    save_tightened_semi_variable_upper_bound_index (mods_ lp) in
  let tightened_semi_variable_upper_bound_value :=
    save_tightened_semi_variable_upper_bound_value (mods_ lp) in
  let num_upper_bound := vsize tightened_semi_variable_upper_bound_index in
  (if decide (num_upper_bound = 0) then
     cpp_assert
       (bool_decide (vsize tightened_semi_variable_upper_bound_value = 0))
   else mret ());;
  lp ← for_range 0 num_upper_bound (λ k lp,
         iCol ← at_ tightened_semi_variable_upper_bound_index k;
         t ← at_ (integrality_ lp) iCol;
         cpp_assert (is_semi t);;
         x ← at_ tightened_semi_variable_upper_bound_value k;
         v ← set_at (col_upper_ lp) iCol x;
         mret (with_col_upper_ v lp)) lp;
  mret (with_mods_ (HighsLpMods_clear (mods_ lp)) lp).


(** ** Sample models *)

Module Sample.

Definition matrix0 : HighsSparseMatrix.t :=
  HighsSparseMatrix.mk kColwise 0 0 [].

Definition scale0 : HighsScale := mkHighsScale 0 false 0 0 0%Qc [] [].

Definition mods0 : HighsLpMods := mkHighsLpMods [] [] [] [] [] [] [] [] [].

Definition hash0 : HighsNameHash := mkHighsNameHash ∅.

(** The model after [clear()], with offset [off]. *)
Definition cleared (off : Qc) : HighsLp :=
  mkHighsLp 0 0 [] [] [] [] [] matrix0 kMinimize off "" "" 0 0 [] [] []
    hash0 hash0 scale0 false false (-1) mods0.

(** A journal whose only entry is the index [0] in the log of relaxed
    lower bounds. *)
Definition mods_relaxed_index_only : HighsLpMods :=
  mkHighsLpMods [] [] [] [] [] [0] [] [] [].

(** Two columns, the second one an integer column. *)
Definition mip2 : HighsLp :=
  mkHighsLp 2 0 [1%Qc; 1%Qc] [0%Qc; 0%Qc] [1%Qc; 1%Qc] [] [] matrix0
    kMinimize 0%Qc "" "" 0 0 [] [] [kContinuous; kInteger]
    hash0 hash0 scale0 false false (-1) mods0.

(** Three columns with cost and bounds, no names and no types tracked,
    whose column count has been raised to five. *)
Definition grown5 : HighsLp :=
  mkHighsLp 5 0 [1%Qc; 1%Qc; 1%Qc] [0%Qc; 0%Qc; 0%Qc] [1%Qc; 1%Qc; 1%Qc]
    [] [] matrix0 kMinimize 0%Qc "" "" 0 0 [] [] []
    hash0 hash0 scale0 false false (-1) mods0.

Definition half : Qc := Q2Qc (1 # 2).
Definition three : Qc := Q2Qc 3.

(** Two columns and one row, with a scale that is defined (column
    factors 2 and 1/2, row factor 3) and not applied. *)
Definition scalable : HighsLp :=
  mkHighsLp 2 1 [1%Qc; three] [0%Qc; half] [Q2Qc 2; three] [half] [three]
    (HighsSparseMatrix.mk kColwise 2 1 [(0, 0, three); (0, 1, half)])
    kMinimize 0%Qc "" "" 0 0 [] [] []
    hash0 hash0 (mkHighsScale 2 true 2 1 1%Qc [Q2Qc 2; half] [three])
    false false (-1) mods0.

(** Four columns after a preprocessing that journalled all four kinds
    of change: column 0 had its semi-continuous type replaced by
    continuous (log 1); column 1 was an inconsistent semi-integer
    column, now continuous with bounds 0 and 0 (log 2); column 2 had its
    lower bound relaxed (log 3) and column 3 its upper bound tightened
    (log 4). *)
Definition journalled : HighsLp :=
  mkHighsLp 4 0 [1%Qc; 1%Qc; 1%Qc; 1%Qc]
    [0%Qc; 0%Qc; 0%Qc; 1%Qc] [1%Qc; 0%Qc; three; Q2Qc 2]
    [] [] matrix0 kMinimize 0%Qc "" "" 0 0 [] []
    [kContinuous; kContinuous; kSemiContinuous; kSemiInteger]
    hash0 hash0 scale0 false false (-1)
    (mkHighsLpMods [0] [1] [three] [Q2Qc 2] [kSemiInteger]
       [2] [half] [3] [three]).

(** Two named columns, the second of which carries a name of the form
    the model synthesizes; the hash is not built yet. *)
Definition named2 : HighsLp :=
  mkHighsLp 2 0 [1%Qc; 1%Qc] [0%Qc; 0%Qc] [1%Qc; 1%Qc] [] [] matrix0
    kMinimize 0%Qc "" "" 0 0 ["a"; "col_ekk_1"] [] []
    hash0 hash0 scale0 false false (-1) mods0.

(** Two columns and a names vector pre-sized to three entries, the
    third slot already holding a name. *)
Definition presized3 : HighsLp :=
  mkHighsLp 2 0 [1%Qc; 1%Qc] [0%Qc; 0%Qc] [1%Qc; 1%Qc] [] [] matrix0
    kMinimize 0%Qc "" "" 0 0 ["a"; "b"; "x"] [] []
    hash0 hash0 scale0 false false (-1) mods0.

(** Two columns named a and b, one row named r; no hash built, both
    counters at zero. *)
Definition named_ab : HighsLp :=
  mkHighsLp 2 1 [1%Qc; 1%Qc] [0%Qc; 0%Qc] [1%Qc; 1%Qc] [0%Qc] [1%Qc] matrix0
    kMinimize 0%Qc "" "" 0 0 ["a"; "b"] ["r"] []
    hash0 hash0 scale0 false false (-1) mods0.

(** No column and two rows, the second with a name of the synthesized
    form; no hash built, the row counter at zero. *)
Definition rows2 : HighsLp :=
  mkHighsLp 0 2 [] [] [] [0%Qc; 0%Qc] [1%Qc; 1%Qc] matrix0
    kMinimize 0%Qc "" "" 0 0 [] ["r"; "row_ekk_1"] []
    hash0 hash0 scale0 false false (-1) mods0.

(** Three columns with names and types tracked and one row without a
    name, whose column count has been lowered to two and whose row count
    has been raised to two. *)
Definition resized32 : HighsLp :=
  mkHighsLp 2 2 [1%Qc; Q2Qc 2; Q2Qc 3] [0%Qc; 0%Qc; 0%Qc] [Q2Qc 4; Q2Qc 5; Q2Qc 6]
    [Q2Qc 7] [Q2Qc 8] matrix0 kMinimize 0%Qc "" "" 0 0 ["a"; "b"; "c"] []
    [kContinuous; kInteger; kSemiInteger]
    hash0 hash0 scale0 false false (-1) mods0.

(** Three distinct names, and three names with a repetition. *)
Definition names_distinct : list string := ["x1"; "x2"; "x3"].
Definition names_repeated : list string := ["x1"; "x2"; "x1"].

(** A solution for the two columns of [scalable]. *)
Definition solution2 : list Qc := [three; half].

(** The same model marked as scaled. *)
Definition scaled_up : HighsLp := with_is_scaled_ true scalable.

End Sample.

(** ** Preconditions and closed forms of the loops *)

(** The vector [v] after a loop [for (j = 0; j < n; j++) v[j] = f(v[j], s[j])]. *)
Definition scaled (f : Qc → Qc → Qc) (n : nat) (s v : list Qc) : list Qc :=
  imap (λ j x,
    if decide (j < n)%nat
    then match s !! j with Some c => f x c | None => x end
    else x) v.

(** Every index that [applyScale] and [unapplyScale] use is inside its
    vector: the column loop stays inside the column factors and the three
    column vectors, the row loop inside the row factors and the two row
    vectors, and every matrix entry names a row and a column that has a
    factor. *)
Definition scaling_in_range (lp : HighsLp) : Prop :=
  num_col_ lp ≤ vsize (col (scale_ lp)) ∧
  num_col_ lp ≤ vsize (col_lower_ lp) ∧
  num_col_ lp ≤ vsize (col_upper_ lp) ∧
  num_col_ lp ≤ vsize (col_cost_ lp) ∧
  num_row_ lp ≤ vsize (row (scale_ lp)) ∧
  num_row_ lp ≤ vsize (row_lower_ lp) ∧
  num_row_ lp ≤ vsize (row_upper_ lp) ∧
  Forall (λ e : Z * Z * Qc,
            0 ≤ e.1.1 < vsize (row (scale_ lp)) ∧
            0 ≤ e.1.2 < vsize (col (scale_ lp)))
         (HighsSparseMatrix.entries (a_matrix_ lp)).

(** The state of the model after [k] iterations of a column loop that
    applies [fl], [fu] and [fc] to lower bound, upper bound and cost. *)
Definition col_loop_state (fl fu fc : Qc → Qc → Qc) (s : list Qc)
    (lp : HighsLp) (k : nat) : HighsLp :=
  with_col_cost_ (scaled fc k s (col_cost_ lp))
    (with_col_upper_ (scaled fu k s (col_upper_ lp))
       (with_col_lower_ (scaled fl k s (col_lower_ lp)) lp)).

(** The same for a row loop on the two row bounds. *)
Definition row_loop_state (fl fu : Qc → Qc → Qc) (s : list Qc)
    (lp : HighsLp) (k : nat) : HighsLp :=
  with_row_upper_ (scaled fu k s (row_upper_ lp))
    (with_row_lower_ (scaled fl k s (row_lower_ lp)) lp).

(** A matrix entry after the per-entry operation [op value c r], with [c]
    the factor of its column and [r] the factor of its row. *)
Definition scaled_entry (op : Qc → Qc → Qc → Qc) (scale : HighsScale)
    (e : Z * Z * Qc) : Z * Z * Qc :=
  let '(i, j, v) := e in
  match col scale !! Z.to_nat j, row scale !! Z.to_nat i with
  | Some c, Some r => (i, j, op v c r)
  | _, _ => e
  end.

(** ** The restore of the modification journal, as the design describes it *)

Module Restore.

(** Step 1 of the restore: a type that was continuous goes back to
    semi-continuous, one that was integer to semi-integer. *)
Definition semi_of (t : HighsVarType) : HighsVarType :=
  match t with
  | kContinuous => kSemiContinuous
  | kInteger => kSemiInteger
  | t => t
  end.

Definition retype (idx : list Z) (types : list HighsVarType)
    : list HighsVarType :=
  foldl (λ ty i, alter semi_of (Z.to_nat i) ty) types idx.

(** Steps 2 to 4 overwrite entries with saved values, in the order of
    the log. *)
Definition writes {A} (ws : list (Z * A)) (v : list A) : list A :=
  foldl (λ v w, <[Z.to_nat w.1 := w.2]> v) v ws.

Definition types (lp : HighsLp) : list HighsVarType :=
  let m := mods_ lp in
  writes (zip (save_inconsistent_semi_variable_index m)
              (save_inconsistent_semi_variable_type m))
    (retype (save_non_semi_variable_index m) (integrality_ lp)).

Definition lower (lp : HighsLp) : list Qc :=
  let m := mods_ lp in
  writes (zip (save_relaxed_semi_variable_lower_bound_index m)
              (save_relaxed_semi_variable_lower_bound_value m))
    (writes (zip (save_inconsistent_semi_variable_index m)
                 (save_inconsistent_semi_variable_lower_bound_value m))
       (col_lower_ lp)).

Definition upper (lp : HighsLp) : list Qc :=
  let m := mods_ lp in
  writes (zip (save_tightened_semi_variable_upper_bound_index m)
              (save_tightened_semi_variable_upper_bound_value m))
    (writes (zip (save_inconsistent_semi_variable_index m)
                 (save_inconsistent_semi_variable_upper_bound_value m))
       (col_upper_ lp)).

(** The model after the restore: types and bounds written back, all
    four logs empty. *)
Definition restored (lp : HighsLp) : HighsLp :=
  with_mods_ (mkHighsLpMods [] [] [] [] [] [] [] [] [])
    (with_col_upper_ (upper lp)
       (with_col_lower_ (lower lp)
          (with_integrality_ (types lp) lp))).

(** The type of column [i] is continuous or integer. *)
Definition plain_at (ty : list HighsVarType) (i : Z) : Prop :=
  ty !! Z.to_nat i = Some kContinuous ∨ ty !! Z.to_nat i = Some kInteger.

(** The type of column [i] is semi-continuous or semi-integer. *)
Definition semi_at (ty : list HighsVarType) (i : Z) : Prop :=
  ty !! Z.to_nat i = Some kSemiContinuous ∨
  ty !! Z.to_nat i = Some kSemiInteger.

(** The index and value vectors of each log have the same length. *)
Definition paired (m : HighsLpMods) : Prop :=
  length (save_inconsistent_semi_variable_lower_bound_value m)
    = length (save_inconsistent_semi_variable_index m) ∧
  length (save_inconsistent_semi_variable_upper_bound_value m)
    = length (save_inconsistent_semi_variable_index m) ∧
  length (save_inconsistent_semi_variable_type m)
    = length (save_inconsistent_semi_variable_index m) ∧
  length (save_relaxed_semi_variable_lower_bound_value m)
    = length (save_relaxed_semi_variable_lower_bound_index m) ∧
  length (save_tightened_semi_variable_upper_bound_value m)
    = length (save_tightened_semi_variable_upper_bound_index m).

(** Every logged column index is an index of the vectors the restore
    reads or writes for it. *)
Definition in_range (lp : HighsLp) : Prop :=
  let m := mods_ lp in
  Forall (λ i, 0 ≤ i < vsize (integrality_ lp))
    (save_non_semi_variable_index m) ∧
  Forall (λ i, 0 ≤ i < vsize (integrality_ lp) ∧
               0 ≤ i < vsize (col_lower_ lp) ∧
               0 ≤ i < vsize (col_upper_ lp))
    (save_inconsistent_semi_variable_index m) ∧
  Forall (λ i, 0 ≤ i < vsize (integrality_ lp) ∧
               0 ≤ i < vsize (col_lower_ lp))
    (save_relaxed_semi_variable_lower_bound_index m) ∧
  Forall (λ i, 0 ≤ i < vsize (integrality_ lp) ∧
               0 ≤ i < vsize (col_upper_ lp))
    (save_tightened_semi_variable_upper_bound_index m).

(** The type preconditions, each on the type the column has when its
    entry is processed: an entry of log 1 finds its column continuous or
    integer after the entries before it; the columns of logs 3 and 4 are
    semi-continuous or semi-integer once logs 1 and 2 are written
    back. *)
Definition types_ok (lp : HighsLp) : Prop :=
  let m := mods_ lp in
  (∀ k i, save_non_semi_variable_index m !! k = Some i →
     plain_at (retype (take k (save_non_semi_variable_index m))
                 (integrality_ lp)) i) ∧
  Forall (semi_at (types lp))
    (save_relaxed_semi_variable_lower_bound_index m) ∧
  Forall (semi_at (types lp))
    (save_tightened_semi_variable_upper_bound_index m).

Definition preconditions (lp : HighsLp) : Prop :=
  paired (mods_ lp) ∧ in_range lp ∧ types_ok lp.

End Restore.

(** ** Runs of the loop of addColNames *)





(** ** The mapping that form is meant to build *)

(** [form_spec k names m]: a name that does not occur in [names] has no
    entry in [m], a name that occurs at exactly one index is mapped to that
    index, and a name that occurs at two or more indices is mapped to the
    sentinel [k]. *)
Definition form_spec (k : Z) (names : list string) (m : gmap string Z) : Prop :=
  ∀ nm,
    (nm ∉ names → m !! nm = None) ∧
    (∀ i, names !! i = Some nm →
          (∀ j, names !! j = Some nm → j = i) →
          m !! nm = Some (Z.of_nat i)) ∧
    (∀ i j, i ≠ j → names !! i = Some nm → names !! j = Some nm →
            m !! nm = Some k).

(** ** What a resize leaves in a vector *)

(** [resized d n v v']: the vector [v'] has exactly [n] entries; those
    below the old length are the entries of [v], the others are [d]. *)
Definition resized {A} (d : A) (n : Z) (v v' : list A) : Prop :=
  vsize v' = n ∧
  ∀ j : nat, Z.of_nat j < n →
    v' !! j = Some (match v !! j with Some x => x | None => d end).

(** The same for a names or types vector, which is resized only when it
    is not empty. *)
Definition resized_if_tracked {A} (d : A) (n : Z) (v v' : list A) : Prop :=
  match v with
  | [] => v' = []
  | _ :: _ => resized d n v v'
  end.

(** The model [lp] with the members that [exactResize] assigns set to
    their values in [lp0]. *)
Definition reset_sized (lp0 lp : HighsLp) : HighsLp :=
  with_integrality_ (integrality_ lp0)
    (with_row_names_ (row_names_ lp0)
       (with_col_names_ (col_names_ lp0)
          (with_a_matrix_ (a_matrix_ lp0)
             (with_row_upper_ (row_upper_ lp0)
                (with_row_lower_ (row_lower_ lp0)
                   (with_col_upper_ (col_upper_ lp0)
                      (with_col_lower_ (col_lower_ lp0)
                         (with_col_cost_ (col_cost_ lp0) lp)))))))).

(** * The other operations of the file *)

Definition with_new_row_name_ix_ (v : Z) (lp : HighsLp) : HighsLp :=
  let 'mkHighsLp a b c d e f g h i j k l m _ o p q r s t u w x y := lp in
  mkHighsLp a b c d e f g h i j k l m v o p q r s t u w x y.
Definition with_row_hash_ (v : HighsNameHash) (lp : HighsLp) : HighsLp :=
  let 'mkHighsLp a b c d e f g h i j k l m n o p q r _ t u w x y := lp in
  mkHighsLp a b c d e f g h i j k l m n o p q r v t u w x y.
Definition with_scale_ (v : HighsScale) (lp : HighsLp) : HighsLp :=
  let 'mkHighsLp a b c d e f g h i j k l m n o p q r s _ u w x y := lp in
  mkHighsLp a b c d e f g h i j k l m n o p q r s v u w x y.

(** ** HighsLp::objectiveValue *)

Definition objectiveValue (solution : list Qc) (lp : HighsLp) : outcome Qc :=
  cpp_assert (bool_decide (num_col_ lp ≤ vsize solution));;
  let objective_function_value := offset_ lp in
  for_range 0 (num_col_ lp) (λ iCol objective_function_value,
      c ← at_ (col_cost_ lp) iCol;
      x ← at_ solution iCol;
      mret (objective_function_value + c * x)%Qc)
    objective_function_value.

(** ** HighsLp::clearScale, resetScale, clearScaling, clear *)

Section Clear.

(** The constant [kSimplexScaleStrategyOff], defined in a header that is
    not part of this file. *)
Variable kSimplexScaleStrategyOff : Z.

(** [HighsSparseMatrix::clear], implemented outside this file. *)
Variable matrix_clear : HighsSparseMatrix.t → HighsSparseMatrix.t.

Definition clearScale (lp : HighsLp) : HighsLp :=
  with_scale_ (mkHighsScale kSimplexScaleStrategyOff false 0 0 0%Qc [] []) lp.

Definition resetScale (lp : HighsLp) : HighsLp := clearScale lp.

Definition clearScaling (lp : HighsLp) : outcome HighsLp :=
  lp ← unapplyScale lp;
  mret (clearScale lp).

(** [clear()] assigns every member; the members are listed in the order
    of the record, the scale being the one [clearScale] leaves. *)
Definition clear (lp : HighsLp) : HighsLp :=
  clearScale
    (mkHighsLp 0 0 [] [] [] [] [] (matrix_clear (a_matrix_ lp))
       kMinimize 0%Qc "" "" 0 0 [] [] []
       (HighsNameHash_clear (col_hash_ lp))
       (HighsNameHash_clear (row_hash_ lp))
       (scale_ lp) false false (-1) (HighsLpMods_clear (mods_ lp))).

End Clear.

(** ** HighsLp::moveBackLpAndUnapplyScaling *)

(** [*this = std::move(lp)] gives [*this] the members of [lp]; the state
    the argument is left in is not modelled. *)
Definition moveBackLpAndUnapplyScaling (lp this : HighsLp) : outcome HighsLp :=
  cpp_assert (bool_decide (is_moved_ this = true));;
  let this := lp in
  this ← unapplyScale this;
  cpp_assert (bool_decide (is_moved_ this = false));;
  mret this.

(** ** HighsLp::addRowNames *)

Section AddRowNames.

Variable kHashIsDuplicate : Z.

Definition addRowNames_body (row_names_size : Z) (iRow : Z) (lp : HighsLp)
    : outcome (flow HighsLp HighsLp) :=
  let row_name := "row_ekk_" +:+ pretty (new_row_name_ix_ lp) in
  let lp := with_new_row_name_ix_ (new_row_name_ix_ lp + 1) lp in
  let added := false in
  '(lp, added) ←
    match name2index (row_hash_ lp) !! row_name with
    | None =>
        if decide (row_names_size = num_row_ lp) then
          mret (with_row_names_ (row_names_ lp ++ [row_name]) lp, true)
        else if decide (row_names_size > iRow) then
          cur ← at_ (row_names_ lp) iRow;
          if decide (cur = "") then
            v ← set_at (row_names_ lp) iRow row_name;
            mret (with_row_names_ v lp, true)
          else mret (lp, added)
        else mret (lp, added)
    | Some _ => mret (lp, added)
    end;
  if added : bool then
    let '(m, inserted) := emplace row_name iRow (name2index (row_hash_ lp)) in
    let lp := with_row_hash_ (mkHighsNameHash m) lp in
    let duplicate := negb inserted in
    cpp_assert (negb duplicate);;
    cur ← at_ (row_names_ lp) iRow;
    cpp_assert (bool_decide (cur = row_name));;
    match name2index (row_hash_ lp) !! row_name with
    | Some second => cpp_assert (bool_decide (second = iRow))
    | None => Fault OutOfRange
    end;;
    mret (Next lp)
  else
    mret (Leave (with_row_hash_ (mkHighsNameHash ∅) lp)).

Definition addRowNames_entry (name : string) (lp : HighsLp)
    : outcome (flow HighsLp HighsLp) :=
  if decide (num_row_ lp = 0) then mret (Leave lp) else
  let row_names_size := vsize (row_names_ lp) in
  if decide (row_names_size < num_row_ lp) then mret (Leave lp) else
  lp ← (if decide (size (name2index (row_hash_ lp)) = 0%nat)
        then h ← HighsNameHash_form kHashIsDuplicate
                   (row_names_ lp) (row_hash_ lp);
             mret (with_row_hash_ h lp)
        else mret lp);
  cpp_assert (bool_decide (name = ""));;
  mret (Next lp).

Definition addRowNames (name : string) (num_new_row : Z) (lp : HighsLp)
    : outcome HighsLp :=
  let row_names_size := vsize (row_names_ lp) in
  e ← addRowNames_entry name lp;
  match e with
  | Leave lp => mret lp
  | Next lp =>
      r ← until_range (num_row_ lp) (num_row_ lp + num_new_row)
            (addRowNames_body row_names_size) lp;
      match r with
      | Next lp => mret lp
      | Leave lp => mret lp
      end
  end.

End AddRowNames.

(** ** Closed forms for the other operations *)

(** The products [cost[j] * solution[j]] of the first [n] columns. *)
Definition objective_terms (n : nat) (cost solution : list Qc) : list Qc :=
  zip_with Qcmult (take n cost) (take n solution).

(** The model [lp] with the members that [applyScale] and [unapplyScale]
    assign set to their values in [lp0]. *)
Definition reset_scaled_values (lp0 lp : HighsLp) : HighsLp :=
  with_is_scaled_ (is_scaled_ lp0)
    (with_a_matrix_ (a_matrix_ lp0)
       (with_row_upper_ (row_upper_ lp0)
          (with_row_lower_ (row_lower_ lp0)
             (with_col_cost_ (col_cost_ lp0)
                (with_col_upper_ (col_upper_ lp0)
                   (with_col_lower_ (col_lower_ lp0) lp)))))).

(** The model agrees with [lp0] on every member that [applyScale] and
    [unapplyScale] do not assign. *)
Definition same_but_scaled_values (lp0 lp : HighsLp) : Prop :=
  reset_scaled_values lp0 lp = lp0.

(** The five scaled vectors have the lengths they have in [lp0]. *)
Definition same_vector_lengths (lp0 lp : HighsLp) : Prop :=
  length (col_cost_ lp) = length (col_cost_ lp0) ∧
  length (col_lower_ lp) = length (col_lower_ lp0) ∧
  length (col_upper_ lp) = length (col_upper_ lp0) ∧
  length (row_lower_ lp) = length (row_lower_ lp0) ∧
  length (row_upper_ lp) = length (row_upper_ lp0).

(** The columns that the journal names, in any of its four logs. *)
Definition journal_columns (m : HighsLpMods) : list Z :=
  save_non_semi_variable_index m ++
  save_inconsistent_semi_variable_index m ++
  save_relaxed_semi_variable_lower_bound_index m ++
  save_tightened_semi_variable_upper_bound_index m.

(** The model [lp] with the members that the loops of [unapplyMods]
    assign set to their values in [lp0]. *)
Definition reset_journalled (lp0 lp : HighsLp) : HighsLp :=
  with_integrality_ (integrality_ lp0)
    (with_col_upper_ (col_upper_ lp0)
       (with_col_lower_ (col_lower_ lp0) lp)).

(** What the loops of [unapplyMods] keep: every member but types and
    column bounds, the lengths of these three vectors, and their entries
    at a column [j] that the journal does not name. *)
Definition journal_inv (lp0 : HighsLp) (j : nat) (lp : HighsLp) : Prop :=
  reset_journalled lp0 lp = lp0 ∧
  (length (integrality_ lp) = length (integrality_ lp0) ∧
   length (col_lower_ lp) = length (col_lower_ lp0) ∧
   length (col_upper_ lp) = length (col_upper_ lp0)) ∧
  (Z.of_nat j ∉ journal_columns (mods_ lp0) →
   integrality_ lp !! j = integrality_ lp0 !! j ∧
   col_lower_ lp !! j = col_lower_ lp0 !! j ∧
   col_upper_ lp !! j = col_upper_ lp0 !! j).

(** The range of [HighsInt], which is [int] unless the build asks for 64
    bits. *)
Definition HighsInt_range (z : Z) : Prop := - 2 ^ 31 ≤ z ≤ 2 ^ 31 - 1.

(** A call of [addColNames] for [num_new_col] new columns that increments
    the counter at most [increments] times computes no [HighsInt] outside
    the range: the counts, the bound of the loop, and the counter up to
    its last increment. *)
Definition col_batch_in_range (num_new_col increments : Z) (lp : HighsLp)
    : Prop :=
  HighsInt_range (num_col_ lp) ∧ HighsInt_range num_new_col ∧
  HighsInt_range (num_col_ lp + num_new_col) ∧
  HighsInt_range (new_col_name_ix_ lp) ∧
  HighsInt_range (new_col_name_ix_ lp + increments).

(** The [n] names synthesized from the counter value [c] on. *)
Definition synthesized (prefix : string) (c : Z) (n : nat) : list string :=
  (λ d : nat, prefix +:+ pretty (c + Z.of_nat d)) <$> seq 0 n.

(** The hash after these names have been entered for the indices from
    [z] on. *)
Definition hash_with (prefix : string) (c z : Z) (n : nat)
    (m : gmap string Z) : gmap string Z :=
  foldl (λ m (d : nat),
           <[prefix +:+ pretty (c + Z.of_nat d) := z + Z.of_nat d]> m)
        m (seq 0 n).

(** The model after [d] iterations of [addColNames] that each appended
    a name. *)
Definition named_cols (lp0 : HighsLp) (d : nat) : HighsLp :=
  let c := new_col_name_ix_ lp0 in
  with_col_hash_
    (mkHighsNameHash
       (hash_with "col_ekk_" c (num_col_ lp0) d (name2index (col_hash_ lp0))))
    (with_col_names_ (col_names_ lp0 ++ synthesized "col_ekk_" c d)
       (with_new_col_name_ix_ (c + Z.of_nat d) lp0)).

(** The state a loop with early exit ends in. *)
Definition flow_state {S} (r : flow S S) : S :=
  match r with Next s => s | Leave s => s end.

(** The model [lp] with the members that [addColNames] assigns set to
    their values in [lp0]. *)
Definition reset_col_naming (lp0 lp : HighsLp) : HighsLp :=
  with_col_hash_ (col_hash_ lp0)
    (with_col_names_ (col_names_ lp0)
       (with_new_col_name_ix_ (new_col_name_ix_ lp0) lp)).

(** What [addColNames] keeps: every member but names, hash and counter;
    the names of the columns the model has; the names vector does not
    shrink and the counter does not go back. *)
Definition col_naming_inv (lp0 lp : HighsLp) : Prop :=
  reset_col_naming lp0 lp = lp0 ∧
  (length (col_names_ lp0) ≤ length (col_names_ lp))%nat ∧
  new_col_name_ix_ lp0 ≤ new_col_name_ix_ lp ∧
  ∀ j : nat, Z.of_nat j < num_col_ lp0 →
             col_names_ lp !! j = col_names_ lp0 !! j.

(** A call of [addRowNames] for [num_new_row] new rows that increments
    the counter at most [increments] times computes no [HighsInt] outside
    the range: the counts, the bound of the loop, and the counter up to
    its last increment. *)
Definition row_batch_in_range (num_new_row increments : Z) (lp : HighsLp)
    : Prop :=
  HighsInt_range (num_row_ lp) ∧ HighsInt_range num_new_row ∧
  HighsInt_range (num_row_ lp + num_new_row) ∧
  HighsInt_range (new_row_name_ix_ lp) ∧
  HighsInt_range (new_row_name_ix_ lp + increments).

(** The model after [d] iterations of [addRowNames] that each appended
    a name. *)
Definition named_rows (lp0 : HighsLp) (d : nat) : HighsLp :=
  let c := new_row_name_ix_ lp0 in
  with_row_hash_
    (mkHighsNameHash
       (hash_with "row_ekk_" c (num_row_ lp0) d (name2index (row_hash_ lp0))))
    (with_row_names_ (row_names_ lp0 ++ synthesized "row_ekk_" c d)
       (with_new_row_name_ix_ (c + Z.of_nat d) lp0)).

(** The model [lp] with the members that [addRowNames] assigns set to
    their values in [lp0]. *)
Definition reset_row_naming (lp0 lp : HighsLp) : HighsLp :=
  with_row_hash_ (row_hash_ lp0)
    (with_row_names_ (row_names_ lp0)
       (with_new_row_name_ix_ (new_row_name_ix_ lp0) lp)).

(** What [addRowNames] keeps: every member but names, hash and counter;
    the names of the rows the model has; the names vector does not
    shrink and the counter does not go back. *)
Definition row_naming_inv (lp0 lp : HighsLp) : Prop :=
  reset_row_naming lp0 lp = lp0 ∧
  (length (row_names_ lp0) ≤ length (row_names_ lp))%nat ∧
  new_row_name_ix_ lp0 ≤ new_row_name_ix_ lp ∧
  ∀ j : nat, Z.of_nat j < num_row_ lp0 →
             row_names_ lp !! j = row_names_ lp0 !! j.
(** * Properties *)

(** ** Vectors and loops *)

Lemma at_Done {A} (v : list A) (i : nat) (x : A) :
  v !! i = Some x → at_ v (Z.of_nat i) = Done x.
Proof.
  intros Hx. unfold at_. rewrite decide_True by lia.
  by rewrite Nat2Z.id, Hx.
Qed.

Lemma set_at_Done {A} (v : list A) (i : nat) (x : A) :
  (i < length v)%nat → set_at v (Z.of_nat i) x = Done (<[i := x]> v).
Proof.
  intros Hi. unfold set_at, vsize. rewrite decide_True by lia.
  by rewrite Nat2Z.id.
Qed.

Lemma update_at_Done {A} (v : list A) (i : nat) (f : A → A) (x : A) :
  v !! i = Some x → update_at v (Z.of_nat i) f = Done (<[i := f x]> v).
Proof.
  intros Hx. unfold update_at. rewrite (at_Done _ _ _ Hx). simpl.
  apply set_at_Done. by eapply lookup_lt_Some.
Qed.

(** A scan that leaves with [true] at the first element satisfying [P]
    finds exactly whether such an element exists. *)
Lemma until_steps_scan {A} (P : A → Prop) `{∀ x, Decision (P x)}
    (l : list A) (n i : nat) :
  (i + n)%nat = length l →
  until_steps n (Z.of_nat i) (λ iCol (_ : unit),
      t ← at_ l iCol;
      if decide (P t) then mret (Leave true) else mret (Next ())) ()
  = Done (if decide (Exists P (drop i l)) then Leave true else Next ()).
Proof.
  revert i. induction n as [|n IH]; intros i Hlen.
  - simpl. rewrite drop_ge by lia.
    rewrite decide_False; [done|]. by intros ?%Exists_nil.
  - destruct (l !! i) as [x|] eqn:Hx.
    2:{ apply lookup_ge_None in Hx. lia. }
    simpl. rewrite (at_Done _ _ _ Hx). simpl.
    rewrite (drop_S _ _ _ Hx).
    destruct (decide (P x)) as [HP|HP].
    + simpl. rewrite decide_True; [done|]. by apply Exists_cons_hd.
    + simpl. replace (Z.of_nat i + 1) with (Z.of_nat (S i)) by lia.
      rewrite IH by lia.
      destruct (decide (Exists P (drop (S i) l))) as [HE|HE].
      * rewrite decide_True; [done|]. by apply Exists_cons_tl.
      * rewrite decide_False; [done|]. rewrite Exists_cons. tauto.
Qed.

(** ** C10: isMip and hasSemiVariables *)

(** C10. With an empty integrality vector both [isMip] and
    [hasSemiVariables] return false, whatever the column count. With a
    non-empty integrality vector whose length is the column count, [isMip]
    returns true exactly when some entry is not continuous, and
    [hasSemiVariables] returns true exactly when some entry is
    semi-continuous or semi-integer. *)
Theorem isMip_hasSemiVariables_spec (lp : HighsLp) :
  (integrality_ lp = [] →
     isMip lp = Done false ∧ hasSemiVariables lp = Done false) ∧
  (integrality_ lp ≠ [] → vsize (integrality_ lp) = num_col_ lp →
     (∃ b, isMip lp = Done b ∧
        (b = true ↔ Exists (λ t, t ≠ kContinuous) (integrality_ lp))) ∧
     (∃ b, hasSemiVariables lp = Done b ∧
        (b = true ↔
         Exists (λ t, t = kSemiContinuous ∨ t = kSemiInteger)
           (integrality_ lp)))).
Proof.
  split.
  - intros Hnil. unfold isMip, hasSemiVariables, vsize. rewrite Hnil. done.
  - intros Hne Hlen.
    assert (vsize (integrality_ lp) ≠ 0) as Hsz.
    { unfold vsize. destruct (integrality_ lp); [done|simpl; lia]. }
    unfold isMip, hasSemiVariables.
    rewrite !(decide_True _ _ Hsz), !bool_decide_eq_true_2 by done.
    simpl. unfold until_range. rewrite <- Hlen, Z.sub_0_r. unfold vsize.
    rewrite Nat2Z.id. split.
    + rewrite (until_steps_scan (λ t, t ≠ kContinuous) _ _ 0) by done.
      simpl. case_decide; simpl; eexists; (split; [done|]); naive_solver.
    + rewrite (until_steps_scan
        (λ t, t = kSemiContinuous ∨ t = kSemiInteger) _ _ 0) by done.
      simpl. case_decide; simpl; eexists; (split; [done|]); naive_solver.
Qed.

Lemma isMip_hasSemiVariables_spec_witness :
  (isMip (Sample.cleared 0) = Done false ∧
   hasSemiVariables (Sample.cleared 0) = Done false) ∧
  (∃ b, isMip Sample.mip2 = Done b ∧
     (b = true ↔
      Exists (λ t, t ≠ kContinuous) (integrality_ Sample.mip2))) ∧
  (∃ b, hasSemiVariables Sample.mip2 = Done b ∧
     (b = true ↔
      Exists (λ t, t = kSemiContinuous ∨ t = kSemiInteger)
        (integrality_ Sample.mip2))).
Proof.
  split.
  - apply (isMip_hasSemiVariables_spec (Sample.cleared 0)). reflexivity.
  - apply (isMip_hasSemiVariables_spec Sample.mip2); [done|reflexivity].
Defined.

(** ** C1: equalButForNames *)

(** What [equalButForNames] decides: the assignment from the matrix
    comparison drops the results accumulated before it, so only the
    matrix and the scale take part. *)
Lemma equalButForNames_true_iff (this lp : HighsLp) :
  equalButForNames this lp = true ↔
  a_matrix_ this = a_matrix_ lp ∧ scale_ this = scale_ lp.
Proof.
  unfold equalButForNames, HighsSparseMatrix.eqb.
  rewrite !andb_true_iff, !bool_decide_eq_true.
  destruct (scale_ this), (scale_ lp); simpl.
  split.
  - intros (-> & -> & -> & -> & -> & -> & -> & ->). done.
  - intros [-> [= -> -> -> -> -> -> ->]]. done.
Qed.

(** C1 (failing input). Two models that differ in their offset only are
    reported equal by [equalButForNames]. *)
Theorem equalButForNames_offset_differs :
  equalButForNames (Sample.cleared 0) (Sample.cleared 1) = true ∧
  offset_ (Sample.cleared 0) ≠ offset_ (Sample.cleared 1).
Proof.
  split.
  - by apply equalButForNames_true_iff.
  - simpl. intros H. by apply (f_equal this) in H.
Qed.

(** The same two models have equal names, so [operator==] reports them
    equal as well. *)
Lemma HighsLp_eq_offset_differs :
  HighsLp_eq (Sample.cleared 0) (Sample.cleared 1) = true.
Proof.
  unfold HighsLp_eq. apply andb_true_iff. split; [done|].
  by apply equalButForNames_true_iff.
Qed.

(** ** C2: HighsLpMods::isClear *)

(** On a journal whose index and value vectors are paired, [isClear] does
    tell whether the four logs are empty. *)
Lemma HighsLpMods_isClear_paired (m : HighsLpMods) :
  length (save_relaxed_semi_variable_lower_bound_index m)
  = length (save_relaxed_semi_variable_lower_bound_value m) →
  HighsLpMods_isClear m = true ↔ m = HighsLpMods_clear m.
Proof.
  intros Hlen. unfold HighsLpMods_isClear, HighsLpMods_clear, vsize.
  destruct m as [a b c d e f g h i]; simpl in *.
  split.
  - repeat case_decide; try done. intros _.
    destruct a, b, c, d, e, f, g, h, i; simpl in *; done || lia.
  - intros [= -> -> -> -> -> -> -> -> ->]. done.
Qed.

(** C2 (failing input). [isClear] returns true on a journal whose log of
    relaxed lower bounds still holds an index. *)
Theorem HighsLpMods_isClear_relaxed_index :
  HighsLpMods_isClear Sample.mods_relaxed_index_only = true ∧
  length (save_relaxed_semi_variable_lower_bound_index
            Sample.mods_relaxed_index_only) = 1%nat.
Proof. split; reflexivity. Qed.

(** ** C3: HighsNameHash::hasDuplicate *)

Lemma emplace_fresh (k : string) (v : Z) (m : gmap string Z) :
  m !! k = None → emplace k v m = (<[k := v]> m, true).
Proof. intros H. unfold emplace. by rewrite H. Qed.

Lemma emplace_present (k : string) (v w : Z) (m : gmap string Z) :
  m !! k = Some w → emplace k v m = (m, false).
Proof. intros H. unfold emplace. by rewrite H. Qed.

(** A list that is not duplicate-free holds some element at two
    indices. *)
Lemma not_NoDup_repeated (l : list string) :
  ¬ NoDup l →
  ∃ i j nm, i ≠ j ∧ l !! i = Some nm ∧ l !! j = Some nm.
Proof.
  induction l as [|x l IH]; intros Hnd.
  - destruct Hnd. apply NoDup_nil_2.
  - destruct (decide (x ∈ l)) as [Hin|Hin].
    + apply list_elem_of_lookup in Hin as [k Hk].
      exists 0%nat, (S k), x. done.
    + destruct IH as (i & j & nm & Hne & Hi & Hj).
      { intros Hl. apply Hnd. by apply NoDup_cons. }
      exists (S i), (S j), nm. split_and!; [lia|done|done].
Qed.

(** The loop of [hasDuplicate], started at index [i] with the names
    before [i] pairwise distinct and recorded in the map: it runs to the
    end exactly when all names are distinct, and leaves with the flag set
    otherwise. *)
Lemma hasDuplicate_loop (name : list string) (n i : nat) (m : gmap string Z) :
  (i + n)%nat = length name →
  NoDup (take i name) →
  (∀ k, is_Some (m !! k) ↔ k ∈ take i name) →
  ∃ m',
    until_steps n (Z.of_nat i) (λ index '(this, _),
        nm ← at_ name index;
        let '(m, inserted) := emplace nm index (name2index this) in
        let has_duplicate := negb inserted in
        if has_duplicate
        then mret (Leave (mkHighsNameHash m, has_duplicate))
        else mret (Next (mkHighsNameHash m, has_duplicate)))
      (mkHighsNameHash m, false)
    = Done (if decide (NoDup name)
            then Next (mkHighsNameHash m', false)
            else Leave (mkHighsNameHash m', true)).
Proof.
  revert i m. induction n as [|n IH]; intros i m Hlen Hnd Hdom.
  - rewrite take_ge in Hnd by lia. exists m. simpl.
    by rewrite decide_True.
  - destruct (name !! i) as [x|] eqn:Hx.
    2:{ apply lookup_ge_None in Hx. lia. }
    simpl. rewrite (at_Done _ _ _ Hx). simpl.
    destruct (m !! x) as [w|] eqn:Hm.
    + rewrite (emplace_present _ _ _ _ Hm). simpl.
      exists m. rewrite decide_False; [done|].
      intros Hall.
      assert (x ∈ take i name) as Hin by (apply Hdom; eauto).
      apply list_elem_of_lookup in Hin as [j Hj].
      apply lookup_take_Some in Hj as [Hj Hlt].
      pose proof (NoDup_lookup _ _ _ _ Hall Hj Hx). lia.
    + rewrite (emplace_fresh _ _ _ Hm). simpl.
      replace (Z.of_nat i + 1) with (Z.of_nat (S i)) by lia.
      apply IH; [lia| |].
      * rewrite (take_S_r _ _ _ Hx). apply NoDup_app. split_and!; [done| |].
        -- intros y Hy ->%list_elem_of_singleton.
           apply Hdom in Hy as [? Hy]. congruence.
        -- apply NoDup_singleton.
      * intros k. rewrite (take_S_r _ _ _ Hx), elem_of_app,
          list_elem_of_singleton, <- Hdom.
        destruct (decide (x = k)) as [->|Hne].
        -- rewrite lookup_insert_eq. split; [by right|eauto].
        -- rewrite lookup_insert_ne by done.
           split; [by left|]. by intros [?|?].
Qed.

(** C3 (as amended). [hasDuplicate] returns true exactly when some name
    occurs at more than one index, and leaves the hash empty, whatever it
    held before the call. *)
Theorem HighsNameHash_hasDuplicate_spec
    (name : list string) (this : HighsNameHash) :
  ∃ b,
    HighsNameHash_hasDuplicate name this = Done (b, mkHighsNameHash ∅) ∧
    (b = true ↔
     ∃ i j nm, i ≠ j ∧ name !! i = Some nm ∧ name !! j = Some nm).
Proof.
  unfold HighsNameHash_hasDuplicate, until_range, HighsNameHash_clear, vsize.
  rewrite Z.sub_0_r, Nat2Z.id.
  destruct (hasDuplicate_loop name (length name) 0 ∅) as [m' Hloop].
  { done. }
  { simpl. apply NoDup_nil_2. }
  { intros k. simpl. rewrite lookup_empty, elem_of_nil.
    split; [by intros [? ?]|done]. }
  change (Z.of_nat 0) with 0 in Hloop. cbv zeta in Hloop.
  rewrite Hloop. clear Hloop.
  destruct (decide (NoDup name)) as [Hnd|Hnd]; simpl.
  - exists false. split; [done|]. split; [done|].
    intros (i & j & nm & Hne & Hi & Hj).
    destruct Hne. by eapply NoDup_lookup.
  - exists true. split; [done|]. split; [|done]. intros _.
    by apply not_NoDup_repeated.
Qed.

(** C3 (counterexample). A hash that holds an entry is empty after
    [hasDuplicate]: the call does change the persisted mapping. *)
Lemma HighsNameHash_hasDuplicate_not_frame :
  let this := mkHighsNameHash {["a" := 0]} in
  ∃ b this',
    HighsNameHash_hasDuplicate ["x"] this = Done (b, this') ∧
    name2index this' ≠ name2index this.
Proof.
  exists false, (mkHighsNameHash ∅). split; [by vm_compute|].
  simpl. intros H. apply (f_equal (λ m : gmap string Z, m !! "a")) in H.
  by rewrite lookup_empty, lookup_singleton_eq in H.
Qed.

(** ** C9: exactResize *)

Lemma vresize_Done {A} (d : A) (n : Z) (v : list A) :
  0 ≤ n → vresize d n v = Done (resize (Z.to_nat n) d v).
Proof. intros Hn. unfold vresize. by rewrite decide_True. Qed.

Lemma vsize_resize {A} (d : A) (n : Z) (v : list A) :
  0 ≤ n → vsize (resize (Z.to_nat n) d v) = n.
Proof. intros Hn. unfold vsize. rewrite length_resize. lia. Qed.

Lemma vsize_0_iff {A} (v : list A) : vsize v = 0 ↔ v = [].
Proof. unfold vsize. destruct v; simpl; split; (done || lia). Qed.

Lemma resized_resize {A} (d : A) (n : Z) (v : list A) :
  0 ≤ n → resized d n v (resize (Z.to_nat n) d v).
Proof.
  intros Hn. split; [by apply vsize_resize|].
  intros j Hj. destruct (v !! j) as [x|] eqn:Hx.
  - rewrite lookup_resize; [done|lia|]. by eapply lookup_lt_Some.
  - apply lookup_resize_new; [|lia]. by apply lookup_ge_None.
Qed.

Lemma resized_if_tracked_resize {A} (d : A) (n : Z) (v : list A) :
  0 ≤ n → v ≠ [] → resized_if_tracked d n v (resize (Z.to_nat n) d v).
Proof.
  intros Hn Hv. destruct v as [|x v]; [done|]. by apply resized_resize.
Qed.

(** C9. [exactResize] gives the cost and bound vectors exactly the
    column or row count as their length; a names or types vector that is
    empty stays empty, and one that is not empty gets exactly the
    corresponding count as its length. A resized vector keeps its entries
    below the old length and is filled up with zeros, empty names or
    continuous types; the matrix is the one its own resize returns, and
    no other member is assigned. *)
Theorem exactResize_spec
    (matrix_exactResize : HighsSparseMatrix.t → HighsSparseMatrix.t)
    (lp : HighsLp) :
  0 ≤ num_col_ lp → 0 ≤ num_row_ lp →
  ∃ lp',
    exactResize matrix_exactResize lp = Done lp' ∧
    vsize (col_cost_ lp') = num_col_ lp ∧
    vsize (col_lower_ lp') = num_col_ lp ∧
    vsize (col_upper_ lp') = num_col_ lp ∧
    vsize (row_lower_ lp') = num_row_ lp ∧
    vsize (row_upper_ lp') = num_row_ lp ∧
    (if decide (col_names_ lp = []) then col_names_ lp' = []
     else vsize (col_names_ lp') = num_col_ lp) ∧
    (if decide (row_names_ lp = []) then row_names_ lp' = []
     else vsize (row_names_ lp') = num_row_ lp) ∧
    (if decide (integrality_ lp = []) then integrality_ lp' = []
     else vsize (integrality_ lp') = num_col_ lp) ∧
    resized 0%Qc (num_col_ lp) (col_cost_ lp) (col_cost_ lp') ∧
    resized 0%Qc (num_col_ lp) (col_lower_ lp) (col_lower_ lp') ∧
    resized 0%Qc (num_col_ lp) (col_upper_ lp) (col_upper_ lp') ∧
    resized 0%Qc (num_row_ lp) (row_lower_ lp) (row_lower_ lp') ∧
    resized 0%Qc (num_row_ lp) (row_upper_ lp) (row_upper_ lp') ∧
    resized_if_tracked "" (num_col_ lp) (col_names_ lp) (col_names_ lp') ∧
    resized_if_tracked "" (num_row_ lp) (row_names_ lp) (row_names_ lp') ∧
    resized_if_tracked kContinuous (num_col_ lp)
      (integrality_ lp) (integrality_ lp') ∧
    a_matrix_ lp' = matrix_exactResize (a_matrix_ lp) ∧
    reset_sized lp lp' = lp.
Proof.
  intros Hc Hr. destruct lp; simpl in *. unfold exactResize; simpl.
  repeat first
    [ rewrite vresize_Done by done; simpl
    | match goal with
      | |- context [decide (vsize ?v ≠ 0)] =>
          let Hv := fresh "Hv" in
          destruct (decide (vsize v ≠ 0)) as [Hv|Hv];
          [ rewrite vsize_0_iff in Hv | apply dec_stable, vsize_0_iff in Hv ];
          simpl
      end ];
  subst; simpl;
  eexists; (split; [reflexivity|]); simpl;
  rewrite ?vsize_resize by done;
  split_and!;
  first [ by apply resized_resize
        | by apply resized_if_tracked_resize
        | by repeat case_decide ].
Qed.

Lemma exactResize_spec_witness :
  (∃ lp',
     exactResize id Sample.grown5 = Done lp' ∧
     col_cost_ lp' = [1%Qc; 1%Qc; 1%Qc; 0%Qc; 0%Qc] ∧
     col_lower_ lp' = [0%Qc; 0%Qc; 0%Qc; 0%Qc; 0%Qc] ∧
     col_upper_ lp' = [1%Qc; 1%Qc; 1%Qc; 0%Qc; 0%Qc] ∧
     row_lower_ lp' = [] ∧ row_upper_ lp' = [] ∧
     col_names_ lp' = [] ∧ row_names_ lp' = [] ∧ integrality_ lp' = []) ∧
  (∃ lp',
     exactResize id Sample.resized32 = Done lp' ∧
     col_cost_ lp' = [1%Qc; Q2Qc 2] ∧
     col_lower_ lp' = [0%Qc; 0%Qc] ∧
     col_upper_ lp' = [Q2Qc 4; Q2Qc 5] ∧
     row_lower_ lp' = [Q2Qc 7; 0%Qc] ∧ row_upper_ lp' = [Q2Qc 8; 0%Qc] ∧
     col_names_ lp' = ["a"; "b"] ∧ row_names_ lp' = [] ∧
     integrality_ lp' = [kContinuous; kInteger]).
Proof.
  split.
  - destruct (exactResize_spec id Sample.grown5) as (lp' & H & _);
      [simpl; lia..|].
    exists lp'. split; [done|].
    vm_compute in H. injection H as <-. by vm_compute.
  - destruct (exactResize_spec id Sample.resized32) as (lp' & H & _);
      [simpl; lia..|].
    exists lp'. split; [done|].
    vm_compute in H. injection H as <-. by vm_compute.
Defined.

(** ** Scaling: closed forms of the loops *)

(** A loop whose [k]-th iteration takes the state [st k] to [st (S k)]. *)
Lemma for_steps_chain {S} (body : Z → S → outcome S) (st : nat → S)
    (n i : nat) :
  (∀ k, (i ≤ k < i + n)%nat → body (Z.of_nat k) (st k) = Done (st (Datatypes.S k))) →
  for_steps n (Z.of_nat i) body (st i) = Done (st (i + n)%nat).
Proof.
  revert i. induction n as [|n IH]; intros i Hstep; simpl.
  - by rewrite Nat.add_0_r.
  - rewrite Hstep by lia. simpl.
    replace (Z.of_nat i + 1) with (Z.of_nat (Datatypes.S i)) by lia.
    rewrite IH; [f_equal; f_equal; lia|].
    intros k Hk. apply Hstep. lia.
Qed.

Lemma for_range_chain {S} (body : Z → S → outcome S) (st : nat → S) (hi : Z) :
  (∀ k, (k < Z.to_nat hi)%nat → body (Z.of_nat k) (st k) = Done (st (Datatypes.S k))) →
  for_range 0 hi body (st 0%nat) = Done (st (Z.to_nat hi)).
Proof.
  intros Hstep. unfold for_range. rewrite Z.sub_0_r.
  apply (for_steps_chain body st (Z.to_nat hi) 0).
  intros k Hk. apply Hstep. lia.
Qed.

Lemma length_scaled f n s v : length (scaled f n s v) = length v.
Proof. apply length_imap. Qed.

Lemma scaled_0 f s v : scaled f 0 s v = v.
Proof.
  apply list_eq. intros j. unfold scaled. rewrite list_lookup_imap.
  destruct (v !! j); simpl; [|done]. try case_decide; done || lia.
Qed.

Lemma scaled_lookup_next f n s v x :
  v !! n = Some x → scaled f n s v !! n = Some x.
Proof.
  intros Hx. unfold scaled. rewrite list_lookup_imap, Hx. simpl.
  by rewrite decide_False by lia.
Qed.

Lemma scaled_step f n s v x c :
  v !! n = Some x → s !! n = Some c →
  <[n := f x c]> (scaled f n s v) = scaled f (Datatypes.S n) s v.
Proof.
  intros Hx Hc. apply list_eq. intros j.
  destruct (decide (n = j)) as [<-|Hne].
  - rewrite list_lookup_insert_eq
      by (rewrite length_scaled; by eapply lookup_lt_Some).
    unfold scaled. rewrite list_lookup_imap, Hx. simpl.
    by rewrite decide_True, Hc by lia.
  - rewrite list_lookup_insert_ne by done.
    unfold scaled. rewrite !list_lookup_imap.
    destruct (v !! j); simpl; [|done].
    destruct (decide (j < n)%nat), (decide (j < Datatypes.S n)%nat);
      done || lia.
Qed.

(** A scaling of the first [n] elements is undone by the scaling with an
    inverse operation. *)
Lemma scaled_inverse f g n s v :
  (∀ x c, c ∈ s → g (f x c) c = x) →
  scaled g n s (scaled f n s v) = v.
Proof.
  intros Hinv. apply list_eq. intros j. unfold scaled.
  rewrite !list_lookup_imap. destruct (v !! j) as [x|]; simpl; [|done].
  destruct (decide (j < n)%nat); [|done].
  destruct (s !! j) as [c|] eqn:Hc; [|done].
  f_equal. apply Hinv. by eapply list_elem_of_lookup_2.
Qed.

Lemma with_col_lower_proj v lp : col_lower_ (with_col_lower_ v lp) = v.
Proof. by destruct lp. Qed.
Lemma with_col_upper_proj v lp : col_upper_ (with_col_upper_ v lp) = v.
Proof. by destruct lp. Qed.

Lemma col_loop_state_0 fl fu fc s lp : col_loop_state fl fu fc s lp 0 = lp.
Proof. unfold col_loop_state. rewrite !scaled_0. by destruct lp. Qed.

Lemma row_loop_state_0 fl fu s lp : row_loop_state fl fu s lp 0 = lp.
Proof. unfold row_loop_state. rewrite !scaled_0. by destruct lp. Qed.

Lemma lookup_lt_vsize {A} (v : list A) (k : nat) (n : Z) :
  n ≤ vsize v → (k < Z.to_nat n)%nat → is_Some (v !! k).
Proof. unfold vsize. intros Hn Hk. apply lookup_lt_is_Some. lia. Qed.

Lemma col_loop_closed (fl fu fc : Qc → Qc → Qc) (s : list Qc) (lp : HighsLp) :
  num_col_ lp ≤ vsize s →
  num_col_ lp ≤ vsize (col_lower_ lp) →
  num_col_ lp ≤ vsize (col_upper_ lp) →
  num_col_ lp ≤ vsize (col_cost_ lp) →
  for_range 0 (num_col_ lp) (λ iCol lp,
      c ← at_ s iCol;
      v ← update_at (col_lower_ lp) iCol (λ x, fl x c);
      let lp := with_col_lower_ v lp in
      v ← update_at (col_upper_ lp) iCol (λ x, fu x c);
      let lp := with_col_upper_ v lp in
      v ← update_at (col_cost_ lp) iCol (λ x, fc x c);
      mret (with_col_cost_ v lp)) lp
  = Done (col_loop_state fl fu fc s lp (Z.to_nat (num_col_ lp))).
Proof.
  intros Hs Hl Hu Hc.
  rewrite <- (col_loop_state_0 fl fu fc s lp) at 2.
  apply (for_range_chain _ (col_loop_state fl fu fc s lp)).
  intros k Hk.
  destruct (lookup_lt_vsize _ k _ Hs Hk) as [c Hsc].
  destruct (lookup_lt_vsize _ k _ Hl Hk) as [xl Hxl].
  destruct (lookup_lt_vsize _ k _ Hu Hk) as [xu Hxu].
  destruct (lookup_lt_vsize _ k _ Hc Hk) as [xc Hxc].
  rewrite (at_Done _ _ _ Hsc). simpl.
  unfold col_loop_state. destruct lp; simpl in *.
  rewrite (update_at_Done (scaled fl k s col_lower_0) k _ xl)
    by by apply scaled_lookup_next.
  simpl.
  rewrite (update_at_Done (scaled fu k s col_upper_0) k _ xu)
    by by apply scaled_lookup_next.
  simpl.
  rewrite (update_at_Done (scaled fc k s col_cost_0) k _ xc)
    by by apply scaled_lookup_next.
  simpl.
  by rewrite !(scaled_step _ _ _ _ _ c).
Qed.

Lemma row_loop_closed (fl fu : Qc → Qc → Qc) (s : list Qc) (lp : HighsLp) :
  num_row_ lp ≤ vsize s →
  num_row_ lp ≤ vsize (row_lower_ lp) →
  num_row_ lp ≤ vsize (row_upper_ lp) →
  for_range 0 (num_row_ lp) (λ iRow lp,
      r ← at_ s iRow;
      v ← update_at (row_lower_ lp) iRow (λ x, fl x r);
      let lp := with_row_lower_ v lp in
      v ← update_at (row_upper_ lp) iRow (λ x, fu x r);
      mret (with_row_upper_ v lp)) lp
  = Done (row_loop_state fl fu s lp (Z.to_nat (num_row_ lp))).
Proof.
  intros Hs Hl Hu.
  rewrite <- (row_loop_state_0 fl fu s lp) at 2.
  apply (for_range_chain _ (row_loop_state fl fu s lp)).
  intros k Hk.
  destruct (lookup_lt_vsize _ k _ Hs Hk) as [c Hsc].
  destruct (lookup_lt_vsize _ k _ Hl Hk) as [xl Hxl].
  destruct (lookup_lt_vsize _ k _ Hu Hk) as [xu Hxu].
  rewrite (at_Done _ _ _ Hsc). simpl.
  unfold row_loop_state. destruct lp; simpl in *.
  rewrite (update_at_Done (scaled fl k s row_lower_0) k _ xl)
    by by apply scaled_lookup_next.
  simpl.
  rewrite (update_at_Done (scaled fu k s row_upper_0) k _ xu)
    by by apply scaled_lookup_next.
  simpl.
  by rewrite !(scaled_step _ _ _ _ _ c).
Qed.

Lemma matrix_entries_closed (op : Qc → Qc → Qc → Qc) (scale : HighsScale)
    (es : list (Z * Z * Qc)) :
  Forall (λ e : Z * Z * Qc,
            0 ≤ e.1.1 < vsize (row scale) ∧ 0 ≤ e.1.2 < vsize (col scale)) es →
  mapM (M := outcome) (λ e : Z * Z * Qc,
      let '(i, j, v) := e in
      c ← at_ (col scale) j;
      r ← at_ (row scale) i;
      mret (i, j, op v c r)) es
  = Done (scaled_entry op scale <$> es).
Proof.
  induction 1 as [|[[i j] v] es [Hi Hj] _ IH]; [done|].
  simpl in Hi, Hj. unfold vsize in *.
  destruct (lookup_lt_is_Some_2 (col scale) (Z.to_nat j)) as [c Hc]; [lia|].
  destruct (lookup_lt_is_Some_2 (row scale) (Z.to_nat i)) as [r Hr]; [lia|].
  cbn [mapM]. rewrite IH.
  rewrite <- (Z2Nat.id j), <- (Z2Nat.id i) by lia.
  rewrite (at_Done _ _ _ Hc), (at_Done _ _ _ Hr). simpl.
  rewrite !Nat2Z.id. by rewrite Hc, Hr.
Qed.

Lemma scaled_entry_inverse (f g : Qc → Qc → Qc → Qc) (scale : HighsScale)
    (e : Z * Z * Qc) :
  (∀ v c r, c ∈ col scale → r ∈ row scale → g (f v c r) c r = v) →
  scaled_entry g scale (scaled_entry f scale e) = e.
Proof.
  intros Hinv. destruct e as [[i j] v]. unfold scaled_entry.
  destruct (col scale !! Z.to_nat j) as [c|] eqn:Hc;
    [|by rewrite Hc].
  destruct (row scale !! Z.to_nat i) as [r|] eqn:Hr;
    [|by rewrite Hc, Hr].
  rewrite Hc, Hr. do 2 f_equal.
  apply Hinv; by eapply list_elem_of_lookup_2.
Qed.

Lemma Qc_div_mul (x c : Qc) : c ≠ 0%Qc → (x / c * c)%Qc = x.
Proof. intros Hc. rewrite Qcmult_comm. by apply Qcmult_div_r. Qed.

Lemma Qc_mul_div (x c : Qc) : c ≠ 0%Qc → (x * c / c)%Qc = x.
Proof. intros Hc. by apply Qcdiv_mult_l. Qed.

Lemma Qc_entry_inverse (v c r : Qc) :
  c ≠ 0%Qc → r ≠ 0%Qc → (v * (1 / c) * r / r / (1 / c))%Qc = v.
Proof.
  intros Hc Hr. rewrite Qc_mul_div by done.
  apply Qc_mul_div. unfold Qcdiv. rewrite Qcmult_1_l.
  intros H. pose proof (Qcmult_inv_r c Hc) as H1.
  rewrite H, Qcmult_0_r in H1. done.
Qed.

Lemma Qc_pos_ne_0 (s : list Qc) (c : Qc) :
  Forall (λ c, 0 < c)%Qc s → c ∈ s → c ≠ 0%Qc.
Proof.
  intros Hs Hc. rewrite Forall_forall in Hs.
  intros ->. by apply (Qclt_not_eq _ _ (Hs _ Hc)).
Qed.

Ltac solve_ne_0 :=
  match goal with
  | H : Forall _ ?s, Hin : ?c ∈ ?s |- ?c ≠ _ =>
      exact (Qc_pos_ne_0 s c H Hin)
  end.

(** What [applyScale] does when there is scaling to apply. *)
Lemma applyScale_closed (lp : HighsLp) :
  is_scaled_ lp = false →
  has_scaling (scale_ lp) = true →
  scaling_in_range lp →
  applyScale lp = Done
    (with_is_scaled_ true
      (with_a_matrix_
        (HighsSparseMatrix.mk
           (HighsSparseMatrix.format_ (a_matrix_ lp))
           (HighsSparseMatrix.num_col_ (a_matrix_ lp))
           (HighsSparseMatrix.num_row_ (a_matrix_ lp))
           (scaled_entry (λ v c r, v * (1 / c) * r)%Qc (scale_ lp)
              <$> HighsSparseMatrix.entries (a_matrix_ lp)))
        (row_loop_state Qcmult Qcmult (row (scale_ lp))
          (col_loop_state Qcdiv Qcdiv Qcmult (col (scale_ lp)) lp
             (Z.to_nat (num_col_ lp)))
          (Z.to_nat (num_row_ lp))))).
Proof.
  intros Hns Hhas (Hc & Hcl & Hcu & Hcc & Hr & Hrl & Hru & Hm).
  unfold applyScale. rewrite Hns, Hhas.
  assert (with_is_scaled_ false lp = lp) as -> by (by destruct lp; simplify_eq/=).
  rewrite (col_loop_closed Qcdiv Qcdiv Qcmult) by done. simpl.
  set (lp1 := col_loop_state _ _ _ _ _ _).
  assert (num_row_ lp1 = num_row_ lp) as Hnr by by destruct lp.
  assert (row_lower_ lp1 = row_lower_ lp) as Hrl1 by by destruct lp.
  assert (row_upper_ lp1 = row_upper_ lp) as Hru1 by by destruct lp.
  assert (a_matrix_ lp1 = a_matrix_ lp) as Hma by by destruct lp.
  rewrite <- Hnr.
  rewrite (row_loop_closed Qcmult Qcmult) by (by rewrite ?Hnr, ?Hrl1, ?Hru1).
  simpl. set (lp2 := row_loop_state _ _ _ _ _).
  assert (a_matrix_ lp2 = a_matrix_ lp) as -> by by destruct lp.
  unfold HighsSparseMatrix.applyScale.
  rewrite (matrix_entries_closed (λ v c r, v * (1 / c) * r)%Qc) by done.
  done.
Qed.

Lemma scaled_entry_index op scale e : (scaled_entry op scale e).1 = e.1.
Proof.
  destruct e as [[i j] v]. unfold scaled_entry.
  by destruct (col scale !! Z.to_nat j), (row scale !! Z.to_nat i).
Qed.

(** ** C4: applyScale followed by unapplyScale *)

(** C4. On a model that has scaling, is not scaled, and whose scale
    factors are positive and cover the columns, rows and matrix entries,
    [applyScale] returns a scaled model, and [unapplyScale] on that model
    returns the original one: cost, bounds, matrix values and the flag
    [is_scaled_] are all restored (arithmetic being exact). *)
Theorem applyScale_unapplyScale_roundtrip (lp : HighsLp) :
  has_scaling (scale_ lp) = true →
  is_scaled_ lp = false →
  scaling_in_range lp →
  Forall (λ c, 0 < c)%Qc (col (scale_ lp)) →
  Forall (λ r, 0 < r)%Qc (row (scale_ lp)) →
  ∃ lp1,
    applyScale lp = Done lp1 ∧
    is_scaled_ lp1 = true ∧
    unapplyScale lp1 = Done lp.
Proof.
  intros Hhas Hns Hrange Hpc Hpr.
  eexists. split; [by apply applyScale_closed|].
  destruct Hrange as (Hc & Hcl & Hcu & Hcc & Hr & Hrl & Hru & Hm).
  set (m1 := HighsSparseMatrix.mk _ _ _ _).
  set (lpc := col_loop_state _ _ _ _ _ _).
  set (lpr := row_loop_state _ _ _ _ _).
  set (lp1 := with_is_scaled_ true _).
  split; [by destruct lp|].
  assert (is_scaled_ lp1 = true) as Hs1 by by destruct lp.
  assert (scale_ lp1 = scale_ lp) as Hsc by by destruct lp.
  assert (num_col_ lp1 = num_col_ lp) as Hnc by by destruct lp.
  assert (col_lower_ lp1 = scaled Qcdiv (Z.to_nat (num_col_ lp))
            (col (scale_ lp)) (col_lower_ lp)) as Hl1 by by destruct lp.
  assert (col_upper_ lp1 = scaled Qcdiv (Z.to_nat (num_col_ lp))
            (col (scale_ lp)) (col_upper_ lp)) as Hu1 by by destruct lp.
  assert (col_cost_ lp1 = scaled Qcmult (Z.to_nat (num_col_ lp))
            (col (scale_ lp)) (col_cost_ lp)) as Hc1 by by destruct lp.
  unfold unapplyScale. rewrite Hs1, Hsc, Hhas. simpl.
  rewrite (col_loop_closed Qcmult Qcmult Qcdiv)
    by (rewrite ?Hnc, ?Hl1, ?Hu1, ?Hc1; unfold vsize;
        rewrite ?length_scaled; done).
  simpl. set (lp2 := col_loop_state _ _ _ _ lp1 _).
  assert (num_row_ lp2 = num_row_ lp) as Hnr by by destruct lp.
  assert (row_lower_ lp2 = scaled Qcmult (Z.to_nat (num_row_ lp))
            (row (scale_ lp)) (row_lower_ lp)) as Hrl2 by by destruct lp.
  assert (row_upper_ lp2 = scaled Qcmult (Z.to_nat (num_row_ lp))
            (row (scale_ lp)) (row_upper_ lp)) as Hru2 by by destruct lp.
  rewrite (row_loop_closed Qcdiv Qcdiv)
    by (rewrite ?Hnr, ?Hrl2, ?Hru2; unfold vsize;
        rewrite ?length_scaled; done).
  simpl. set (lp3 := row_loop_state _ _ _ lp2 _).
  assert (a_matrix_ lp3 = m1) as -> by by destruct lp.
  unfold HighsSparseMatrix.unapplyScale.
  rewrite (matrix_entries_closed (λ v c r, v / r / (1 / c))%Qc).
  2:{ subst m1. simpl. apply Forall_fmap. eapply Forall_impl; [exact Hm|].
      intros e He. simpl. by rewrite scaled_entry_index. }
  simpl. f_equal.
  subst lp3 lp2 lp1 lpr lpc m1.
  unfold row_loop_state, col_loop_state.
  destruct lp as [nc nr cc cl cu rl ru [mf mc mr es] ? ? ? ? ? ? ? ? ? ? ? sc ? ? ? ?].
  simpl in *. subst. f_equal.
  - apply scaled_inverse. intros x c Hin. apply Qc_mul_div.
    solve_ne_0.
  - apply scaled_inverse. intros x c Hin. apply Qc_div_mul.
    solve_ne_0.
  - apply scaled_inverse. intros x c Hin. apply Qc_div_mul.
    solve_ne_0.
  - apply scaled_inverse. intros x c Hin. apply Qc_mul_div.
    solve_ne_0.
  - apply scaled_inverse. intros x c Hin. apply Qc_mul_div.
    solve_ne_0.
  - f_equal. rewrite <- list_fmap_compose. rewrite <- (list_fmap_id es) at 2.
    apply list_fmap_ext. intros k e _. simpl.
    apply (scaled_entry_inverse (λ v c r, v * (1 / c) * r)%Qc).
    intros v c r Hcin Hrin.
    apply Qc_entry_inverse; solve_ne_0.
Qed.

Lemma applyScale_unapplyScale_roundtrip_witness :
  ∃ lp1,
    applyScale Sample.scalable = Done lp1 ∧
    is_scaled_ lp1 = true ∧
    unapplyScale lp1 = Done Sample.scalable.
Proof.
  apply (applyScale_unapplyScale_roundtrip Sample.scalable).
  - reflexivity.
  - reflexivity.
  - unfold scaling_in_range, vsize. simpl.
    repeat split; try lia; repeat constructor; simpl; lia.
  - repeat constructor.
  - repeat constructor.
Defined.

(** ** C8: applyScale twice *)

Lemma for_steps_preserves {S} (P : S → Prop) (body : Z → S → outcome S)
    (n : nat) (i : Z) (s s' : S) :
  (∀ k s s', body k s = Done s' → P s → P s') →
  for_steps n i body s = Done s' → P s → P s'.
Proof.
  intros Hbody. revert i s. induction n as [|n IH]; intros i s; simpl.
  - by intros [= ->].
  - destruct (body i s) as [s1|] eqn:Hb; simpl; [|done].
    intros Hrest Hs. eapply IH; [done|]. by eapply Hbody.
Qed.

Ltac outcome_cases H :=
  unfold mret, outcome_ret in H;
  repeat match type of H with
  | Done _ = Done _ => injection H as <-
  | Fault _ = Done _ => discriminate H
  | (?m ≫= _) = Done _ =>
      let E := fresh "E" in
      destruct m eqn:E; simpl in H; [|discriminate H]
  end.

(** [applyScale] never changes the scale, and a call that had scaling to
    apply leaves the model marked as scaled. *)
Lemma applyScale_Done_inv (lp lp1 : HighsLp) :
  applyScale lp = Done lp1 →
  scale_ lp1 = scale_ lp ∧
  is_scaled_ lp1 = is_scaled_ lp || has_scaling (scale_ lp).
Proof.
  unfold applyScale, for_range.
  destruct (is_scaled_ lp) eqn:Hs.
  { intros H. outcome_cases H. by rewrite Hs. }
  destruct (has_scaling (scale_ lp)) eqn:Hhas.
  2:{ intros [= <-]. by destruct lp; simplify_eq/=. }
  intros H. outcome_cases H.
  match goal with
  | E1 : for_steps _ _ _ (with_is_scaled_ false lp) = Done ?a,
    E2 : for_steps _ _ _ ?a = Done ?b |- _ =>
      assert (scale_ a = scale_ lp) as Ha;
      [ eapply (for_steps_preserves (λ l, scale_ l = scale_ lp)); [|exact E1|]
      | assert (scale_ b = scale_ lp) as Hb;
        [ eapply (for_steps_preserves (λ l, scale_ l = scale_ lp));
          [|exact E2|exact Ha] |] ]
  end.
  - intros k s s' Hk Hsc. outcome_cases Hk. by destruct s.
  - by destruct lp.
  - intros k s s' Hk Hsc. outcome_cases Hk. by destruct s.
  - rewrite <- Hb. split; by destruct a0.
Qed.

Lemma applyScale_Done (lp : HighsLp) :
  (is_scaled_ lp = true → has_scaling (scale_ lp) = true) →
  scaling_in_range lp →
  ∃ lp1, applyScale lp = Done lp1.
Proof.
  intros Hinv Hrange.
  destruct (is_scaled_ lp) eqn:Hs.
  - exists lp. unfold applyScale. by rewrite Hs, Hinv.
  - destruct (has_scaling (scale_ lp)) eqn:Hhas.
    + eexists. by apply applyScale_closed.
    + eexists. unfold applyScale. by rewrite Hs, Hhas.
Qed.

(** C8. On a model that satisfies "[is_scaled_] implies [has_scaling]",
    a second [applyScale] right after a first one returns the model the
    first one returned, unchanged; and the first call does return when
    the indices it uses are in range. *)
Theorem applyScale_idempotent (lp : HighsLp) :
  (is_scaled_ lp = true → has_scaling (scale_ lp) = true) →
  (∀ lp1, applyScale lp = Done lp1 → applyScale lp1 = Done lp1) ∧
  (scaling_in_range lp → ∃ lp1, applyScale lp = Done lp1).
Proof.
  intros Hinv. split; [|by apply applyScale_Done].
  intros lp1 H1. destruct (applyScale_Done_inv _ _ H1) as [Hsc Hs1].
  unfold applyScale. rewrite Hsc, Hs1.
  destruct (is_scaled_ lp) eqn:Hs; simpl.
  - by rewrite Hinv.
  - destruct (has_scaling (scale_ lp)) eqn:Hhas; simpl; [done|].
    f_equal. destruct lp1; simpl in *. by subst.
Qed.

Lemma applyScale_idempotent_witness :
  ∃ lp1,
    applyScale Sample.scalable = Done lp1 ∧ applyScale lp1 = Done lp1.
Proof.
  assert (is_scaled_ Sample.scalable = true →
          has_scaling (scale_ Sample.scalable) = true) as Hinv
    by reflexivity.
  destruct (applyScale_idempotent Sample.scalable Hinv) as [Hidem Hret].
  destruct Hret as [lp1 H1].
  - unfold scaling_in_range, vsize. simpl.
    repeat split; try lia; repeat constructor; simpl; lia.
  - exists lp1. split; [exact H1|]. apply Hidem, H1.
Defined.

(** ** C5: unapplyMods *)

Lemma for_range_states {S} (body : Z → S → outcome S) (st : nat → S)
    (hi : Z) (s s' : S) :
  st 0%nat = s → st (Z.to_nat hi) = s' →
  (∀ k, (k < Z.to_nat hi)%nat →
     body (Z.of_nat k) (st k) = Done (st (Datatypes.S k))) →
  for_range 0 hi body s = Done s'.
Proof. intros <- <- Hstep. by apply for_range_chain. Qed.

Lemma retype_snoc idx i ty :
  Restore.retype (idx ++ [i]) ty
  = alter Restore.semi_of (Z.to_nat i) (Restore.retype idx ty).
Proof. unfold Restore.retype. by rewrite foldl_snoc. Qed.

Lemma writes_snoc {A} (ws : list (Z * A)) i x (v : list A) :
  Restore.writes (ws ++ [(i, x)]) v
  = <[Z.to_nat i := x]> (Restore.writes ws v).
Proof. unfold Restore.writes. by rewrite foldl_snoc. Qed.

Lemma length_retype idx ty : length (Restore.retype idx ty) = length ty.
Proof.
  revert ty. induction idx as [|i idx IH]; intros ty; [done|].
  unfold Restore.retype in *. simpl. by rewrite IH, length_alter.
Qed.

Lemma length_writes {A} (ws : list (Z * A)) (v : list A) :
  length (Restore.writes ws v) = length v.
Proof.
  revert v. induction ws as [|w ws IH]; intros v; [done|].
  unfold Restore.writes in *. simpl. by rewrite IH, length_insert.
Qed.

Lemma alter_as_insert {A} (f : A → A) (l : list A) (i : nat) (x : A) :
  l !! i = Some x → alter f i l = <[i := f x]> l.
Proof.
  intros Hx. apply list_eq. intros j.
  destruct (decide (i = j)) as [<-|Hne].
  - rewrite list_lookup_alter_eq, Hx.
    by rewrite list_lookup_insert_eq by by eapply lookup_lt_Some.
  - by rewrite list_lookup_alter_ne, list_lookup_insert_ne.
Qed.

Lemma set_at_Done_Z {A} (v : list A) (i : Z) (x : A) :
  0 ≤ i < vsize v → set_at v i x = Done (<[Z.to_nat i := x]> v).
Proof. intros Hi. unfold set_at. by rewrite decide_True. Qed.

Lemma at_Done_Z {A} (v : list A) (i : Z) (x : A) :
  0 ≤ i → v !! Z.to_nat i = Some x → at_ v i = Done x.
Proof. intros Hi Hx. unfold at_. by rewrite decide_True, Hx. Qed.

Lemma with_integrality_proj v lp : integrality_ (with_integrality_ v lp) = v.
Proof. by destruct lp. Qed.

(** Loop 1: the types of the columns of log 1 are put back. *)
Lemma unapplyMods_loop1 (lp : HighsLp) :
  let idx := save_non_semi_variable_index (mods_ lp) in
  Forall (λ i, 0 ≤ i < vsize (integrality_ lp)) idx →
  (∀ k i, idx !! k = Some i →
     Restore.plain_at (Restore.retype (take k idx) (integrality_ lp)) i) →
  for_range 0 (vsize idx) (λ k lp,
      iCol ← at_ (save_non_semi_variable_index (mods_ lp)) k;
      t ← at_ (integrality_ lp) iCol;
      cpp_assert (bool_decide (t = kContinuous) || bool_decide (t = kInteger));;
      t ← at_ (integrality_ lp) iCol;
      v ← (if decide (t = kContinuous)
           then set_at (integrality_ lp) iCol kSemiContinuous
           else set_at (integrality_ lp) iCol kSemiInteger);
      mret (with_integrality_ v lp)) lp
  = Done (with_integrality_ (Restore.retype idx (integrality_ lp)) lp).
Proof.
  intros idx Hrange Hplain.
  apply (for_range_states _
    (λ k, with_integrality_
            (Restore.retype (take k idx) (integrality_ lp)) lp)).
  - by destruct lp.
  - unfold vsize. rewrite Nat2Z.id. by rewrite take_ge.
  - unfold vsize. rewrite Nat2Z.id. intros k Hk.
    destruct (lookup_lt_is_Some_2 idx k Hk) as [i Hi].
    assert (0 ≤ i < vsize (integrality_ lp)) as Hir.
    { rewrite Forall_forall in Hrange. apply Hrange.
      by eapply list_elem_of_lookup_2. }
    assert (mods_ (with_integrality_
              (Restore.retype (take k idx) (integrality_ lp)) lp)
            = mods_ lp) as -> by by destruct lp.
    fold idx. rewrite (at_Done _ _ _ Hi). simpl.
    rewrite with_integrality_proj.
    set (ty := Restore.retype (take k idx) (integrality_ lp)).
    assert (0 ≤ i < vsize ty) as Hity
      by (unfold vsize, ty; rewrite length_retype; apply Hir).
    rewrite (take_S_r _ _ _ Hi), retype_snoc. fold ty.
    destruct (Hplain k i Hi) as [Ht|Ht]; fold ty in Ht.
    + rewrite (at_Done_Z _ _ _ (proj1 Hir) Ht). simpl.
      rewrite set_at_Done_Z by done. simpl.
      rewrite (alter_as_insert _ _ _ _ Ht). by destruct lp.
    + rewrite (at_Done_Z _ _ _ (proj1 Hir) Ht). simpl.
      rewrite set_at_Done_Z by done. simpl.
      rewrite (alter_as_insert _ _ _ _ Ht). by destruct lp.
Qed.

Lemma zip_lookup_paired {A} (idx : list Z) (vals : list A) (k : nat) (i : Z) :
  idx !! k = Some i → length vals = length idx →
  ∃ x, vals !! k = Some x ∧ zip idx vals !! k = Some (i, x).
Proof.
  intros Hi Hlen.
  destruct (lookup_lt_is_Some_2 vals k) as [x Hx].
  { rewrite Hlen. by eapply lookup_lt_Some. }
  exists x. split; [done|]. apply lookup_zip_with_Some. eauto.
Qed.

Lemma take_zip_all {A} (idx : list Z) (vals : list A) :
  take (length idx) (zip idx vals) = zip idx vals.
Proof. apply take_ge. rewrite length_zip. lia. Qed.

Lemma with_col_lower_integrality v lp :
  integrality_ (with_col_lower_ v lp) = integrality_ lp.
Proof. by destruct lp. Qed.
Lemma with_col_upper_integrality v lp :
  integrality_ (with_col_upper_ v lp) = integrality_ lp.
Proof. by destruct lp. Qed.

(** Loop 2: bounds and types of the columns of log 2 are overwritten
    with the saved values. *)
Lemma unapplyMods_loop2 (lp : HighsLp) :
  let m := mods_ lp in
  let idx := save_inconsistent_semi_variable_index m in
  let los := save_inconsistent_semi_variable_lower_bound_value m in
  let ups := save_inconsistent_semi_variable_upper_bound_value m in
  let tys := save_inconsistent_semi_variable_type m in
  length los = length idx → length ups = length idx →
  length tys = length idx →
  Forall (λ i, 0 ≤ i < vsize (integrality_ lp) ∧
               0 ≤ i < vsize (col_lower_ lp) ∧
               0 ≤ i < vsize (col_upper_ lp)) idx →
  for_range 0 (vsize idx) (λ k lp,
      iCol ← at_ (save_inconsistent_semi_variable_index (mods_ lp)) k;
      x ← at_ (save_inconsistent_semi_variable_lower_bound_value (mods_ lp)) k;
      v ← set_at (col_lower_ lp) iCol x;
      let lp := with_col_lower_ v lp in
      x ← at_ (save_inconsistent_semi_variable_upper_bound_value (mods_ lp)) k;
      v ← set_at (col_upper_ lp) iCol x;
      let lp := with_col_upper_ v lp in
      x ← at_ (save_inconsistent_semi_variable_type (mods_ lp)) k;
      v ← set_at (integrality_ lp) iCol x;
      mret (with_integrality_ v lp)) lp
  = Done
      (with_integrality_ (Restore.writes (zip idx tys) (integrality_ lp))
         (with_col_upper_ (Restore.writes (zip idx ups) (col_upper_ lp))
            (with_col_lower_ (Restore.writes (zip idx los) (col_lower_ lp))
               lp))).
Proof.
  intros m idx los ups tys Hlo Hup Hty Hrange.
  apply (for_range_states _
    (λ k, with_integrality_
            (Restore.writes (take k (zip idx tys)) (integrality_ lp))
            (with_col_upper_
               (Restore.writes (take k (zip idx ups)) (col_upper_ lp))
               (with_col_lower_
                  (Restore.writes (take k (zip idx los)) (col_lower_ lp))
                  lp)))).
  - by destruct lp.
  - unfold vsize. rewrite Nat2Z.id. by rewrite !take_zip_all.
  - unfold vsize. rewrite Nat2Z.id. intros k Hk.
    destruct (lookup_lt_is_Some_2 idx k Hk) as [i Hi].
    destruct (zip_lookup_paired idx los k i Hi Hlo) as (xl & Hxl & Hzl).
    destruct (zip_lookup_paired idx ups k i Hi Hup) as (xu & Hxu & Hzu).
    destruct (zip_lookup_paired idx tys k i Hi Hty) as (xt & Hxt & Hzt).
    rewrite (take_S_r _ _ _ Hzl), (take_S_r _ _ _ Hzu), (take_S_r _ _ _ Hzt).
    rewrite !writes_snoc.
    rewrite Forall_forall in Hrange.
    destruct (Hrange i) as (Hit & Hil & Hiu);
      [by eapply list_elem_of_lookup_2|].
    set (wt := Restore.writes (take k (zip idx tys)) (integrality_ lp)).
    set (wu := Restore.writes (take k (zip idx ups)) (col_upper_ lp)).
    set (wl := Restore.writes (take k (zip idx los)) (col_lower_ lp)).
    assert (0 ≤ i < vsize wt) as Hwt
      by (unfold vsize, wt; by rewrite length_writes).
    assert (0 ≤ i < vsize wu) as Hwu
      by (unfold vsize, wu; by rewrite length_writes).
    assert (0 ≤ i < vsize wl) as Hwl
      by (unfold vsize, wl; by rewrite length_writes).
    subst m idx los ups tys. destruct lp; simpl in *.
    rewrite (at_Done _ _ _ Hi). simpl.
    rewrite (at_Done _ _ _ Hxl). simpl.
    rewrite (set_at_Done_Z wl) by done. simpl.
    rewrite (at_Done _ _ _ Hxu). simpl.
    rewrite (set_at_Done_Z wu) by done. simpl.
    rewrite (at_Done _ _ _ Hxt). simpl.
    rewrite (set_at_Done_Z wt) by done. simpl.
    done.
Qed.

(** Loop 3: the lower bounds of the columns of log 3 are overwritten with
    the saved values. *)
Lemma unapplyMods_loop3 (idx : list Z) (vals : list Qc) (lp : HighsLp) :
  length vals = length idx →
  Forall (λ i, 0 ≤ i < vsize (col_lower_ lp)) idx →
  Forall (Restore.semi_at (integrality_ lp)) idx →
  for_range 0 (vsize idx) (λ k lp,
      iCol ← at_ idx k;
      t ← at_ (integrality_ lp) iCol;
      cpp_assert (is_semi t);;
      x ← at_ vals k;
      v ← set_at (col_lower_ lp) iCol x;
      mret (with_col_lower_ v lp)) lp
  = Done (with_col_lower_ (Restore.writes (zip idx vals) (col_lower_ lp)) lp).
Proof.
  intros Hlen Hrange Hsemi.
  apply (for_range_states _
    (λ k, with_col_lower_
            (Restore.writes (take k (zip idx vals)) (col_lower_ lp)) lp)).
  - by destruct lp.
  - unfold vsize. rewrite Nat2Z.id. by rewrite take_zip_all.
  - unfold vsize. rewrite Nat2Z.id. intros k Hk.
    destruct (lookup_lt_is_Some_2 idx k Hk) as [i Hi].
    destruct (zip_lookup_paired idx vals k i Hi Hlen) as (x & Hx & Hz).
    rewrite (take_S_r _ _ _ Hz), writes_snoc.
    rewrite Forall_forall in Hrange, Hsemi.
    pose proof (Hrange i (list_elem_of_lookup_2 _ _ _ Hi)) as Hir.
    pose proof (Hsemi i (list_elem_of_lookup_2 _ _ _ Hi)) as Hst.
    set (w := Restore.writes (take k (zip idx vals)) (col_lower_ lp)).
    assert (0 ≤ i < vsize w) as Hw
      by (unfold vsize, w; by rewrite length_writes).
    rewrite (at_Done _ _ _ Hi). simpl.
    rewrite with_col_lower_integrality.
    assert (∃ t, integrality_ lp !! Z.to_nat i = Some t ∧ is_semi t = true)
      as (t & Ht & Hts) by (destruct Hst; eauto).
    rewrite (at_Done_Z _ _ _ (proj1 Hir) Ht). simpl. rewrite Hts. simpl.
    rewrite (at_Done _ _ _ Hx). simpl.
    rewrite with_col_lower_proj, (set_at_Done_Z w) by done. simpl.
    by destruct lp.
Qed.

(** Loop 4: the upper bounds of the columns of log 4 are overwritten with
    the saved values. *)
Lemma unapplyMods_loop4 (idx : list Z) (vals : list Qc) (lp : HighsLp) :
  length vals = length idx →
  Forall (λ i, 0 ≤ i < vsize (col_upper_ lp)) idx →
  Forall (Restore.semi_at (integrality_ lp)) idx →
  for_range 0 (vsize idx) (λ k lp,
      iCol ← at_ idx k;
      t ← at_ (integrality_ lp) iCol;
      cpp_assert (is_semi t);;
      x ← at_ vals k;
      v ← set_at (col_upper_ lp) iCol x;
      mret (with_col_upper_ v lp)) lp
  = Done (with_col_upper_ (Restore.writes (zip idx vals) (col_upper_ lp)) lp).
Proof.
  intros Hlen Hrange Hsemi.
  apply (for_range_states _
    (λ k, with_col_upper_
            (Restore.writes (take k (zip idx vals)) (col_upper_ lp)) lp)).
  - by destruct lp.
  - unfold vsize. rewrite Nat2Z.id. by rewrite take_zip_all.
  - unfold vsize. rewrite Nat2Z.id. intros k Hk.
    destruct (lookup_lt_is_Some_2 idx k Hk) as [i Hi].
    destruct (zip_lookup_paired idx vals k i Hi Hlen) as (x & Hx & Hz).
    rewrite (take_S_r _ _ _ Hz), writes_snoc.
    rewrite Forall_forall in Hrange, Hsemi.
    pose proof (Hrange i (list_elem_of_lookup_2 _ _ _ Hi)) as Hir.
    pose proof (Hsemi i (list_elem_of_lookup_2 _ _ _ Hi)) as Hst.
    set (w := Restore.writes (take k (zip idx vals)) (col_upper_ lp)).
    assert (0 ≤ i < vsize w) as Hw
      by (unfold vsize, w; by rewrite length_writes).
    rewrite (at_Done _ _ _ Hi). simpl.
    rewrite with_col_upper_integrality.
    assert (∃ t, integrality_ lp !! Z.to_nat i = Some t ∧ is_semi t = true)
      as (t & Ht & Hts) by (destruct Hst; eauto).
    rewrite (at_Done_Z _ _ _ (proj1 Hir) Ht). simpl. rewrite Hts. simpl.
    rewrite (at_Done _ _ _ Hx). simpl.
    rewrite with_col_upper_proj, (set_at_Done_Z w) by done. simpl.
    by destruct lp.
Qed.

Lemma vsize_length_0 {A B} (v : list A) (w : list B) :
  length w = length v → vsize v = 0 → vsize w = 0.
Proof. unfold vsize. lia. Qed.

(** C5. When the logs are paired vectors, every logged index is in range
    and the type preconditions hold at the time each entry is processed,
    [unapplyMods] returns; the model it returns is the one with log 1's
    types put back, then log 2's saved bounds and types written, then log
    3's lower bounds, then log 4's upper bounds; all four logs are empty
    afterwards and [isClear] returns true. *)
Theorem unapplyMods_restores (lp : HighsLp) :
  Restore.preconditions lp →
  ∃ lp',
    unapplyMods lp = Done lp' ∧
    lp' = Restore.restored lp ∧
    integrality_ lp' = Restore.types lp ∧
    col_lower_ lp' = Restore.lower lp ∧
    col_upper_ lp' = Restore.upper lp ∧
    mods_ lp' = mkHighsLpMods [] [] [] [] [] [] [] [] [] ∧
    HighsLpMods_isClear (mods_ lp') = true.
Proof.
  intros ((Hlo & Hup & Hty & Hl3 & Hl4) & (Hr1 & Hr2 & Hr3 & Hr4)
          & (Ht1 & Ht3 & Ht4)).
  exists (Restore.restored lp).
  split; [|by destruct lp].
  unfold unapplyMods.
  rewrite (unapplyMods_loop1 lp) by done. simpl.
  set (lp1 := with_integrality_ _ lp).
  assert (mods_ lp1 = mods_ lp) as Hm1 by by destruct lp.
  assert (col_lower_ lp1 = col_lower_ lp) as Hcl1 by by destruct lp.
  assert (col_upper_ lp1 = col_upper_ lp) as Hcu1 by by destruct lp.
  assert (integrality_ lp1 = Restore.retype
            (save_non_semi_variable_index (mods_ lp)) (integrality_ lp))
    as Hty1 by by destruct lp.
  assert ((if decide
             (vsize (save_inconsistent_semi_variable_index (mods_ lp1)) = 0)
           then
             cpp_assert (bool_decide (vsize
               (save_inconsistent_semi_variable_lower_bound_value
                  (mods_ lp1)) = 0));;
             cpp_assert (bool_decide (vsize
               (save_inconsistent_semi_variable_upper_bound_value
                  (mods_ lp1)) = 0));;
             cpp_assert (bool_decide (vsize
               (save_inconsistent_semi_variable_type (mods_ lp1)) = 0))
           else mret ()) = Done ()) as ->.
  { rewrite Hm1. case_decide as Hz; [|done].
    rewrite !bool_decide_eq_true_2; [done|..];
      by eapply vsize_length_0. }
  simpl.
  pose proof (unapplyMods_loop2 lp1) as Hloop2. cbv zeta in Hloop2.
  rewrite Hloop2; clear Hloop2;
    [|by rewrite Hm1..|
     rewrite Hm1, Hcl1, Hcu1, Hty1; unfold vsize;
     by rewrite length_retype].
  simpl. set (lp2 := with_integrality_ _ _).
  assert (mods_ lp2 = mods_ lp) as Hm2 by by destruct lp.
  assert (integrality_ lp2 = Restore.types lp) as Hty2 by by destruct lp.
  assert (col_lower_ lp2 = Restore.writes
            (zip (save_inconsistent_semi_variable_index (mods_ lp))
                 (save_inconsistent_semi_variable_lower_bound_value (mods_ lp)))
            (col_lower_ lp)) as Hcl2 by by destruct lp.
  assert (col_upper_ lp2 = Restore.writes
            (zip (save_inconsistent_semi_variable_index (mods_ lp))
                 (save_inconsistent_semi_variable_upper_bound_value (mods_ lp)))
            (col_upper_ lp)) as Hcu2 by by destruct lp.
  rewrite Hm2.
  assert (∀ (v : list Z) (w : list Qc), length w = length v →
            (if decide (vsize v = 0)
             then cpp_assert (bool_decide (vsize w = 0))
             else mret ()) = Done ()) as Hassert.
  { intros v w Hvw. case_decide; [|done].
    rewrite bool_decide_eq_true_2; [done|]. by eapply vsize_length_0. }
  rewrite (Hassert _ _ Hl3). simpl.
  rewrite (unapplyMods_loop3 _ _ lp2); [|done| |by rewrite Hty2].
  2:{ rewrite Hcl2. unfold vsize. rewrite length_writes.
      eapply Forall_impl; [exact Hr3|]. by intros i [_ ?]. }
  simpl. set (lp3 := with_col_lower_ _ lp2).
  assert (mods_ lp3 = mods_ lp) as Hm3 by by destruct lp.
  assert (integrality_ lp3 = Restore.types lp) as Hty3 by by destruct lp.
  assert (col_upper_ lp3 = col_upper_ lp2) as Hcu3 by by destruct lp.
  rewrite Hm3, (Hassert _ _ Hl4). simpl.
  rewrite (unapplyMods_loop4 _ _ lp3); [|done| |by rewrite Hty3].
  2:{ rewrite Hcu3, Hcu2. unfold vsize. rewrite length_writes.
      eapply Forall_impl; [exact Hr4|]. by intros i [_ ?]. }
  simpl. f_equal. subst lp3 lp2 lp1.
  unfold Restore.restored, Restore.types, Restore.lower, Restore.upper.
  by destruct lp.
Qed.

Lemma unapplyMods_restores_witness :
  ∃ lp',
    unapplyMods Sample.journalled = Done lp' ∧
    lp' = Restore.restored Sample.journalled ∧
    integrality_ lp' = Restore.types Sample.journalled ∧
    col_lower_ lp' = Restore.lower Sample.journalled ∧
    col_upper_ lp' = Restore.upper Sample.journalled ∧
    mods_ lp' = mkHighsLpMods [] [] [] [] [] [] [] [] [] ∧
    HighsLpMods_isClear (mods_ lp') = true.
Proof.
  apply (unapplyMods_restores Sample.journalled).
  unfold Restore.preconditions. split_and!.
  - unfold Restore.paired. simpl. done.
  - unfold Restore.in_range, vsize. simpl.
    split_and!; repeat constructor; simpl; lia.
  - unfold Restore.types_ok. simpl. split; [|split].
    + intros [|k] i Hi; [|done]. injection Hi as <-. by left.
    + apply Forall_cons; split; [by left|apply Forall_nil_2].
    + apply Forall_cons; split; [by right|apply Forall_nil_2].
Defined.

(** ** What the restored vectors hold, column by column *)

Lemma writes_app {A} (ws1 ws2 : list (Z * A)) (v : list A) :
  Restore.writes (ws1 ++ ws2) v = Restore.writes ws2 (Restore.writes ws1 v).
Proof. unfold Restore.writes. by rewrite foldl_app. Qed.

(** A position that no entry of the log names keeps its value. *)
Lemma writes_lookup_other {A} (ws : list (Z * A)) (v : list A) (j : nat) :
  Forall (λ w, Z.to_nat w.1 ≠ j) ws →
  Restore.writes ws v !! j = v !! j.
Proof.
  revert v. induction ws as [|[i x] ws IH]; intros v Hws; [done|].
  apply Forall_cons in Hws as [Hne Hws]. simpl in Hne.
  unfold Restore.writes in *. simpl. rewrite IH by done.
  by rewrite list_lookup_insert_ne.
Qed.

(** The last entry of the log for a position decides its value. *)
Lemma writes_lookup_last {A} (ws : list (Z * A)) (v : list A)
    (k : nat) (i : Z) (x : A) :
  ws !! k = Some (i, x) →
  Forall (λ w, Z.to_nat w.1 ≠ Z.to_nat i) (drop (Datatypes.S k) ws) →
  (Z.to_nat i < length v)%nat →
  Restore.writes ws v !! Z.to_nat i = Some x.
Proof.
  intros Hk Hlater Hi.
  rewrite <- (take_drop_middle _ _ _ Hk), writes_app.
  change ((i, x) :: drop (Datatypes.S k) ws)
    with ([(i, x)] ++ drop (Datatypes.S k) ws).
  rewrite writes_app, writes_lookup_other by done.
  unfold Restore.writes at 1. simpl.
  apply list_lookup_insert_eq. by rewrite length_writes.
Qed.

Lemma retype_lookup_other (idx : list Z) (ty : list HighsVarType) (j : nat) :
  Forall (λ i, Z.to_nat i ≠ j) idx →
  Restore.retype idx ty !! j = ty !! j.
Proof.
  revert ty. induction idx as [|i idx IH]; intros ty Hidx; [done|].
  apply Forall_cons in Hidx as [Hne Hidx].
  unfold Restore.retype in *. simpl. rewrite IH by done.
  by rewrite list_lookup_alter_ne.
Qed.

(** The type precondition of log 1 holds in particular when the logged
    columns are pairwise distinct and each is continuous or integer when
    the restore starts. *)
Lemma retype_plain_distinct (idx : list Z) (ty : list HighsVarType) :
  NoDup idx → Forall (λ i, 0 ≤ i) idx → Forall (Restore.plain_at ty) idx →
  ∀ k i, idx !! k = Some i →
    Restore.plain_at (Restore.retype (take k idx) ty) i.
Proof.
  intros Hnd Hnn Hplain k i Hi. unfold Restore.plain_at.
  rewrite retype_lookup_other.
  - rewrite Forall_forall in Hplain. apply Hplain.
    by eapply list_elem_of_lookup_2.
  - apply Forall_forall. intros i' Hin Heq.
    apply list_elem_of_lookup in Hin as [k' Hk'].
    apply lookup_take_Some in Hk' as [Hk' Hlt].
    rewrite Forall_forall in Hnn.
    assert (i' = i) as ->.
    { pose proof (Hnn i (list_elem_of_lookup_2 _ _ _ Hi)).
      pose proof (Hnn i' (list_elem_of_lookup_2 _ _ _ Hk')). lia. }
    pose proof (NoDup_lookup _ _ _ _ Hnd Hi Hk'). lia.
Qed.

(** After the restore, the lower bound of a column of log 3 is the value
    saved by its last entry in that log. *)
Lemma restored_lower_relaxed (lp : HighsLp) (k : nat) (i : Z) (x : Qc) :
  let m := mods_ lp in
  save_relaxed_semi_variable_lower_bound_index m !! k = Some i →
  save_relaxed_semi_variable_lower_bound_value m !! k = Some x →
  Forall (λ i', Z.to_nat i' ≠ Z.to_nat i)
    (drop (Datatypes.S k) (save_relaxed_semi_variable_lower_bound_index m)) →
  0 ≤ i < vsize (col_lower_ lp) →
  col_lower_ (Restore.restored lp) !! Z.to_nat i = Some x.
Proof.
  intros m Hi Hx Hlater Hr.
  assert (col_lower_ (Restore.restored lp) = Restore.lower lp) as ->
    by by destruct lp.
  unfold Restore.lower. fold m.
  apply (writes_lookup_last _ _ k).
  - apply lookup_zip_with_Some. eauto.
  - rewrite (zip_with_drop pair).
    apply Forall_forall. intros [i' x'] Hin. simpl.
    apply elem_of_zip_l in Hin.
    rewrite Forall_forall in Hlater. by apply Hlater.
  - rewrite length_writes. unfold vsize in Hr. lia.
Qed.

(** The same for the upper bound of a column of log 4. *)
Lemma restored_upper_tightened (lp : HighsLp) (k : nat) (i : Z) (x : Qc) :
  let m := mods_ lp in
  save_tightened_semi_variable_upper_bound_index m !! k = Some i →
  save_tightened_semi_variable_upper_bound_value m !! k = Some x →
  Forall (λ i', Z.to_nat i' ≠ Z.to_nat i)
    (drop (Datatypes.S k) (save_tightened_semi_variable_upper_bound_index m)) →
  0 ≤ i < vsize (col_upper_ lp) →
  col_upper_ (Restore.restored lp) !! Z.to_nat i = Some x.
Proof.
  intros m Hi Hx Hlater Hr.
  assert (col_upper_ (Restore.restored lp) = Restore.upper lp) as ->
    by by destruct lp.
  unfold Restore.upper. fold m.
  apply (writes_lookup_last _ _ k).
  - apply lookup_zip_with_Some. eauto.
  - rewrite (zip_with_drop pair).
    apply Forall_forall. intros [i' x'] Hin. simpl.
    apply elem_of_zip_l in Hin.
    rewrite Forall_forall in Hlater. by apply Hlater.
  - rewrite length_writes. unfold vsize in Hr. lia.
Qed.

(** The type of a column of log 2 is the type saved by its last entry in
    that log, whatever log 1 made of it. *)
Lemma restored_type_inconsistent (lp : HighsLp) (k : nat) (i : Z)
    (t : HighsVarType) :
  let m := mods_ lp in
  save_inconsistent_semi_variable_index m !! k = Some i →
  save_inconsistent_semi_variable_type m !! k = Some t →
  Forall (λ i', Z.to_nat i' ≠ Z.to_nat i)
    (drop (Datatypes.S k) (save_inconsistent_semi_variable_index m)) →
  0 ≤ i < vsize (integrality_ lp) →
  integrality_ (Restore.restored lp) !! Z.to_nat i = Some t.
Proof.
  intros m Hi Hx Hlater Hr.
  assert (integrality_ (Restore.restored lp) = Restore.types lp) as ->
    by by destruct lp.
  unfold Restore.types. fold m.
  apply (writes_lookup_last _ _ k).
  - apply lookup_zip_with_Some. eauto.
  - rewrite (zip_with_drop pair).
    apply Forall_forall. intros [i' x'] Hin. simpl.
    apply elem_of_zip_l in Hin.
    rewrite Forall_forall in Hlater. by apply Hlater.
  - rewrite length_retype. unfold vsize in Hr. lia.
Qed.

Lemma semi_of_idemp t : Restore.semi_of (Restore.semi_of t) = Restore.semi_of t.
Proof. by destruct t. Qed.

Lemma retype_lookup (idx : list Z) (ty : list HighsVarType) (j : nat) :
  Restore.retype idx ty !! j
  = (if decide (j ∈ Z.to_nat <$> idx) then Restore.semi_of else id)
      <$> ty !! j.
Proof.
  revert ty. induction idx as [|i idx IH]; intros ty.
  - simpl. by destruct (ty !! j).
  - unfold Restore.retype in *. simpl. rewrite IH.
    destruct (decide (Z.to_nat i = j)) as [<-|Hne].
    + rewrite list_lookup_alter_eq.
      rewrite (decide_True (P := _ ∈ _ :: _)) by apply list_elem_of_here.
      destruct (ty !! Z.to_nat i) as [t|]; simpl; [|done].
      case_decide; simpl; [by rewrite semi_of_idemp|done].
    + rewrite list_lookup_alter_ne by done.
      destruct (decide (j ∈ Z.to_nat <$> idx)) as [Hin|Hnin].
      * by rewrite decide_True by by apply list_elem_of_further.
      * rewrite decide_False; [done|].
        intros [?|?]%elem_of_cons; done.
Qed.

(** The type of a column of log 1 that log 2 does not name is
    semi-continuous if the column was continuous, semi-integer if it was
    integer. *)
Lemma restored_type_non_semi (lp : HighsLp) (i : Z) (t : HighsVarType) :
  let m := mods_ lp in
  i ∈ save_non_semi_variable_index m →
  Forall (λ i', Z.to_nat i' ≠ Z.to_nat i)
    (save_inconsistent_semi_variable_index m) →
  integrality_ lp !! Z.to_nat i = Some t →
  integrality_ (Restore.restored lp) !! Z.to_nat i
  = Some (Restore.semi_of t).
Proof.
  intros m Hin Hnot Ht.
  assert (integrality_ (Restore.restored lp) = Restore.types lp) as ->
    by by destruct lp.
  unfold Restore.types. fold m.
  rewrite writes_lookup_other.
  - rewrite retype_lookup, Ht. simpl.
    rewrite decide_True; [done|]. by apply list_elem_of_fmap_2.
  - apply Forall_forall. intros [i' x'] Hin'. simpl.
    apply elem_of_zip_l in Hin'.
    rewrite Forall_forall in Hnot. by apply Hnot.
Qed.

(** ** C6: addColNames on a collision *)




Lemma addColNames_entry_Next kdup name lp lp0 :
  addColNames_entry kdup name lp = Done (Next lp0) →
  num_col_ lp ≠ 0 ∧ num_col_ lp ≤ vsize (col_names_ lp) ∧ name = "" ∧
  num_col_ lp0 = num_col_ lp ∧ col_names_ lp0 = col_names_ lp ∧
  new_col_name_ix_ lp0 = new_col_name_ix_ lp.
Proof.
  unfold addColNames_entry.
  case_decide as Hz; [done|]. case_decide as Hc; [done|].
  intros H.
  destruct (decide (size (name2index (col_hash_ lp)) = 0%nat)).
  - destruct (HighsNameHash_form _ _ _) as [h|]; simpl in H; [|done].
    unfold cpp_assert in H. case_bool_decide; simpl in H; [|done].
    injection H as <-. destruct lp. simpl in *. split_and!; done || lia.
  - simpl in H.
    unfold cpp_assert in H. case_bool_decide; simpl in H; [|done].
    injection H as <-. split_and!; done || lia.
Qed.



(** The other failure: with the names vector pre-sized to three entries
    and the third slot holding x, the first new column finds its slot
    taken; the names are left as they were, the hash is empty and the
    counter has advanced by one. *)
Lemma addColNames_presized_slot_taken :
  ∃ lp',
    addColNames (-1) "" 2 Sample.presized3 = Done lp' ∧
    name2index (col_hash_ lp') = ∅ ∧
    col_names_ lp' = ["a"; "b"; "x"] ∧
    new_col_name_ix_ lp' = 1.
Proof. eexists. split; [by vm_compute|done]. Qed.

(** Without a collision the batch names every new column: two new
    columns after a and b are named col_ekk_0 and col_ekk_1, and the
    counter advances by two. *)
Lemma addColNames_two_new_columns :
  ∃ lp',
    addColNames (-1) "" 2
      (with_col_names_ ["a"; "b"] Sample.mip2) = Done lp' ∧
    col_names_ lp' = ["a"; "b"; "col_ekk_0"; "col_ekk_1"] ∧
    new_col_name_ix_ lp' = 2.
Proof. eexists. split; [by vm_compute|done]. Qed.

(** ** C7: HighsNameHash::form *)

(** C7 (failing input). On the names a, a, b, b the assertion that
    guards the marking of a duplicate fails at the second b: its first
    index, 2, is not below the number of entries of the map, 2, because
    the two a share one entry. No mapping is produced. *)
Theorem HighsNameHash_form_assertion_fails
    (kHashIsDuplicate : Z) (this : HighsNameHash) :
  HighsNameHash_form kHashIsDuplicate ["a"; "a"; "b"; "b"] this
  = Fault AssertionFailure.
Proof. by vm_compute. Qed.

(** The example of the design document: x1 is mapped to the sentinel and
    x2 to 1, and [hasDuplicate] returns true. *)
Lemma HighsNameHash_form_example (kHashIsDuplicate : Z) (this : HighsNameHash) :
  HighsNameHash_form kHashIsDuplicate ["x1"; "x2"; "x1"] this
  = Done (mkHighsNameHash (<["x1" := kHashIsDuplicate]> {["x2" := 1]})) ∧
  HighsNameHash_hasDuplicate ["x1"; "x2"; "x1"] this
  = Done (true, mkHighsNameHash ∅).
Proof. split; by vm_compute. Qed.

(** A loop that keeps an invariant indexed by the iteration. *)
Lemma for_steps_invariant {S} (Inv : nat → S → Prop)
    (body : Z → S → outcome S) (n i : nat) (s s' : S) :
  (∀ p s s', (i ≤ p < i + n)%nat → Inv p s →
     body (Z.of_nat p) s = Done s' → Inv (Datatypes.S p) s') →
  Inv i s →
  for_steps n (Z.of_nat i) body s = Done s' →
  Inv (i + n)%nat s'.
Proof.
  revert i s. induction n as [|n IH]; intros i s Hstep Hinv; simpl.
  - intros [= <-]. by rewrite Nat.add_0_r.
  - destruct (body (Z.of_nat i) s) as [s1|] eqn:Hb; simpl; [|done].
    replace (Z.of_nat i + 1) with (Z.of_nat (Datatypes.S i)) by lia.
    intros Hrest. replace (i + Datatypes.S n)%nat with (Datatypes.S i + n)%nat by lia.
    eapply IH; [|by eapply Hstep; [lia|..]|done].
    intros p s2 s3 Hp. apply Hstep. lia.
Qed.

(** A name that occurs in a list occurs at exactly one index or at two
    different ones. *)
Lemma occurrence_cases (l : list string) (nm : string) :
  nm ∈ l →
  (∃ i, l !! i = Some nm ∧ ∀ j, l !! j = Some nm → j = i) ∨
  (∃ i j, i ≠ j ∧ l !! i = Some nm ∧ l !! j = Some nm).
Proof.
  induction l as [|y l IH]; intros Hin.
  - by apply elem_of_nil in Hin.
  - destruct (decide (nm ∈ l)) as [Hl|Hl].
    + destruct (decide (y = nm)) as [->|Hne].
      * right. apply list_elem_of_lookup in Hl as [j Hj].
        exists 0%nat, (Datatypes.S j). done.
      * destruct (IH Hl) as [(i & Hi & Hu)|(i & j & Hij & Hi & Hj)].
        -- left. exists (Datatypes.S i). split; [done|].
           intros [|j] Hj; simplify_eq/=. f_equal. by apply Hu.
        -- right. exists (Datatypes.S i), (Datatypes.S j).
           split_and!; [lia|done|done].
    + apply elem_of_cons in Hin as [->|?]; [|done].
      left. exists 0%nat. split; [done|].
      intros [|j] Hj; [done|]. simpl in Hj.
      destruct Hl. by eapply list_elem_of_lookup_2.
Qed.

Lemma form_spec_is_Some k l m nm :
  form_spec k l m → nm ∈ l → is_Some (m !! nm).
Proof.
  intros Hspec Hin. destruct (Hspec nm) as (_ & Hu & Hd).
  destruct (occurrence_cases l nm Hin) as [(i & Hi & Hui)|(i & j & ? & ? & ?)].
  - rewrite (Hu i) by done. eauto.
  - rewrite (Hd i j) by done. eauto.
Qed.

Lemma lookup_snoc_Some (l : list string) (x nm : string) (i : nat) :
  (l ++ [x]) !! i = Some nm ↔
  l !! i = Some nm ∨ (i = length l ∧ nm = x).
Proof.
  rewrite lookup_app_Some, list_lookup_singleton_Some.
  split.
  - intros [?|[? [? ->]]]; [by left|right]. split; [lia|done].
  - intros [?|[-> ->]]; [by left|right]. split; [lia|]. split; [lia|done].
Qed.

(** One iteration of [form] that returns extends the mapping by the name
    it reads. *)
Lemma form_step_spec k (name : list string) (p : nat) (x : string)
    (this this' : HighsNameHash) :
  name !! p = Some x →
  form_spec k (take p name) (name2index this) →
  HighsNameHash_form_body k name (Z.of_nat p) this = Done this' →
  form_spec k (take (Datatypes.S p) name) (name2index this').
Proof.
  intros Hx Hspec Hbody.
  assert (length (take p name) = p) as Hlen.
  { rewrite length_take. apply lookup_lt_Some in Hx. lia. }
  rewrite (take_S_r _ _ _ Hx). set (l := take p name) in *.
  destruct this as [m]. simpl in Hspec.
  assert (name2index this' =
          match m !! x with
          | None => <[x := Z.of_nat p]> m
          | Some _ => <[x := k]> m
          end) as ->.
  { unfold HighsNameHash_form_body in Hbody.
    rewrite (at_Done _ _ _ Hx) in Hbody. simpl in Hbody.
    unfold emplace in Hbody at 1.
    destruct (m !! x) as [w|] eqn:Hm; simpl in Hbody.
    - rewrite Hm in Hbody. outcome_cases Hbody. simpl.
      unfold emplace. rewrite lookup_delete_eq. simpl.
      apply insert_delete_eq.
    - by injection Hbody as <-. }
  intros nm. destruct (decide (nm = x)) as [->|Hne].
  - destruct (m !! x) as [w|] eqn:Hm.
    + assert (x ∈ l) as Hin.
      { destruct (decide (x ∈ l)) as [|Hnin]; [done|].
        destruct (Hspec x) as (Hnone & _). rewrite Hnone in Hm; done. }
      apply list_elem_of_lookup in Hin as [i0 Hi0].
      pose proof (lookup_lt_Some _ _ _ Hi0) as Hlt.
      rewrite lookup_insert_eq. split_and!.
      * intros Hnin. destruct Hnin. apply elem_of_app. left.
        by eapply list_elem_of_lookup_2.
      * intros i Hi Hu.
        assert (i0 = i) as <-.
        { apply Hu. apply lookup_snoc_Some. by left. }
        assert (length l = i0); [|lia].
        apply Hu. apply lookup_snoc_Some. by right.
      * done.
    + rewrite lookup_insert_eq. split_and!.
      * intros Hnin. destruct Hnin. apply elem_of_app. right.
        by apply list_elem_of_singleton.
      * intros i Hi Hu. do 2 f_equal. rewrite <- Hlen.
        apply Hu. apply lookup_snoc_Some. by right.
      * intros i j Hij Hi Hj.
        apply lookup_snoc_Some in Hi, Hj.
        assert (x ∈ l) as Hin.
        { destruct Hi as [Hi|[-> _]], Hj as [Hj|[-> _]];
            [by eapply list_elem_of_lookup_2..|done]. }
        destruct (form_spec_is_Some _ _ _ _ Hspec Hin) as [? ?].
        congruence.
  - assert (match m !! x with
            | Some _ => <[x:=k]> m
            | None => <[x:=Z.of_nat p]> m
            end !! nm = m !! nm) as ->.
    { destruct (m !! x); by rewrite lookup_insert_ne. }
    destruct (Hspec nm) as (Hnone & Hu & Hd). split_and!.
    + intros Hnin. apply Hnone. intros Hin. apply Hnin.
      apply elem_of_app. by left.
    + intros i Hi Hui. apply lookup_snoc_Some in Hi as [Hi|[_ ?]]; [|done].
      apply Hu; [done|]. intros j Hj. apply Hui.
      apply lookup_snoc_Some. by left.
    + intros i j Hij Hi Hj.
      apply lookup_snoc_Some in Hi as [Hi|[_ ?]]; [|done].
      apply lookup_snoc_Some in Hj as [Hj|[_ ?]]; [|done].
      by apply (Hd i j).
Qed.

(** Whenever [form] returns, the mapping it has built is the intended
    one. *)
Lemma HighsNameHash_form_Done_spec k (name : list string)
    (this this' : HighsNameHash) :
  HighsNameHash_form k name this = Done this' →
  form_spec k name (name2index this').
Proof.
  unfold HighsNameHash_form, for_range, vsize.
  rewrite Z.sub_0_r, Nat2Z.id. intros Hform.
  assert ((0 + length name ≤ length name)%nat ∧
          form_spec k (take (0 + length name) name) (name2index this'))
    as [_ Hfinal].
  { apply (for_steps_invariant
      (λ p h, (p ≤ length name)%nat ∧
              form_spec k (take p name) (name2index h))
      (HighsNameHash_form_body k name) (length name) 0
      (HighsNameHash_clear this) this'); [| |exact Hform].
    - intros p s s' Hp [_ Hs] Hb.
      destruct (lookup_lt_is_Some_2 name p) as [x Hx]; [lia|].
      split; [lia|]. by eapply form_step_spec.
    - split; [lia|]. intros nm. split_and!.
      + intros _. apply lookup_empty.
      + by intros [|i].
      + by intros [|i]. }
  simpl in Hfinal. by rewrite take_ge in Hfinal.
Qed.

(** * Further properties *)

(** ** Scaling as a two-state machine *)

Lemma Qc_entry_inverse' (v c r : Qc) :
  c ≠ 0%Qc → r ≠ 0%Qc → (v / r / (1 / c) * (1 / c) * r)%Qc = v.
Proof.
  intros Hc Hr.
  assert ((1 / c)%Qc ≠ 0%Qc) as Hic.
  { unfold Qcdiv. rewrite Qcmult_1_l.
    intros H. pose proof (Qcmult_inv_r c Hc) as H1.
    rewrite H, Qcmult_0_r in H1. done. }
  rewrite Qc_div_mul by done. by apply Qc_div_mul.
Qed.

(** What [unapplyScale] does on a scaled model. *)
Lemma unapplyScale_closed (lp : HighsLp) :
  is_scaled_ lp = true →
  has_scaling (scale_ lp) = true →
  scaling_in_range lp →
  unapplyScale lp = Done
    (with_is_scaled_ false
      (with_a_matrix_
        (HighsSparseMatrix.mk
           (HighsSparseMatrix.format_ (a_matrix_ lp))
           (HighsSparseMatrix.num_col_ (a_matrix_ lp))
           (HighsSparseMatrix.num_row_ (a_matrix_ lp))
           (scaled_entry (λ v c r, v / r / (1 / c))%Qc (scale_ lp)
              <$> HighsSparseMatrix.entries (a_matrix_ lp)))
        (row_loop_state Qcdiv Qcdiv (row (scale_ lp))
          (col_loop_state Qcmult Qcmult Qcdiv (col (scale_ lp)) lp
             (Z.to_nat (num_col_ lp)))
          (Z.to_nat (num_row_ lp))))).
Proof.
  intros Hs Hhas (Hc & Hcl & Hcu & Hcc & Hr & Hrl & Hru & Hm).
  unfold unapplyScale. rewrite Hs, Hhas. simpl.
  rewrite (col_loop_closed Qcmult Qcmult Qcdiv) by done. simpl.
  set (lp1 := col_loop_state _ _ _ _ _ _).
  assert (num_row_ lp1 = num_row_ lp) as Hnr by by destruct lp.
  assert (row_lower_ lp1 = row_lower_ lp) as Hrl1 by by destruct lp.
  assert (row_upper_ lp1 = row_upper_ lp) as Hru1 by by destruct lp.
  rewrite <- Hnr.
  rewrite (row_loop_closed Qcdiv Qcdiv) by (by rewrite ?Hnr, ?Hrl1, ?Hru1).
  simpl. set (lp2 := row_loop_state _ _ _ _ _).
  assert (a_matrix_ lp2 = a_matrix_ lp) as -> by by destruct lp.
  unfold HighsSparseMatrix.unapplyScale.
  rewrite (matrix_entries_closed (λ v c r, v / r / (1 / c))%Qc) by done.
  done.
Qed.

(** The scaled and the unscaled form of a model keep every index in
    range. *)
Lemma scaling_in_range_closed (fl fu fc gl gu : Qc → Qc → Qc)
    (op : Qc → Qc → Qc → Qc) (b : bool) (lp : HighsLp) :
  scaling_in_range lp →
  scaling_in_range
    (with_is_scaled_ b
      (with_a_matrix_
        (HighsSparseMatrix.mk
           (HighsSparseMatrix.format_ (a_matrix_ lp))
           (HighsSparseMatrix.num_col_ (a_matrix_ lp))
           (HighsSparseMatrix.num_row_ (a_matrix_ lp))
           (scaled_entry op (scale_ lp)
              <$> HighsSparseMatrix.entries (a_matrix_ lp)))
        (row_loop_state gl gu (row (scale_ lp))
          (col_loop_state fl fu fc (col (scale_ lp)) lp
             (Z.to_nat (num_col_ lp)))
          (Z.to_nat (num_row_ lp))))).
Proof.
  intros (Hc & Hcl & Hcu & Hcc & Hr & Hrl & Hru & Hm).
  unfold scaling_in_range, row_loop_state, col_loop_state.
  destruct lp; simpl in *. unfold vsize in *.
  rewrite !length_scaled. split_and!; try done.
  apply Forall_fmap. eapply Forall_impl; [exact Hm|].
  intros e He. simpl. by rewrite scaled_entry_index.
Qed.

(** Both directions of the round trip, on the closed forms. *)
Lemma unapplyScale_applyScale_closed (lp : HighsLp) :
  has_scaling (scale_ lp) = true →
  is_scaled_ lp = false →
  scaling_in_range lp →
  Forall (λ c, 0 < c)%Qc (col (scale_ lp)) →
  Forall (λ r, 0 < r)%Qc (row (scale_ lp)) →
  ∃ lp1, applyScale lp = Done lp1 ∧ is_scaled_ lp1 = true ∧
         scale_ lp1 = scale_ lp ∧ unapplyScale lp1 = Done lp.
Proof.
  intros Hhas Hns Hrange Hpc Hpr.
  eexists. split; [by apply applyScale_closed|].
  split; [by destruct lp|]. split; [by destruct lp|].
  rewrite unapplyScale_closed;
    [|by destruct lp|by destruct lp|].
  2:{ pose proof (scaling_in_range_closed Qcdiv Qcdiv Qcmult Qcmult Qcmult
        (λ v c r, v * (1 / c) * r)%Qc true lp Hrange) as H.
      exact H. }
  f_equal. unfold row_loop_state, col_loop_state.
  destruct lp as [nc nr cc cl cu rl ru [mf mc mr es]
                  ? ? ? ? ? ? ? ? ? ? ? sc ? ? ? ?].
  simpl in *. subst. f_equal.
  - apply scaled_inverse. intros x c Hin. apply Qc_mul_div. solve_ne_0.
  - apply scaled_inverse. intros x c Hin. apply Qc_div_mul. solve_ne_0.
  - apply scaled_inverse. intros x c Hin. apply Qc_div_mul. solve_ne_0.
  - apply scaled_inverse. intros x c Hin. apply Qc_mul_div. solve_ne_0.
  - apply scaled_inverse. intros x c Hin. apply Qc_mul_div. solve_ne_0.
  - f_equal. rewrite <- list_fmap_compose. rewrite <- (list_fmap_id es) at 2.
    apply list_fmap_ext. intros k e _. simpl.
    apply (scaled_entry_inverse (λ v c r, v * (1 / c) * r)%Qc).
    intros v c r Hcin Hrin. apply Qc_entry_inverse; solve_ne_0.
Qed.

(** X1. On a scaled model whose scale factors are positive and cover the
    columns, rows and matrix entries, [unapplyScale] returns an unscaled
    model and [applyScale] on that model returns the scaled one again. *)
Theorem unapplyScale_applyScale_roundtrip (lp : HighsLp) :
  has_scaling (scale_ lp) = true →
  is_scaled_ lp = true →
  scaling_in_range lp →
  Forall (λ c, 0 < c)%Qc (col (scale_ lp)) →
  Forall (λ r, 0 < r)%Qc (row (scale_ lp)) →
  ∃ lp0,
    unapplyScale lp = Done lp0 ∧
    is_scaled_ lp0 = false ∧
    applyScale lp0 = Done lp.
Proof.
  intros Hhas Hs Hrange Hpc Hpr.
  eexists. split; [by apply unapplyScale_closed|].
  split; [by destruct lp|].
  rewrite applyScale_closed;
    [|by destruct lp|by destruct lp|].
  2:{ exact (scaling_in_range_closed Qcmult Qcmult Qcdiv Qcdiv Qcdiv
        (λ v c r, v / r / (1 / c))%Qc false lp Hrange). }
  f_equal. unfold row_loop_state, col_loop_state.
  destruct lp as [nc nr cc cl cu rl ru [mf mc mr es]
                  ? ? ? ? ? ? ? ? ? ? ? sc ? ? ? ?].
  simpl in *. subst. f_equal.
  - apply scaled_inverse. intros x c Hin. apply Qc_div_mul. solve_ne_0.
  - apply scaled_inverse. intros x c Hin. apply Qc_mul_div. solve_ne_0.
  - apply scaled_inverse. intros x c Hin. apply Qc_mul_div. solve_ne_0.
  - apply scaled_inverse. intros x c Hin. apply Qc_div_mul. solve_ne_0.
  - apply scaled_inverse. intros x c Hin. apply Qc_div_mul. solve_ne_0.
  - f_equal. rewrite <- list_fmap_compose. rewrite <- (list_fmap_id es) at 2.
    apply list_fmap_ext. intros k e _. simpl.
    apply (scaled_entry_inverse (λ v c r, v / r / (1 / c))%Qc).
    intros v c r Hcin Hrin. apply Qc_entry_inverse'; solve_ne_0.
Qed.

Lemma unapplyScale_applyScale_roundtrip_witness :
  ∃ lp0,
    unapplyScale Sample.scaled_up = Done lp0 ∧
    is_scaled_ lp0 = false ∧
    applyScale lp0 = Done Sample.scaled_up.
Proof.
  apply (unapplyScale_applyScale_roundtrip Sample.scaled_up).
  - reflexivity.
  - reflexivity.
  - unfold scaling_in_range, vsize. simpl.
    repeat split; try lia; repeat constructor; simpl; lia.
  - repeat constructor.
  - repeat constructor.
Defined.

Lemma reset_with_col_lower_ lp0 v lp :
  reset_scaled_values lp0 (with_col_lower_ v lp) = reset_scaled_values lp0 lp.
Proof. by destruct lp. Qed.
Lemma reset_with_col_upper_ lp0 v lp :
  reset_scaled_values lp0 (with_col_upper_ v lp) = reset_scaled_values lp0 lp.
Proof. by destruct lp. Qed.
Lemma reset_with_col_cost_ lp0 v lp :
  reset_scaled_values lp0 (with_col_cost_ v lp) = reset_scaled_values lp0 lp.
Proof. by destruct lp. Qed.
Lemma reset_with_row_lower_ lp0 v lp :
  reset_scaled_values lp0 (with_row_lower_ v lp) = reset_scaled_values lp0 lp.
Proof. by destruct lp. Qed.
Lemma reset_with_row_upper_ lp0 v lp :
  reset_scaled_values lp0 (with_row_upper_ v lp) = reset_scaled_values lp0 lp.
Proof. by destruct lp. Qed.
Lemma reset_with_a_matrix_ lp0 v lp :
  reset_scaled_values lp0 (with_a_matrix_ v lp) = reset_scaled_values lp0 lp.
Proof. by destruct lp. Qed.
Lemma reset_with_is_scaled_ lp0 v lp :
  reset_scaled_values lp0 (with_is_scaled_ v lp) = reset_scaled_values lp0 lp.
Proof. by destruct lp. Qed.

Lemma same_vector_lengths_flags lp0 b m lp :
  same_vector_lengths lp0 lp →
  same_vector_lengths lp0 (with_is_scaled_ b (with_a_matrix_ m lp)).
Proof. by destruct lp. Qed.

Lemma update_at_length {A} (v v' : list A) (i : Z) (f : A → A) :
  update_at v i f = Done v' → length v' = length v.
Proof.
  unfold update_at, set_at. intros H.
  destruct (at_ v i); simpl in H; [|done].
  case_decide; [|done]. injection H as <-. apply length_insert.
Qed.

(** The column loop and the row loop of the two operations assign the
    scaled vectors only, and keep their lengths. *)
Lemma col_loop_frame (fl fu fc : Qc → Qc → Qc) (s : list Qc)
    (lp0 : HighsLp) (k : Z) (lp lp' : HighsLp) :
  (c ← at_ s k;
   v ← update_at (col_lower_ lp) k (λ x, fl x c);
   let lp := with_col_lower_ v lp in
   v ← update_at (col_upper_ lp) k (λ x, fu x c);
   let lp := with_col_upper_ v lp in
   v ← update_at (col_cost_ lp) k (λ x, fc x c);
   mret (with_col_cost_ v lp)) = Done lp' →
  same_but_scaled_values lp0 lp ∧ same_vector_lengths lp0 lp →
  same_but_scaled_values lp0 lp' ∧ same_vector_lengths lp0 lp'.
Proof.
  intros H [Hsame Hlen].
  destruct (at_ s k) as [c|]; simpl in H; [|done].
  destruct (update_at (col_lower_ lp) k _) as [vl|] eqn:El;
    simpl in H; [|done].
  destruct (update_at (col_upper_ _) k _) as [vu|] eqn:Eu;
    simpl in H; [|done].
  destruct (update_at (col_cost_ _) k _) as [vc|] eqn:Ec;
    simpl in H; [|done].
  injection H as <-.
  apply update_at_length in El, Eu, Ec.
  split.
  - unfold same_but_scaled_values in *.
    by rewrite reset_with_col_cost_, reset_with_col_upper_,
      reset_with_col_lower_.
  - clear Hsame. unfold same_vector_lengths in *.
    destruct lp; simpl in *.
    destruct Hlen as (? & ? & ? & ? & ?). split_and!; congruence.
Qed.

Lemma row_loop_frame (fl fu : Qc → Qc → Qc) (s : list Qc)
    (lp0 : HighsLp) (k : Z) (lp lp' : HighsLp) :
  (r ← at_ s k;
   v ← update_at (row_lower_ lp) k (λ x, fl x r);
   let lp := with_row_lower_ v lp in
   v ← update_at (row_upper_ lp) k (λ x, fu x r);
   mret (with_row_upper_ v lp)) = Done lp' →
  same_but_scaled_values lp0 lp ∧ same_vector_lengths lp0 lp →
  same_but_scaled_values lp0 lp' ∧ same_vector_lengths lp0 lp'.
Proof.
  intros H [Hsame Hlen].
  destruct (at_ s k) as [c|]; simpl in H; [|done].
  destruct (update_at (row_lower_ lp) k _) as [vl|] eqn:El;
    simpl in H; [|done].
  destruct (update_at (row_upper_ _) k _) as [vu|] eqn:Eu;
    simpl in H; [|done].
  injection H as <-.
  apply update_at_length in El, Eu.
  split.
  - unfold same_but_scaled_values in *.
    by rewrite reset_with_row_upper_, reset_with_row_lower_.
  - clear Hsame. unfold same_vector_lengths in *.
    destruct lp; simpl in *.
    destruct Hlen as (? & ? & ? & ? & ?). split_and!; congruence.
Qed.

Lemma same_but_scaled_values_refl lp :
  same_but_scaled_values lp lp ∧ same_vector_lengths lp lp.
Proof. split; [by destruct lp|]. by repeat split. Qed.

(** X2. Whenever [applyScale] returns, the model it returns is scaled
    exactly when it has scaling; the call has assigned nothing but cost,
    column bounds, row bounds, matrix and the flag [is_scaled_], and the
    five vectors have kept their lengths. *)
Theorem applyScale_frame (lp lp1 : HighsLp) :
  applyScale lp = Done lp1 →
  is_scaled_ lp1 = has_scaling (scale_ lp1) ∧
  same_but_scaled_values lp lp1 ∧
  same_vector_lengths lp lp1.
Proof.
  intros H. pose proof (applyScale_Done_inv _ _ H) as [Hsc Hs1].
  unfold applyScale in H.
  destruct (is_scaled_ lp) eqn:Hs.
  { destruct (has_scaling (scale_ lp)) eqn:Hhas; simpl in H; [|done].
    injection H as <-. rewrite Hs, Hhas.
    split; [done|]. apply same_but_scaled_values_refl. }
  rewrite Hsc. split; [done|].
  destruct (has_scaling (scale_ lp)) eqn:Hhas.
  2:{ injection H as <-. split.
      - unfold same_but_scaled_values. rewrite reset_with_is_scaled_.
        apply same_but_scaled_values_refl.
      - by destruct lp. }
  unfold for_range in H.
  destruct (for_steps _ 0 _ (with_is_scaled_ false lp)) as [lpa|] eqn:Ea;
    simpl in H; [|done].
  destruct (for_steps _ 0 _ lpa) as [lpb|] eqn:Eb; simpl in H; [|done].
  destruct (HighsSparseMatrix.applyScale _ _) as [m|]; simpl in H; [|done].
  injection H as <-.
  assert (same_but_scaled_values lp lpb ∧ same_vector_lengths lp lpb)
    as [Hsame Hlen].
  { eapply (for_steps_preserves _ _ _ _ _ _ (row_loop_frame _ _ _ lp));
      [exact Eb|].
    eapply (for_steps_preserves _ _ _ _ _ _ (col_loop_frame _ _ _ _ lp));
      [exact Ea|].
    split.
    - unfold same_but_scaled_values. rewrite reset_with_is_scaled_.
      apply same_but_scaled_values_refl.
    - by destruct lp. }
  split.
  - unfold same_but_scaled_values in *.
    by rewrite reset_with_is_scaled_, reset_with_a_matrix_.
  - by apply same_vector_lengths_flags.
Qed.

Lemma applyScale_frame_witness :
  ∃ lp1,
    applyScale Sample.scalable = Done lp1 ∧
    is_scaled_ lp1 = has_scaling (scale_ lp1) ∧
    same_but_scaled_values Sample.scalable lp1 ∧
    same_vector_lengths Sample.scalable lp1.
Proof.
  eexists. split; [by vm_compute|].
  eapply (applyScale_frame Sample.scalable). by vm_compute.
Defined.

(** What every returning [unapplyScale] leaves behind. *)
Lemma unapplyScale_Done_inv (lp lp1 : HighsLp) :
  unapplyScale lp = Done lp1 →
  is_scaled_ lp1 = false ∧
  same_but_scaled_values lp lp1 ∧ same_vector_lengths lp lp1.
Proof.
  intros H. unfold unapplyScale in H.
  destruct (is_scaled_ lp) eqn:Hs; simpl in H.
  2:{ injection H as <-. split; [done|].
      apply same_but_scaled_values_refl. }
  destruct (has_scaling (scale_ lp)) eqn:Hhas; simpl in H; [|done].
  unfold for_range in H.
  destruct (for_steps _ 0 _ lp) as [lpa|] eqn:Ea; simpl in H; [|done].
  destruct (for_steps _ 0 _ lpa) as [lpb|] eqn:Eb; simpl in H; [|done].
  destruct (HighsSparseMatrix.unapplyScale _ _) as [m|];
    simpl in H; [|done].
  injection H as <-.
  assert (same_but_scaled_values lp lpb ∧ same_vector_lengths lp lpb)
    as [Hsame Hlen].
  { eapply (for_steps_preserves _ _ _ _ _ _ (row_loop_frame _ _ _ lp));
      [exact Eb|].
    eapply (for_steps_preserves _ _ _ _ _ _ (col_loop_frame _ _ _ _ lp));
      [exact Ea|].
    apply same_but_scaled_values_refl. }
  split; [by destruct lpb|]. split.
  - unfold same_but_scaled_values in *.
    by rewrite reset_with_is_scaled_, reset_with_a_matrix_.
  - by apply same_vector_lengths_flags.
Qed.

Lemma same_but_scaled_values_fields lp0 lp :
  same_but_scaled_values lp0 lp →
  scale_ lp = scale_ lp0 ∧ is_moved_ lp = is_moved_ lp0 ∧
  num_col_ lp = num_col_ lp0 ∧ num_row_ lp = num_row_ lp0 ∧
  offset_ lp = offset_ lp0.
Proof.
  unfold same_but_scaled_values. intros <-. by destruct lp.
Qed.

(** X3. Whenever [unapplyScale] returns, the model it returns is not
    scaled and a second [unapplyScale] returns it unchanged; the call has
    assigned nothing but cost, column bounds, row bounds, matrix and the
    flag [is_scaled_], and the five vectors have kept their lengths. *)
Theorem unapplyScale_frame (lp lp1 : HighsLp) :
  unapplyScale lp = Done lp1 →
  is_scaled_ lp1 = false ∧
  unapplyScale lp1 = Done lp1 ∧
  same_but_scaled_values lp lp1 ∧
  same_vector_lengths lp lp1.
Proof.
  intros H. destruct (unapplyScale_Done_inv _ _ H) as (Hs1 & Hsame & Hlen).
  split_and!; try done.
  unfold unapplyScale. by rewrite Hs1.
Qed.

Lemma unapplyScale_frame_witness :
  ∃ lp1,
    unapplyScale Sample.scaled_up = Done lp1 ∧
    is_scaled_ lp1 = false ∧
    unapplyScale lp1 = Done lp1 ∧
    same_but_scaled_values Sample.scaled_up lp1 ∧
    same_vector_lengths Sample.scaled_up lp1.
Proof.
  eexists. split; [by vm_compute|].
  eapply (unapplyScale_frame Sample.scaled_up). by vm_compute.
Defined.

(** ** clearScale, clearScaling, moveBackLpAndUnapplyScaling *)

(** X4. [clearScale] (and so [resetScale]) on a model that is scaled
    leaves a model on which [applyScale], [unapplyScale] and
    [clearScaling] all stop at the assertion on [has_scaling]: the scaled
    values can no longer be unscaled. *)
Theorem clearScale_scaled_stuck (kSimplexScaleStrategyOff : Z) (lp : HighsLp) :
  is_scaled_ lp = true →
  applyScale (clearScale kSimplexScaleStrategyOff lp)
    = Fault AssertionFailure ∧
  unapplyScale (resetScale kSimplexScaleStrategyOff lp)
    = Fault AssertionFailure ∧
  clearScaling kSimplexScaleStrategyOff
    (clearScale kSimplexScaleStrategyOff lp) = Fault AssertionFailure.
Proof.
  intros Hs. unfold clearScaling, resetScale, applyScale, unapplyScale.
  destruct lp; simpl in *. subst. done.
Qed.

Lemma clearScale_scaled_stuck_witness :
  applyScale (clearScale 0 Sample.scaled_up) = Fault AssertionFailure ∧
  unapplyScale (resetScale 0 Sample.scaled_up) = Fault AssertionFailure ∧
  clearScaling 0 (clearScale 0 Sample.scaled_up) = Fault AssertionFailure.
Proof. apply (clearScale_scaled_stuck 0 Sample.scaled_up). reflexivity. Defined.

(** X5. With the values taken as exact rationals and the matrix scaled
    as the design document describes, [clearScaling] on the model that
    [applyScale] returned gives the original model with its scale
    cleared: the values are unscaled first, then the scale is dropped.
    The rounding of doubles is outside the model. *)
Theorem applyScale_clearScaling (kSimplexScaleStrategyOff : Z) (lp : HighsLp) :
  has_scaling (scale_ lp) = true →
  is_scaled_ lp = false →
  scaling_in_range lp →
  Forall (λ c, 0 < c)%Qc (col (scale_ lp)) →
  Forall (λ r, 0 < r)%Qc (row (scale_ lp)) →
  ∃ lp1,
    applyScale lp = Done lp1 ∧
    clearScaling kSimplexScaleStrategyOff lp1
      = Done (clearScale kSimplexScaleStrategyOff lp).
Proof.
  intros Hhas Hns Hrange Hpc Hpr.
  destruct (unapplyScale_applyScale_closed lp) as (lp1 & H1 & _ & _ & H2);
    try done.
  exists lp1. split; [done|]. unfold clearScaling. by rewrite H2.
Qed.

Lemma applyScale_clearScaling_witness :
  ∃ lp1,
    applyScale Sample.scalable = Done lp1 ∧
    clearScaling 0 lp1 = Done (clearScale 0 Sample.scalable).
Proof.
  apply (applyScale_clearScaling 0 Sample.scalable).
  - reflexivity.
  - reflexivity.
  - unfold scaling_in_range, vsize. simpl.
    repeat split; try lia; repeat constructor; simpl; lia.
  - repeat constructor.
  - repeat constructor.
Defined.

(** X6. Whenever [clearScaling] returns, the model is not scaled and has
    no scaling, and [clearScaling], [applyScale] and [unapplyScale] on it
    change nothing. *)
Theorem clearScaling_settled (kSimplexScaleStrategyOff : Z)
    (lp lp1 : HighsLp) :
  clearScaling kSimplexScaleStrategyOff lp = Done lp1 →
  is_scaled_ lp1 = false ∧
  has_scaling (scale_ lp1) = false ∧
  clearScaling kSimplexScaleStrategyOff lp1 = Done lp1 ∧
  applyScale lp1 = Done lp1 ∧
  unapplyScale lp1 = Done lp1.
Proof.
  unfold clearScaling. intros H.
  destruct (unapplyScale lp) as [lp'|] eqn:E; simpl in H; [|done].
  injection H as <-.
  destruct (unapplyScale_Done_inv _ _ E) as (Hs & _ & _).
  unfold applyScale, unapplyScale, clearScale.
  destruct lp'; simpl in *. subst. done.
Qed.

Lemma clearScaling_settled_witness :
  ∃ lp1,
    clearScaling 0 Sample.scaled_up = Done lp1 ∧
    is_scaled_ lp1 = false ∧
    has_scaling (scale_ lp1) = false ∧
    clearScaling 0 lp1 = Done lp1 ∧
    applyScale lp1 = Done lp1 ∧
    unapplyScale lp1 = Done lp1.
Proof.
  eexists. split; [by vm_compute|].
  eapply (clearScaling_settled 0 Sample.scaled_up). by vm_compute.
Defined.

(** X7. [moveBackLpAndUnapplyScaling] returns exactly when the receiving
    model is marked as moved, the incoming one is not, and [unapplyScale]
    returns on the incoming one; what it returns is the unscaled incoming
    model, nothing of the receiving model being kept. *)
Theorem moveBackLpAndUnapplyScaling_spec (lp this r : HighsLp) :
  moveBackLpAndUnapplyScaling lp this = Done r ↔
  is_moved_ this = true ∧ is_moved_ lp = false ∧ unapplyScale lp = Done r.
Proof.
  unfold moveBackLpAndUnapplyScaling, cpp_assert.
  destruct (is_moved_ this) eqn:Hm; simpl.
  2:{ split; [done|]. by intros [? _]. }
  destruct (unapplyScale lp) as [lp'|] eqn:E; simpl.
  2:{ split; [done|]. by intros (_ & _ & ?). }
  destruct (unapplyScale_Done_inv _ _ E) as (_ & Hsame & _).
  apply same_but_scaled_values_fields in Hsame as (_ & Hmv & _).
  rewrite Hmv. destruct (is_moved_ lp); simpl.
  - split; [done|]. by intros (_ & ? & _).
  - split; [by intros [= ->]|]. by intros (_ & _ & [= ->]).
Qed.

(** ** objectiveValue *)

Lemma for_steps_chain_fault {S} (body : Z → S → outcome S) (st : nat → S)
    (n j : nat) (f : fault) :
  (∀ k, (k < j)%nat → body (Z.of_nat k) (st k) = Done (st (Datatypes.S k))) →
  body (Z.of_nat j) (st j) = Fault f →
  (j < n)%nat →
  for_steps n 0 body (st 0%nat) = Fault f.
Proof.
  intros Hstep Hfault Hlt.
  assert (∀ m i, (i + m = j)%nat →
            for_steps (m + (n - j)) (Z.of_nat i) body (st i) = Fault f) as H.
  { induction m as [|m IH]; intros i Hi.
    - simpl. replace i with j by lia.
      destruct (n - j)%nat as [|d] eqn:Hd; [lia|]. simpl.
      by rewrite Hfault.
    - simpl. rewrite Hstep by lia. simpl.
      replace (Z.of_nat i + 1) with (Z.of_nat (Datatypes.S i)) by lia.
      apply IH. lia. }
  specialize (H j 0%nat). replace (j + (n - j))%nat with n in H by lia.
  apply H. lia.
Qed.

Lemma at_beyond {A} (v : list A) (i : nat) :
  (length v ≤ i)%nat → at_ v (Z.of_nat i) = Fault OutOfRange.
Proof.
  intros Hi. unfold at_. rewrite decide_True by lia.
  by rewrite Nat2Z.id, lookup_ge_None_2.
Qed.

Lemma objective_terms_S (k : nat) (cost solution : list Qc) (c x : Qc) :
  cost !! k = Some c → solution !! k = Some x →
  objective_terms (Datatypes.S k) cost solution
  = objective_terms k cost solution ++ [(c * x)%Qc].
Proof.
  intros Hc Hx. unfold objective_terms.
  rewrite (take_S_r _ _ _ Hc), (take_S_r _ _ _ Hx).
  rewrite zip_with_app; [done|].
  rewrite !length_take.
  apply lookup_lt_Some in Hc. apply lookup_lt_Some in Hx. lia.
Qed.

(** The value [objectiveValue] returns when cost and solution cover the
    columns. *)
Lemma objectiveValue_closed (solution : list Qc) (lp : HighsLp) :
  num_col_ lp ≤ vsize solution →
  num_col_ lp ≤ vsize (col_cost_ lp) →
  objectiveValue solution lp
  = Done (foldl Qcplus (offset_ lp)
            (objective_terms (Z.to_nat (num_col_ lp))
               (col_cost_ lp) solution)).
Proof.
  intros Hs Hc. unfold objectiveValue.
  rewrite bool_decide_eq_true_2 by done. simpl.
  apply (for_range_states _
    (λ k, foldl Qcplus (offset_ lp)
            (objective_terms k (col_cost_ lp) solution))); [done..|].
  intros k Hk.
  destruct (lookup_lt_vsize _ k _ Hc Hk) as [c Hck].
  destruct (lookup_lt_vsize _ k _ Hs Hk) as [x Hxk].
  rewrite (at_Done _ _ _ Hck), (at_Done _ _ _ Hxk). simpl.
  by rewrite (objective_terms_S _ _ _ _ _ Hck Hxk), foldl_snoc.
Qed.

(** The cost vector ends before the column count is reached. *)
Lemma objectiveValue_short_cost (solution : list Qc) (lp : HighsLp) :
  num_col_ lp ≤ vsize solution →
  vsize (col_cost_ lp) < num_col_ lp →
  objectiveValue solution lp = Fault OutOfRange.
Proof.
  intros Hs Hc. unfold objectiveValue.
  rewrite bool_decide_eq_true_2 by done. simpl.
  unfold for_range. rewrite Z.sub_0_r.
  apply (for_steps_chain_fault _
    (λ k, foldl Qcplus (offset_ lp)
            (objective_terms k (col_cost_ lp) solution))
    _ (length (col_cost_ lp))).
  - intros k Hk.
    destruct (lookup_lt_is_Some_2 (col_cost_ lp) k Hk) as [c Hck].
    destruct (lookup_lt_is_Some_2 solution k) as [x Hxk];
      [unfold vsize in *; lia|].
    rewrite (at_Done _ _ _ Hck), (at_Done _ _ _ Hxk). simpl.
    by rewrite (objective_terms_S _ _ _ _ _ Hck Hxk), foldl_snoc.
  - by rewrite (at_beyond (col_cost_ lp)) by lia.
  - unfold vsize in *. lia.
Qed.

(** X8. [objectiveValue] stops at its assertion when the solution is
    shorter than the column count, reads outside the cost vector when
    that one is shorter, and otherwise returns the offset plus the sum of
    [cost[j] * solution[j]] over the columns. *)
Theorem objectiveValue_cases (solution : list Qc) (lp : HighsLp) :
  (vsize solution < num_col_ lp →
     objectiveValue solution lp = Fault AssertionFailure) ∧
  (num_col_ lp ≤ vsize solution → vsize (col_cost_ lp) < num_col_ lp →
     objectiveValue solution lp = Fault OutOfRange) ∧
  (num_col_ lp ≤ vsize solution → num_col_ lp ≤ vsize (col_cost_ lp) →
     objectiveValue solution lp
     = Done (foldl Qcplus (offset_ lp)
               (zip_with Qcmult
                  (take (Z.to_nat (num_col_ lp)) (col_cost_ lp))
                  (take (Z.to_nat (num_col_ lp)) solution)))).
Proof.
  split_and!.
  - intros Hs. unfold objectiveValue.
    by rewrite bool_decide_eq_false_2 by lia.
  - apply objectiveValue_short_cost.
  - apply objectiveValue_closed.
Qed.

Lemma objectiveValue_cases_witness :
  objectiveValue [Sample.three] Sample.scalable = Fault AssertionFailure ∧
  objectiveValue Sample.solution2
    (with_col_cost_ [Sample.three] Sample.scalable)
    = Fault OutOfRange ∧
  objectiveValue Sample.solution2 Sample.scalable
    = Done (foldl Qcplus 0%Qc
              (zip_with Qcmult [1%Qc; Sample.three]
                 [Sample.three; Sample.half])).
Proof.
  split_and!.
  - apply (objectiveValue_cases [Sample.three] Sample.scalable). reflexivity.
  - apply (objectiveValue_cases Sample.solution2
             (with_col_cost_ [Sample.three] Sample.scalable));
      unfold vsize; simpl; lia.
  - apply (objectiveValue_cases Sample.solution2 Sample.scalable);
      unfold vsize; simpl; lia.
Defined.

(** X9. [objectiveValue] depends on the solution only through its first
    [num_col_] entries: two solutions that are long enough and agree
    there give the same outcome. *)
Theorem objectiveValue_prefix (solution1 solution2 : list Qc) (lp : HighsLp) :
  num_col_ lp ≤ vsize solution1 →
  num_col_ lp ≤ vsize solution2 →
  take (Z.to_nat (num_col_ lp)) solution1
    = take (Z.to_nat (num_col_ lp)) solution2 →
  objectiveValue solution1 lp = objectiveValue solution2 lp.
Proof.
  intros H1 H2 Htake.
  destruct (decide (num_col_ lp ≤ vsize (col_cost_ lp))) as [Hc|Hc].
  - rewrite !objectiveValue_closed by done.
    unfold objective_terms. by rewrite Htake.
  - rewrite !objectiveValue_short_cost by (done || lia). done.
Qed.

Lemma objectiveValue_prefix_witness :
  objectiveValue (Sample.solution2 ++ [Sample.three]) Sample.scalable
  = objectiveValue Sample.solution2 Sample.scalable.
Proof.
  apply (objectiveValue_prefix
           (Sample.solution2 ++ [Sample.three]) Sample.solution2
           Sample.scalable);
    [unfold vsize; simpl; lia..|reflexivity].
Defined.

Lemma scaled_lookup_lt f n s v j x c :
  (j < n)%nat → v !! j = Some x → s !! j = Some c →
  scaled f n s v !! j = Some (f x c).
Proof.
  intros Hj Hx Hc. unfold scaled. rewrite list_lookup_imap, Hx. simpl.
  by rewrite decide_True, Hc by done.
Qed.

(** X10. Scaling does not change the objective: the model [applyScale]
    returns gives, at the solution with every entry divided by its column
    factor, the value the original model gives at the solution. *)
Theorem objectiveValue_applyScale (solution : list Qc) (lp : HighsLp) :
  has_scaling (scale_ lp) = true →
  is_scaled_ lp = false →
  scaling_in_range lp →
  Forall (λ c, 0 < c)%Qc (col (scale_ lp)) →
  num_col_ lp ≤ vsize solution →
  ∃ lp1,
    applyScale lp = Done lp1 ∧
    objectiveValue
      (scaled Qcdiv (Z.to_nat (num_col_ lp)) (col (scale_ lp)) solution) lp1
    = objectiveValue solution lp.
Proof.
  intros Hhas Hns Hrange Hpc Hsol.
  eexists. split; [by apply applyScale_closed|].
  destruct Hrange as (Hc & Hcl & Hcu & Hcc & Hr & Hrl & Hru & Hm).
  set (lp1 := with_is_scaled_ true _).
  set (n := Z.to_nat (num_col_ lp)).
  assert (num_col_ lp1 = num_col_ lp) as Hnc by by destruct lp.
  assert (offset_ lp1 = offset_ lp) as Hoff by by destruct lp.
  assert (col_cost_ lp1 = scaled Qcmult n (col (scale_ lp)) (col_cost_ lp))
    as Hcost by by destruct lp.
  rewrite !objectiveValue_closed;
    [|done..|rewrite Hnc; unfold vsize; by rewrite length_scaled
     |rewrite Hnc, Hcost; unfold vsize; by rewrite length_scaled].
  rewrite Hnc, Hoff, Hcost. fold n. do 2 f_equal.
  unfold objective_terms. apply list_eq. intros j.
  rewrite !lookup_zip_with.
  destruct (decide (j < n)%nat) as [Hj|Hj].
  2:{ by rewrite !lookup_take_ge by lia. }
  rewrite !lookup_take_lt by done.
  destruct (lookup_lt_vsize _ j _ Hc Hj) as [c Hcj].
  destruct (lookup_lt_vsize _ j _ Hcc Hj) as [a Haj].
  destruct (lookup_lt_vsize _ j _ Hsol Hj) as [x Hxj].
  rewrite (scaled_lookup_lt _ _ _ _ _ _ _ Hj Haj Hcj).
  rewrite (scaled_lookup_lt _ _ _ _ _ _ _ Hj Hxj Hcj).
  rewrite Haj, Hxj. simpl. f_equal.
  assert (c ≠ 0%Qc) as Hne.
  { apply (Qc_pos_ne_0 (col (scale_ lp))); [done|].
    by eapply list_elem_of_lookup_2. }
  rewrite <- Qcmult_assoc. f_equal. by apply Qcmult_div_r.
Qed.

Lemma objectiveValue_applyScale_witness :
  ∃ lp1,
    applyScale Sample.scalable = Done lp1 ∧
    objectiveValue
      (scaled Qcdiv 2 (col (scale_ Sample.scalable)) Sample.solution2) lp1
    = objectiveValue Sample.solution2 Sample.scalable.
Proof.
  apply (objectiveValue_applyScale Sample.solution2 Sample.scalable).
  - reflexivity.
  - reflexivity.
  - unfold scaling_in_range, vsize. simpl.
    repeat split; try lia; repeat constructor; simpl; lia.
  - repeat constructor.
  - unfold vsize. simpl. lia.
Defined.

(** ** unapplyMods: what it keeps *)

Lemma at_Done_elem {A} (v : list A) (i : Z) (x : A) :
  at_ v i = Done x → x ∈ v.
Proof.
  unfold at_. case_decide; [|done].
  destruct (v !! Z.to_nat i) eqn:E; [|done]. intros [= ->].
  by eapply list_elem_of_lookup_2.
Qed.

Lemma set_at_other {A} (v v' : list A) (i : Z) (x : A) (j : nat) :
  set_at v i x = Done v' →
  length v' = length v ∧ (i ≠ Z.of_nat j → v' !! j = v !! j).
Proof.
  unfold set_at. case_decide as Hi; [|done]. intros [= <-].
  split; [apply length_insert|].
  intros Hne. apply list_lookup_insert_ne. lia.
Qed.

Lemma reset_journalled_with_integrality_ lp0 v lp :
  reset_journalled lp0 (with_integrality_ v lp) = reset_journalled lp0 lp.
Proof. by destruct lp. Qed.
Lemma reset_journalled_with_col_lower_ lp0 v lp :
  reset_journalled lp0 (with_col_lower_ v lp) = reset_journalled lp0 lp.
Proof. by destruct lp. Qed.
Lemma reset_journalled_with_col_upper_ lp0 v lp :
  reset_journalled lp0 (with_col_upper_ v lp) = reset_journalled lp0 lp.
Proof. by destruct lp. Qed.

Lemma reset_journalled_mods lp0 lp :
  reset_journalled lp0 lp = lp0 → mods_ lp = mods_ lp0.
Proof. intros <-. by destruct lp. Qed.

Lemma journal_inv_refl lp j : journal_inv lp j lp.
Proof. split; [by destruct lp|]. by repeat split. Qed.

(** Writing the types vector at a logged column keeps the invariant. *)
Lemma journal_inv_integrality lp0 j lp (i : Z) (t : HighsVarType) v :
  journal_inv lp0 j lp →
  i ∈ journal_columns (mods_ lp0) →
  set_at (integrality_ lp) i t = Done v →
  journal_inv lp0 j (with_integrality_ v lp).
Proof.
  intros (Hr & (Ht & Hl & Hu) & Hj) Hi Hset.
  destruct (set_at_other _ _ _ _ j Hset) as [Hlen Hother].
  split; [by rewrite reset_journalled_with_integrality_|].
  clear Hr. destruct lp; simpl in *.
  split; [split_and!; congruence|].
  intros Hnot. destruct (Hj Hnot) as (? & ? & ?).
  split_and!; [|done|done].
  rewrite Hother; [done|]. by intros ->.
Qed.

Lemma journal_inv_col_lower lp0 j lp (i : Z) (x : Qc) v :
  journal_inv lp0 j lp →
  i ∈ journal_columns (mods_ lp0) →
  set_at (col_lower_ lp) i x = Done v →
  journal_inv lp0 j (with_col_lower_ v lp).
Proof.
  intros (Hr & (Ht & Hl & Hu) & Hj) Hi Hset.
  destruct (set_at_other _ _ _ _ j Hset) as [Hlen Hother].
  split; [by rewrite reset_journalled_with_col_lower_|].
  clear Hr. destruct lp; simpl in *.
  split; [split_and!; congruence|].
  intros Hnot. destruct (Hj Hnot) as (? & ? & ?).
  split_and!; [done| |done].
  rewrite Hother; [done|]. by intros ->.
Qed.

Lemma journal_inv_col_upper lp0 j lp (i : Z) (x : Qc) v :
  journal_inv lp0 j lp →
  i ∈ journal_columns (mods_ lp0) →
  set_at (col_upper_ lp) i x = Done v →
  journal_inv lp0 j (with_col_upper_ v lp).
Proof.
  intros (Hr & (Ht & Hl & Hu) & Hj) Hi Hset.
  destruct (set_at_other _ _ _ _ j Hset) as [Hlen Hother].
  split; [by rewrite reset_journalled_with_col_upper_|].
  clear Hr. destruct lp; simpl in *.
  split; [split_and!; congruence|].
  intros Hnot. destruct (Hj Hnot) as (? & ? & ?).
  split_and!; [done|done|].
  rewrite Hother; [done|]. by intros ->.
Qed.

Lemma journal_inv_mods lp0 j lp :
  journal_inv lp0 j lp → mods_ lp = mods_ lp0.
Proof. intros (Hr & _). by apply reset_journalled_mods. Qed.

Ltac bind_case H E :=
  match type of H with
  | (?m ≫= _) = Done _ =>
      destruct m eqn:E; simpl in H; [|discriminate H]
  end.

Ltac bind_named H E x :=
  match type of H with
  | (?m ≫= _) = Done _ =>
      destruct m as [x|] eqn:E; simpl in H; [|discriminate H]
  end.

Ltac bind_all H :=
  repeat (let E := fresh "E" in bind_case H E);
  unfold mret, outcome_ret in H; injection H as <-.

Lemma unapplyMods_body1_inv lp0 j (k : Z) (lp lp' : HighsLp) :
  (iCol ← at_ (save_non_semi_variable_index (mods_ lp)) k;
   t ← at_ (integrality_ lp) iCol;
   cpp_assert (bool_decide (t = kContinuous) || bool_decide (t = kInteger));;
   t ← at_ (integrality_ lp) iCol;
   v ← (if decide (t = kContinuous)
        then set_at (integrality_ lp) iCol kSemiContinuous
        else set_at (integrality_ lp) iCol kSemiInteger);
   mret (with_integrality_ v lp)) = Done lp' →
  journal_inv lp0 j lp → journal_inv lp0 j lp'.
Proof.
  intros H Hinv. pose proof (journal_inv_mods _ _ _ Hinv) as Hm.
  rewrite Hm in H. bind_all H.
  match goal with
  | E : at_ (save_non_semi_variable_index _) _ = Done ?i |- _ =>
      apply at_Done_elem in E;
      assert (i ∈ journal_columns (mods_ lp0)) as Hin
        by (unfold journal_columns; apply elem_of_app; by left)
  end.
  match goal with
  | E : (if decide _ then _ else _) = Done _ |- _ =>
      case_decide; by eapply journal_inv_integrality
  end.
Qed.

Lemma unapplyMods_body2_inv lp0 j (k : Z) (lp lp' : HighsLp) :
  (iCol ← at_ (save_inconsistent_semi_variable_index (mods_ lp)) k;
   x ← at_ (save_inconsistent_semi_variable_lower_bound_value (mods_ lp)) k;
   v ← set_at (col_lower_ lp) iCol x;
   let lp := with_col_lower_ v lp in
   x ← at_ (save_inconsistent_semi_variable_upper_bound_value (mods_ lp)) k;
   v ← set_at (col_upper_ lp) iCol x;
   let lp := with_col_upper_ v lp in
   x ← at_ (save_inconsistent_semi_variable_type (mods_ lp)) k;
   v ← set_at (integrality_ lp) iCol x;
   mret (with_integrality_ v lp)) = Done lp' →
  journal_inv lp0 j lp → journal_inv lp0 j lp'.
Proof.
  intros H Hinv. pose proof (journal_inv_mods _ _ _ Hinv) as Hm.
  bind_case H E1. bind_case H E2. bind_case H E3. bind_case H E4.
  bind_case H E5. bind_case H E6. bind_case H E7.
  unfold mret, outcome_ret in H. injection H as <-.
  rewrite Hm in E1. apply at_Done_elem in E1.
  match type of E1 with ?i ∈ _ =>
    assert (i ∈ journal_columns (mods_ lp0)) as Hin
      by (unfold journal_columns; rewrite !elem_of_app; right; by left)
  end.
  eapply journal_inv_integrality; [|exact Hin|exact E7].
  eapply journal_inv_col_upper; [|exact Hin|exact E5].
  eapply journal_inv_col_lower; [exact Hinv|exact Hin|exact E3].
Qed.

Lemma unapplyMods_body3_inv lp0 j (idx : list Z) (vals : list Qc)
    (Hidx : ∀ i, i ∈ idx → i ∈ journal_columns (mods_ lp0))
    (k : Z) (lp lp' : HighsLp) :
  (iCol ← at_ idx k;
   t ← at_ (integrality_ lp) iCol;
   cpp_assert (is_semi t);;
   x ← at_ vals k;
   v ← set_at (col_lower_ lp) iCol x;
   mret (with_col_lower_ v lp)) = Done lp' →
  journal_inv lp0 j lp → journal_inv lp0 j lp'.
Proof.
  intros H Hinv.
  bind_case H E1. bind_case H E2. bind_case H E3. bind_case H E4.
  bind_case H E5. unfold mret, outcome_ret in H. injection H as <-.
  apply at_Done_elem, Hidx in E1.
  eapply journal_inv_col_lower; [exact Hinv|exact E1|exact E5].
Qed.

Lemma unapplyMods_body4_inv lp0 j (idx : list Z) (vals : list Qc)
    (Hidx : ∀ i, i ∈ idx → i ∈ journal_columns (mods_ lp0))
    (k : Z) (lp lp' : HighsLp) :
  (iCol ← at_ idx k;
   t ← at_ (integrality_ lp) iCol;
   cpp_assert (is_semi t);;
   x ← at_ vals k;
   v ← set_at (col_upper_ lp) iCol x;
   mret (with_col_upper_ v lp)) = Done lp' →
  journal_inv lp0 j lp → journal_inv lp0 j lp'.
Proof.
  intros H Hinv.
  bind_case H E1. bind_case H E2. bind_case H E3. bind_case H E4.
  bind_case H E5. unfold mret, outcome_ret in H. injection H as <-.
  apply at_Done_elem, Hidx in E1.
  eapply journal_inv_col_upper; [exact Hinv|exact E1|exact E5].
Qed.

(** Every returning [unapplyMods] has the shape: a model that the loops
    reached under the invariant, with its journal cleared. *)
Lemma unapplyMods_Done_inv (lp lp' : HighsLp) (j : nat) :
  unapplyMods lp = Done lp' →
  ∃ lp4, lp' = with_mods_ (mkHighsLpMods [] [] [] [] [] [] [] [] []) lp4 ∧
         journal_inv lp j lp4.
Proof.
  unfold unapplyMods, for_range. intros H.
  bind_named H E1 lp1.
  assert (journal_inv lp j lp1) as Hi1.
  { eapply (for_steps_preserves _ _ _ _ _ _
              (unapplyMods_body1_inv lp j)); [exact E1|].
    apply journal_inv_refl. }
  bind_named H A2 u2. bind_named H E2 lp2.
  assert (journal_inv lp j lp2) as Hi2.
  { eapply (for_steps_preserves _ _ _ _ _ _
              (unapplyMods_body2_inv lp j)); [exact E2|exact Hi1]. }
  bind_named H A3 u3. bind_named H E3 lp3.
  assert (journal_inv lp j lp3) as Hi3.
  { assert (∀ i, i ∈ save_relaxed_semi_variable_lower_bound_index (mods_ lp2)
                 → i ∈ journal_columns (mods_ lp)) as Hidx.
    { intros i Hi. rewrite (journal_inv_mods _ _ _ Hi2) in Hi.
      unfold journal_columns. rewrite !elem_of_app.
      right. right. by left. }
    eapply (for_steps_preserves _ _ _ _ _ _
              (unapplyMods_body3_inv lp j _ _ Hidx)); [exact E3|exact Hi2]. }
  bind_named H A4 u4. bind_named H E4 lp4.
  assert (journal_inv lp j lp4) as Hi4.
  { assert (∀ i, i ∈ save_tightened_semi_variable_upper_bound_index (mods_ lp3)
                 → i ∈ journal_columns (mods_ lp)) as Hidx.
    { intros i Hi. rewrite (journal_inv_mods _ _ _ Hi3) in Hi.
      unfold journal_columns. rewrite !elem_of_app.
      right. right. by right. }
    eapply (for_steps_preserves _ _ _ _ _ _
              (unapplyMods_body4_inv lp j _ _ Hidx)); [exact E4|exact Hi3]. }
  unfold mret, outcome_ret in H. injection H as <-.
  exists lp4. split; [|done]. by destruct lp4.
Qed.

(** X11. Whenever [unapplyMods] returns, the journal of the model it
    returns is empty, [isClear] is true on it, and a second [unapplyMods]
    returns the model unchanged. *)
Theorem unapplyMods_idempotent (lp lp' : HighsLp) :
  unapplyMods lp = Done lp' →
  mods_ lp' = mkHighsLpMods [] [] [] [] [] [] [] [] [] ∧
  HighsLpMods_isClear (mods_ lp') = true ∧
  unapplyMods lp' = Done lp'.
Proof.
  intros H. destruct (unapplyMods_Done_inv _ _ 0%nat H) as (lp4 & -> & _).
  destruct lp4. split_and!; reflexivity.
Qed.

Lemma unapplyMods_idempotent_witness :
  ∃ lp',
    unapplyMods Sample.journalled = Done lp' ∧
    mods_ lp' = mkHighsLpMods [] [] [] [] [] [] [] [] [] ∧
    HighsLpMods_isClear (mods_ lp') = true ∧
    unapplyMods lp' = Done lp'.
Proof.
  eexists. split; [by vm_compute|].
  eapply (unapplyMods_idempotent Sample.journalled). by vm_compute.
Defined.

(** X12. Whenever [unapplyMods] returns, it has assigned nothing but the
    types, the column bounds and the journal; the three vectors have kept
    their lengths; and a column that none of the four logs names has kept
    its type and both its bounds. *)
Theorem unapplyMods_frame (lp lp' : HighsLp) :
  unapplyMods lp = Done lp' →
  reset_journalled lp (with_mods_ (mods_ lp) lp') = lp ∧
  length (integrality_ lp') = length (integrality_ lp) ∧
  length (col_lower_ lp') = length (col_lower_ lp) ∧
  length (col_upper_ lp') = length (col_upper_ lp) ∧
  ∀ j : nat,
    Z.of_nat j ∉ journal_columns (mods_ lp) →
    integrality_ lp' !! j = integrality_ lp !! j ∧
    col_lower_ lp' !! j = col_lower_ lp !! j ∧
    col_upper_ lp' !! j = col_upper_ lp !! j.
Proof.
  intros H.
  destruct (unapplyMods_Done_inv _ _ 0%nat H)
    as (lp4 & -> & Hr & (Ht & Hl & Hu) & _).
  split_and!.
  - rewrite <- Hr at 3. rewrite <- (reset_journalled_mods _ _ Hr).
    by destruct lp4.
  - by destruct lp4.
  - by destruct lp4.
  - by destruct lp4.
  - intros j Hj.
    destruct (unapplyMods_Done_inv _ _ j H) as (lp5 & Heq & _ & _ & Hcols).
    destruct (Hcols Hj) as (? & ? & ?).
    rewrite Heq. by destruct lp5.
Qed.

Lemma unapplyMods_frame_witness :
  ∃ lp',
    unapplyMods Sample.journalled = Done lp' ∧
    reset_journalled Sample.journalled
      (with_mods_ (mods_ Sample.journalled) lp') = Sample.journalled ∧
    length (integrality_ lp') = 4%nat ∧
    length (col_lower_ lp') = 4%nat ∧
    length (col_upper_ lp') = 4%nat.
Proof.
  eexists. split; [by vm_compute|].
  destruct (unapplyMods_frame Sample.journalled _
              ltac:(by vm_compute)) as (? & ? & ? & ? & _).
  done.
Defined.

(** X13. On a journal whose value vectors are as long as their index
    vectors, [isClear] returns true exactly when nothing is journalled. *)
Theorem HighsLpMods_isClear_iff (m : HighsLpMods) :
  Restore.paired m →
  HighsLpMods_isClear m = true ↔
  m = mkHighsLpMods [] [] [] [] [] [] [] [] [].
Proof.
  intros (_ & _ & _ & Hl3 & _).
  by apply HighsLpMods_isClear_paired.
Qed.

Lemma HighsLpMods_isClear_iff_witness :
  HighsLpMods_isClear (mods_ Sample.journalled) = true ↔
  mods_ Sample.journalled = mkHighsLpMods [] [] [] [] [] [] [] [] [].
Proof.
  apply (HighsLpMods_isClear_iff (mods_ Sample.journalled)).
  unfold Restore.paired. simpl. done.
Defined.

(** ** HighsNameHash: form and hasDuplicate *)

Lemma form_body_fresh k (name : list string) (i : nat) (x : string)
    (m : gmap string Z) :
  name !! i = Some x → m !! x = None →
  HighsNameHash_form_body k name (Z.of_nat i) (mkHighsNameHash m)
  = Done (mkHighsNameHash (<[x := Z.of_nat i]> m)).
Proof.
  intros Hx Hm. unfold HighsNameHash_form_body.
  rewrite (at_Done _ _ _ Hx). simpl.
  by rewrite (emplace_fresh _ _ _ Hm).
Qed.

(** On names that are pairwise distinct every [emplace] of [form]
    inserts, so the loop runs to its end. *)
Lemma form_loop_NoDup k (name : list string) (n i : nat) (m : gmap string Z) :
  (i + n)%nat = length name →
  NoDup name →
  (∀ nm, is_Some (m !! nm) → nm ∈ take i name) →
  ∃ h, for_steps n (Z.of_nat i) (HighsNameHash_form_body k name)
         (mkHighsNameHash m) = Done h.
Proof.
  revert i m. induction n as [|n IH]; intros i m Hlen Hnd Hdom.
  - by eexists.
  - destruct (name !! i) as [x|] eqn:Hx.
    2:{ apply lookup_ge_None in Hx. lia. }
    assert (m !! x = None) as Hm.
    { destruct (m !! x) as [w|] eqn:Hmx; [|done].
      assert (x ∈ take i name) as Hin by (apply Hdom; eauto).
      apply list_elem_of_lookup in Hin as [i' Hi'].
      apply lookup_take_Some in Hi' as [Hi' Hlt].
      pose proof (NoDup_lookup _ _ _ _ Hnd Hx Hi'). lia. }
    cbn [for_steps]. rewrite (form_body_fresh _ _ _ _ _ Hx Hm).
    cbn [mbind outcome_bind].
    replace (Z.of_nat i + 1) with (Z.of_nat (Datatypes.S i)) by lia.
    apply IH; [lia|done|].
    intros nm Hnm. rewrite (take_S_r _ _ _ Hx), elem_of_app.
    destruct (decide (x = nm)) as [->|Hne].
    + right. by apply list_elem_of_singleton.
    + rewrite lookup_insert_ne in Hnm by done. left. by apply Hdom.
Qed.

(** X14. On names that are pairwise distinct [form] returns, and the
    mapping it builds is the inverse of the name vector: a name is mapped
    to an index exactly when that index holds the name. *)
Theorem HighsNameHash_form_NoDup (kHashIsDuplicate : Z)
    (name : list string) (this : HighsNameHash) :
  NoDup name →
  ∃ h,
    HighsNameHash_form kHashIsDuplicate name this = Done h ∧
    ∀ nm (i : nat),
      name2index h !! nm = Some (Z.of_nat i) ↔ name !! i = Some nm.
Proof.
  intros Hnd.
  destruct (form_loop_NoDup kHashIsDuplicate name (length name) 0 ∅)
    as [h Hh]; [done|done|..].
  { intros nm [? Hnm]. by rewrite lookup_empty in Hnm. }
  assert (HighsNameHash_form kHashIsDuplicate name this = Done h) as Hform.
  { unfold HighsNameHash_form, for_range, vsize.
    by rewrite Z.sub_0_r, Nat2Z.id. }
  exists h. split; [done|].
  pose proof (HighsNameHash_form_Done_spec _ _ _ _ Hform) as Hspec.
  intros nm i. destruct (Hspec nm) as (Hnone & Huniq & _). split.
  - intros Hlook.
    destruct (decide (nm ∈ name)) as [Hin|Hnin].
    2:{ rewrite Hnone in Hlook; done. }
    apply list_elem_of_lookup in Hin as [i' Hi'].
    rewrite (Huniq i' Hi') in Hlook.
    + injection Hlook as Heq. by replace i with i' by lia.
    + intros i'' Hi''. by eapply NoDup_lookup.
  - intros Hi. apply Huniq; [done|].
    intros i' Hi'. by eapply NoDup_lookup.
Qed.

Lemma HighsNameHash_form_NoDup_witness :
  ∃ h,
    HighsNameHash_form (-1) Sample.names_distinct Sample.hash0 = Done h ∧
    ∀ nm (i : nat),
      name2index h !! nm = Some (Z.of_nat i) ↔
      Sample.names_distinct !! i = Some nm.
Proof.
  apply (HighsNameHash_form_NoDup (-1) Sample.names_distinct Sample.hash0).
  apply (bool_decide_unpack _). by vm_compute.
Defined.

(** X15. Whenever [form] returns, the keys of the mapping are exactly the
    names of the vector; a name at exactly one index is mapped to that
    index, and a name at two or more indices is mapped to the sentinel. *)
Theorem HighsNameHash_form_returns (kHashIsDuplicate : Z)
    (name : list string) (this h : HighsNameHash) :
  HighsNameHash_form kHashIsDuplicate name this = Done h →
  (∀ nm, is_Some (name2index h !! nm) ↔ nm ∈ name) ∧
  (∀ nm i, name !! i = Some nm →
     (∀ j, name !! j = Some nm → j = i) →
     name2index h !! nm = Some (Z.of_nat i)) ∧
  (∀ nm i j, i ≠ j → name !! i = Some nm → name !! j = Some nm →
     name2index h !! nm = Some kHashIsDuplicate).
Proof.
  intros Hform.
  pose proof (HighsNameHash_form_Done_spec _ _ _ _ Hform) as Hspec.
  split_and!.
  - intros nm. split.
    + intros [w Hw]. destruct (decide (nm ∈ name)) as [|Hnin]; [done|].
      destruct (Hspec nm) as (Hnone & _). rewrite Hnone in Hw; done.
    + by eapply form_spec_is_Some.
  - intros nm. by destruct (Hspec nm) as (_ & Hu & _).
  - intros nm. by destruct (Hspec nm) as (_ & _ & Hd).
Qed.

Lemma HighsNameHash_form_returns_witness :
  ∃ h,
    HighsNameHash_form (-1) Sample.names_repeated Sample.hash0 = Done h ∧
    (∀ nm, is_Some (name2index h !! nm) ↔ nm ∈ Sample.names_repeated) ∧
    name2index h !! "x2" = Some 1 ∧
    name2index h !! "x1" = Some (-1).
Proof.
  eexists. split; [by vm_compute|].
  destruct (HighsNameHash_form_returns (-1) Sample.names_repeated
              Sample.hash0 _ ltac:(by vm_compute)) as (Hkeys & Hu & Hd).
  split; [exact Hkeys|]. split.
  - apply (Hu "x2" 1%nat); [done|]. by intros [|[|[|j]]].
  - by apply (Hd "x1" 0%nat 2%nat).
Defined.

(** The flag [hasDuplicate] returns. *)
Lemma hasDuplicate_decides (name : list string) (this : HighsNameHash) :
  HighsNameHash_hasDuplicate name this
  = Done (bool_decide (¬ NoDup name), mkHighsNameHash ∅).
Proof.
  unfold HighsNameHash_hasDuplicate, until_range, HighsNameHash_clear, vsize.
  rewrite Z.sub_0_r, Nat2Z.id.
  destruct (hasDuplicate_loop name (length name) 0 ∅) as [m' Hloop].
  { done. }
  { simpl. apply NoDup_nil_2. }
  { intros k. simpl. rewrite lookup_empty, elem_of_nil.
    split; [by intros [? ?]|done]. }
  change (Z.of_nat 0) with 0 in Hloop. cbv zeta in Hloop.
  rewrite Hloop. clear Hloop.
  destruct (decide (NoDup name)) as [Hnd|Hnd]; simpl.
  - by rewrite bool_decide_eq_false_2 by tauto.
  - by rewrite bool_decide_eq_true_2.
Qed.

(** X16. [form] and [hasDuplicate] agree: when the sentinel is not an
    index of the name vector and [form] returns, some name is mapped to
    the sentinel exactly when [hasDuplicate] returns true on the same
    names. *)
Theorem form_hasDuplicate_agree (kHashIsDuplicate : Z)
    (name : list string) (this this' h : HighsNameHash) :
  ¬ (0 ≤ kHashIsDuplicate < vsize name) →
  HighsNameHash_form kHashIsDuplicate name this = Done h →
  (∃ nm, name2index h !! nm = Some kHashIsDuplicate) ↔
  HighsNameHash_hasDuplicate name this'
    = Done (true, mkHighsNameHash ∅).
Proof.
  intros Hk Hform. rewrite hasDuplicate_decides.
  pose proof (HighsNameHash_form_Done_spec _ _ _ _ Hform) as Hspec.
  split.
  - intros [nm Hnm]. rewrite bool_decide_eq_true_2; [done|].
    intros Hnd. destruct (Hspec nm) as (Hnone & Hu & _).
    destruct (decide (nm ∈ name)) as [Hin|Hnin].
    2:{ rewrite Hnone in Hnm; done. }
    apply list_elem_of_lookup in Hin as [i Hi].
    rewrite (Hu i Hi) in Hnm.
    + injection Hnm as Heq. apply lookup_lt_Some in Hi.
      unfold vsize in Hk. lia.
    + intros j Hj. by eapply NoDup_lookup.
  - intros [= Hb]. apply bool_decide_eq_true in Hb.
    destruct (not_NoDup_repeated _ Hb) as (i & j & nm & Hij & Hi & Hj).
    exists nm. destruct (Hspec nm) as (_ & _ & Hd). by apply (Hd i j).
Qed.

Lemma form_hasDuplicate_agree_witness :
  ∃ h,
    HighsNameHash_form (-1) Sample.names_repeated Sample.hash0 = Done h ∧
    ((∃ nm, name2index h !! nm = Some (-1)) ↔
     HighsNameHash_hasDuplicate Sample.names_repeated Sample.hash0
       = Done (true, mkHighsNameHash ∅)).
Proof.
  eexists. split; [by vm_compute|].
  apply (form_hasDuplicate_agree (-1) Sample.names_repeated Sample.hash0).
  - unfold vsize. simpl. lia.
  - by vm_compute.
Defined.

(** ** addColNames: a batch without collision, and what every batch keeps *)

Lemma until_steps_chain {S R} (body : Z → S → outcome (flow S R))
    (st : nat → S) (z : Z) (n : nat) :
  (∀ d, (d < n)%nat →
     body (z + Z.of_nat d) (st d) = Done (Next (st (Datatypes.S d)))) →
  until_steps n z body (st 0%nat) = Done (Next (st n)).
Proof.
  intros Hstep.
  assert (∀ m i, (i + m = n)%nat →
            until_steps m (z + Z.of_nat i) body (st i)
            = Done (Next (st n))) as H.
  { induction m as [|m IH]; intros i Hi.
    - simpl. by replace i with n by lia.
    - simpl. rewrite Hstep by lia. simpl.
      replace (z + Z.of_nat i + 1) with (z + Z.of_nat (Datatypes.S i)) by lia.
      apply IH. lia. }
  specialize (H n 0%nat). rewrite Z.add_0_r in H. by apply H.
Qed.

Lemma synthesized_S prefix c n :
  synthesized prefix c (Datatypes.S n)
  = synthesized prefix c n ++ [prefix +:+ pretty (c + Z.of_nat n)].
Proof. unfold synthesized. by rewrite seq_S, fmap_app. Qed.

Lemma length_synthesized prefix c n : length (synthesized prefix c n) = n.
Proof. unfold synthesized. by rewrite length_fmap, length_seq. Qed.

Lemma hash_with_S prefix c z n m :
  hash_with prefix c z (Datatypes.S n) m
  = <[prefix +:+ pretty (c + Z.of_nat n) := z + Z.of_nat n]>
      (hash_with prefix c z n m).
Proof. unfold hash_with. by rewrite seq_S, foldl_snoc. Qed.

Lemma synthesized_name_inj (prefix : string) (a b : Z) :
  prefix +:+ pretty a = prefix +:+ pretty b → a = b.
Proof.
  induction prefix as [|ch prefix IH]; simpl.
  - apply pretty_Z_inj.
  - intros [= H]. by apply IH.
Qed.

(** The entries of the hash after [n] names have been entered. *)
Lemma hash_with_lookup_new prefix c z n m (d : nat) :
  (d < n)%nat →
  hash_with prefix c z n m !! (prefix +:+ pretty (c + Z.of_nat d))
  = Some (z + Z.of_nat d).
Proof.
  induction n as [|n IH]; intros Hd; [lia|].
  rewrite hash_with_S.
  destruct (decide (d = n)) as [->|Hne].
  - apply lookup_insert_eq.
  - rewrite lookup_insert_ne; [apply IH; lia|].
    intros Heq%synthesized_name_inj. lia.
Qed.

Lemma hash_with_lookup_old prefix c z n m (nm : string) :
  nm ∉ synthesized prefix c n →
  hash_with prefix c z n m !! nm = m !! nm.
Proof.
  induction n as [|n IH]; intros Hnm; [done|].
  rewrite synthesized_S in Hnm. rewrite hash_with_S.
  apply not_elem_of_app in Hnm as [Hold Hlast].
  rewrite lookup_insert_ne; [by apply IH|].
  intros <-. apply Hlast. by apply list_elem_of_singleton.
Qed.

Lemma named_cols_0 lp0 : named_cols lp0 0 = lp0.
Proof.
  unfold named_cols, synthesized, hash_with. simpl.
  rewrite app_nil_r, Z.add_0_r. by destruct lp0 as [? ? ? ? ? ? ? ? ? ? ? ? ? ? ? ? ? [?] ? ? ? ? ? ?].
Qed.

(** One iteration that finds no collision appends the synthesized
    name. *)
Lemma addColNames_body_appends (lp0 : HighsLp) (d : nat) :
  vsize (col_names_ lp0) = num_col_ lp0 →
  name2index (col_hash_ lp0)
    !! ("col_ekk_" +:+ pretty (new_col_name_ix_ lp0 + Z.of_nat d)) = None →
  addColNames_body (vsize (col_names_ lp0)) (num_col_ lp0 + Z.of_nat d)
    (named_cols lp0 d)
  = Done (Next (named_cols lp0 (Datatypes.S d))).
Proof.
  intros Hsize Hfree.
  set (nm := "col_ekk_" +:+ pretty (new_col_name_ix_ lp0 + Z.of_nat d)).
  assert (hash_with "col_ekk_" (new_col_name_ix_ lp0) (num_col_ lp0) d
            (name2index (col_hash_ lp0)) !! nm = None) as Hnone.
  { rewrite hash_with_lookup_old; [done|].
    unfold synthesized. intros Hin.
    apply list_elem_of_fmap in Hin as (e & Heq & He).
    apply synthesized_name_inj in Heq.
    apply elem_of_seq in He. lia. }
  unfold named_cols at 2.
  rewrite synthesized_S, hash_with_S. fold nm.
  replace (new_col_name_ix_ lp0 + Z.of_nat (Datatypes.S d))
    with (new_col_name_ix_ lp0 + Z.of_nat d + 1) by lia.
  assert ((col_names_ lp0 ++ synthesized "col_ekk_" (new_col_name_ix_ lp0) d
             ++ [nm]) !! Z.to_nat (num_col_ lp0 + Z.of_nat d) = Some nm)
    as Hlast.
  { rewrite app_assoc. apply list_lookup_middle.
    rewrite length_app, length_synthesized. unfold vsize in Hsize. lia. }
  assert (0 ≤ num_col_ lp0 + Z.of_nat d) as Hnn
    by (unfold vsize in Hsize; lia).
  unfold addColNames_body, named_cols.
  destruct lp0 as [nc nr cc cl cu rl ru mx sn off mn on cix rix cn rn ty
                   [ch] rh sc isc imv crl md].
  simpl in *. fold nm. rewrite Hnone.
  rewrite decide_True by done. simpl.
  unfold emplace. rewrite Hnone. simpl.
  rewrite <- app_assoc.
  rewrite (at_Done_Z _ _ _ Hnn Hlast). simpl.
  rewrite bool_decide_eq_true_2 by done. simpl.
  rewrite lookup_insert_eq. simpl.
  by rewrite bool_decide_eq_true_2 by done.
Qed.

(** X17. When the loop of [addColNames] is entered with the names vector
    exactly as long as the column count, none of the names the batch
    synthesizes is in the hash, and the counter advanced by the size of
    the batch and the column count raised by it are in the range of
    [HighsInt], the call returns with these names appended in order, the
    counter advanced by the size of the batch and still in range, every
    new name entered in the hash under its index and the entries of all
    other names as they were. *)
Theorem addColNames_appends
    (kHashIsDuplicate : Z) (name : string) (num_new_col : Z)
    (lp lp0 : HighsLp) :
  addColNames_entry kHashIsDuplicate name lp = Done (Next lp0) →
  vsize (col_names_ lp) = num_col_ lp →
  col_batch_in_range num_new_col (Z.max 0 num_new_col) lp →
  (∀ d : nat, Z.of_nat d < num_new_col →
     name2index (col_hash_ lp0)
       !! ("col_ekk_" +:+ pretty (new_col_name_ix_ lp + Z.of_nat d)) = None) →
  ∃ lp',
    addColNames kHashIsDuplicate name num_new_col lp = Done lp' ∧
    col_names_ lp'
      = col_names_ lp
        ++ synthesized "col_ekk_" (new_col_name_ix_ lp)
             (Z.to_nat num_new_col) ∧
    new_col_name_ix_ lp'
      = new_col_name_ix_ lp + Z.of_nat (Z.to_nat num_new_col) ∧
    HighsInt_range (new_col_name_ix_ lp') ∧
    (∀ d : nat, Z.of_nat d < num_new_col →
       name2index (col_hash_ lp')
         !! ("col_ekk_" +:+ pretty (new_col_name_ix_ lp + Z.of_nat d))
       = Some (num_col_ lp + Z.of_nat d)) ∧
    (∀ nm,
       nm ∉ synthesized "col_ekk_" (new_col_name_ix_ lp)
              (Z.to_nat num_new_col) →
       name2index (col_hash_ lp') !! nm
       = name2index (col_hash_ lp0) !! nm).
Proof.
  intros Hentry Hsize (_ & _ & _ & Hlo & Hhi) Hfree.
  destruct (addColNames_entry_Next _ _ _ _ Hentry)
    as (_ & _ & _ & Hnc & Hcn & Hix).
  exists (named_cols lp0 (Z.to_nat num_new_col)).
  split.
  - unfold addColNames. rewrite Hentry. simpl. unfold until_range.
    replace (num_col_ lp0 + num_new_col - num_col_ lp0)
      with num_new_col by lia.
    rewrite <- (named_cols_0 lp0) at 2.
    rewrite <- Hcn.
    rewrite (until_steps_chain _ (named_cols lp0)); [done|].
    intros d Hd. apply addColNames_body_appends.
    + by rewrite Hcn, Hnc.
    + rewrite Hix. apply Hfree. lia.
  - unfold named_cols. rewrite <- Hcn, <- Hix, <- Hnc.
    rewrite <- Hix in Hlo, Hhi.
    destruct lp0 as [? ? ? ? ? ? ? ? ? ? ? ? ? ? ? ? ? [?] ? ? ? ? ? ?].
    simpl in *. split_and!; [done|done| | |].
    + unfold HighsInt_range in *. lia.
    + intros d Hd. apply hash_with_lookup_new. lia.
    + intros nm Hnm. by apply hash_with_lookup_old.
Qed.

Lemma addColNames_appends_witness :
  ∃ lp',
    addColNames (-1) "" 2 Sample.named_ab = Done lp' ∧
    col_names_ lp' = ["a"; "b"; "col_ekk_0"; "col_ekk_1"] ∧
    new_col_name_ix_ lp' = 2 ∧
    name2index (col_hash_ lp') !! "col_ekk_1" = Some 3.
Proof.
  destruct (addColNames_appends (-1) "" 2 Sample.named_ab
              (with_col_hash_
                 (mkHighsNameHash (<["a" := 0]> {["b" := 1]}))
                 Sample.named_ab))
    as (lp' & H & Hnames & Hix & _ & Hnew & _).
  - by vm_compute.
  - reflexivity.
  - unfold col_batch_in_range, HighsInt_range. simpl. lia.
  - intros [|[|d]] Hd; [by vm_compute..|lia].
  - exists lp'. split_and!; [done|done|done|].
    apply (Hnew 1%nat). lia.
Defined.

(** ** addColNames: what every call keeps *)

Lemma until_steps_preserves {S} (P : S → Prop)
    (body : Z → S → outcome (flow S S)) (lo : Z) :
  (∀ i s r, lo ≤ i → body i s = Done r → P s → P (flow_state r)) →
  ∀ (n : nat) i s r,
    lo ≤ i → until_steps n i body s = Done r → P s → P (flow_state r).
Proof.
  intros Hbody. induction n as [|n IH]; intros i s r Hi H Hs.
  - injection H as <-. done.
  - simpl in H. destruct (body i s) as [[s1|s1]|] eqn:E; simpl in H.
    + apply (IH (i + 1) s1); [lia|done|]. by apply (Hbody i s (Next s1)).
    + injection H as <-. by apply (Hbody i s (Leave s1)).
    + done.
Qed.

Lemma reset_col_naming_with_col_hash_ lp0 v lp :
  reset_col_naming lp0 (with_col_hash_ v lp) = reset_col_naming lp0 lp.
Proof. by destruct lp. Qed.
Lemma reset_col_naming_with_col_names_ lp0 v lp :
  reset_col_naming lp0 (with_col_names_ v lp) = reset_col_naming lp0 lp.
Proof. by destruct lp. Qed.
Lemma reset_col_naming_with_new_col_name_ix_ lp0 v lp :
  reset_col_naming lp0 (with_new_col_name_ix_ v lp) = reset_col_naming lp0 lp.
Proof. by destruct lp. Qed.

Lemma col_naming_inv_refl lp : col_naming_inv lp lp.
Proof. split_and!; [by destruct lp|done|done|done]. Qed.

Lemma col_naming_inv_hash lp0 lp h :
  col_naming_inv lp0 lp → col_naming_inv lp0 (with_col_hash_ h lp).
Proof.
  intros (Hr & Hrest). split.
  - by rewrite reset_col_naming_with_col_hash_.
  - clear Hr. by destruct lp.
Qed.

Lemma col_naming_inv_ix lp0 lp :
  col_naming_inv lp0 lp →
  col_naming_inv lp0 (with_new_col_name_ix_ (new_col_name_ix_ lp + 1) lp).
Proof.
  intros (Hr & Hlen & Hix & Hj). split.
  - by rewrite reset_col_naming_with_new_col_name_ix_.
  - clear Hr. destruct lp; simpl in *. split_and!; [done|lia|done].
Qed.

Lemma col_naming_inv_names lp0 lp v :
  (length (col_names_ lp) ≤ length v)%nat →
  (∀ j : nat, Z.of_nat j < num_col_ lp0 → v !! j = col_names_ lp !! j) →
  col_naming_inv lp0 lp → col_naming_inv lp0 (with_col_names_ v lp).
Proof.
  intros Hlen' Hj' (Hr & Hlen & Hix & Hj). split.
  - by rewrite reset_col_naming_with_col_names_.
  - clear Hr. destruct lp; simpl in *. split_and!; [lia|done|].
    intros j Hlt. rewrite Hj' by done. by apply Hj.
Qed.

(** One iteration, from a column index that is not one of the model's
    own. *)
Lemma addColNames_body_frame (lp0 : HighsLp) (size i : Z) (lp : HighsLp)
    (r : flow HighsLp HighsLp) :
  num_col_ lp0 ≤ vsize (col_names_ lp0) → num_col_ lp0 ≤ i →
  addColNames_body size i lp = Done r →
  col_naming_inv lp0 lp → col_naming_inv lp0 (flow_state r).
Proof.
  intros Hsz Hi H Hinv.
  apply col_naming_inv_ix in Hinv.
  unfold addColNames_body in H. cbv zeta in H.
  set (lp1 := with_new_col_name_ix_ _ lp) in *.
  set (nm := String.append _ _) in *. clearbody lp1 nm.
  bind_named H E p. destruct p as [lp2 added].
  assert (col_naming_inv lp0 lp2) as Hinv2.
  { destruct Hinv as (Hr & Hlen & Hix & Hj).
    assert (col_naming_inv lp0 lp1) as Hinv by done.
    unfold mret, outcome_ret in E.
    destruct (name2index (col_hash_ lp1) !! nm); [by injection E as <- <-|].
    case_decide.
    { injection E as <- <-. apply col_naming_inv_names; [| |done].
      - rewrite length_app. lia.
      - intros j Hlt. apply lookup_app_l. unfold vsize in Hsz. lia. }
    case_decide; [|by injection E as <- <-].
    bind_named E E1 cur.
    case_decide; [|by injection E as <- <-].
    bind_named E E2 v. injection E as <- <-.
    apply col_naming_inv_names; [| |done].
    - by destruct (set_at_other _ _ _ _ 0%nat E2) as [-> _].
    - intros j Hlt. destruct (set_at_other _ _ _ _ j E2) as [_ Hother].
      apply Hother. lia. }
  clear E. destruct added.
  - destruct (emplace _ _ _) as [m ins]. bind_all H. simpl.
    by apply col_naming_inv_hash.
  - injection H as <-. simpl. by apply col_naming_inv_hash.
Qed.

Lemma until_steps_counts {S} (ctr : S → Z)
    (body : Z → S → outcome (flow S S)) :
  (∀ i s r, body i s = Done r → ctr (flow_state r) = ctr s + 1) →
  ∀ (n : nat) i s r,
    until_steps n i body s = Done r →
    ctr s ≤ ctr (flow_state r) ≤ ctr s + Z.of_nat n.
Proof.
  intros Hbody. induction n as [|n IH]; intros i s r H.
  - injection H as <-. simpl. lia.
  - simpl in H. destruct (body i s) as [[s1|s1]|] eqn:E; simpl in H.
    + apply Hbody in E. simpl in E. apply IH in H. lia.
    + injection H as <-. apply Hbody in E. simpl in *. lia.
    + done.
Qed.

Lemma new_col_name_ix_with_col_hash_ v lp :
  new_col_name_ix_ (with_col_hash_ v lp) = new_col_name_ix_ lp.
Proof. by destruct lp. Qed.
Lemma new_col_name_ix_with_col_names_ v lp :
  new_col_name_ix_ (with_col_names_ v lp) = new_col_name_ix_ lp.
Proof. by destruct lp. Qed.
Lemma new_col_name_ix_with_new_col_name_ix_ v lp :
  new_col_name_ix_ (with_new_col_name_ix_ v lp) = v.
Proof. by destruct lp. Qed.

(** Every iteration increments the counter, whichever branch it takes. *)
Lemma addColNames_body_counter (size i : Z) (lp : HighsLp)
    (r : flow HighsLp HighsLp) :
  addColNames_body size i lp = Done r →
  new_col_name_ix_ (flow_state r) = new_col_name_ix_ lp + 1.
Proof.
  intros H. unfold addColNames_body in H. cbv zeta in H.
  rewrite <- (new_col_name_ix_with_new_col_name_ix_
                (new_col_name_ix_ lp + 1) lp).
  set (lp1 := with_new_col_name_ix_ _ lp) in *.
  set (nm := String.append _ _) in *. clearbody lp1 nm.
  bind_named H E p. destruct p as [lp2 added].
  assert (new_col_name_ix_ lp2 = new_col_name_ix_ lp1) as Hsame.
  { unfold mret, outcome_ret in E.
    destruct (name2index (col_hash_ lp1) !! nm); [by injection E as <- <-|].
    case_decide.
    { injection E as <- <-. apply new_col_name_ix_with_col_names_. }
    case_decide; [|by injection E as <- <-].
    bind_named E E1 cur.
    case_decide; [|by injection E as <- <-].
    bind_named E E2 v. injection E as <- <-.
    apply new_col_name_ix_with_col_names_. }
  clear E. rewrite <- Hsame. destruct added.
  - destruct (emplace _ _ _) as [m ins]. bind_all H. simpl.
    apply new_col_name_ix_with_col_hash_.
  - injection H as <-. simpl. apply new_col_name_ix_with_col_hash_.
Qed.

(** X18. Whenever [addColNames] returns, it has assigned nothing but the
    column names, the column hash and the column-name counter; the names
    of the columns the model already had are as they were, the names
    vector is not shorter than before and the counter is not smaller. The
    counter has advanced by at most the size of the batch, so that it is
    still in the range of [HighsInt] when the counter advanced by the size
    of the batch is. *)
Theorem addColNames_frame
    (kHashIsDuplicate : Z) (name : string) (num_new_col : Z)
    (lp lp' : HighsLp) :
  col_batch_in_range num_new_col (Z.max 0 num_new_col) lp →
  addColNames kHashIsDuplicate name num_new_col lp = Done lp' →
  col_naming_inv lp lp' ∧
  new_col_name_ix_ lp' ≤ new_col_name_ix_ lp + Z.max 0 num_new_col ∧
  HighsInt_range (new_col_name_ix_ lp').
Proof.
  intros (_ & _ & _ & Hlo & Hhi) H.
  assert (col_naming_inv lp lp' ∧
          new_col_name_ix_ lp' ≤ new_col_name_ix_ lp + Z.max 0 num_new_col)
    as [Hinv Hle];
    [|split_and!; [done|done|];
      destruct Hinv as (_ & _ & Hge & _);
      unfold HighsInt_range in *; lia].
  revert H. unfold addColNames. intros H.
  bind_named H Hentry e. destruct e as [lp0|lp0].
  - destruct (addColNames_entry_Next _ _ _ _ Hentry)
      as (_ & Hsz & _ & Hnc & Hcn & Hix).
    assert (col_naming_inv lp lp0) as Hinv0.
    { unfold addColNames_entry in Hentry.
      do 2 (case_decide; [done|]).
      bind_named Hentry E lp1. bind_all Hentry.
      case_decide.
      - bind_named E Ef h. injection E as <-.
        apply col_naming_inv_hash, col_naming_inv_refl.
      - injection E as <-. apply col_naming_inv_refl. }
    bind_named H Hloop r.
    assert (col_naming_inv lp (flow_state r)) as Hr.
    { unfold until_range in Hloop.
      assert (num_col_ lp ≤ num_col_ lp0) as Hle by lia.
      refine (until_steps_preserves (col_naming_inv lp) _ (num_col_ lp)
                _ _ _ _ _ Hle Hloop Hinv0).
      intros i s r' Hi Hbody Hs. by eapply addColNames_body_frame. }
    assert (new_col_name_ix_ (flow_state r)
            ≤ new_col_name_ix_ lp + Z.max 0 num_new_col) as Hc.
    { unfold until_range in Hloop.
      apply (until_steps_counts new_col_name_ix_) in Hloop;
        [lia|apply addColNames_body_counter]. }
    destruct r; by injection H as <-.
  - unfold addColNames_entry in Hentry.
    assert (lp0 = lp) as ->;
      [|injection H as <-; split; [apply col_naming_inv_refl|lia]].
    case_decide; [by injection Hentry|].
    case_decide; [by injection Hentry|].
    bind_named Hentry E lp1. bind_named Hentry E1 u. done.
Qed.

Lemma addColNames_frame_witness :
  ∃ lp',
    addColNames (-1) "" 3 Sample.named2 = Done lp' ∧
    col_naming_inv Sample.named2 lp' ∧
    new_col_name_ix_ lp' ≤ 3 ∧
    HighsInt_range (new_col_name_ix_ lp').
Proof.
  eexists. split; [by vm_compute|].
  apply (addColNames_frame (-1) "" 3).
  - unfold col_batch_in_range, HighsInt_range. simpl. lia.
  - by vm_compute.
Defined.

(** ** addColNames: a batch that stops at a name already in the hash *)

Lemma until_steps_chain_leave {S R} (body : Z → S → outcome (flow S R))
    (st : nat → S) (z : Z) (n k : nat) (r : R) :
  (k < n)%nat →
  (∀ d, (d < k)%nat →
     body (z + Z.of_nat d) (st d) = Done (Next (st (Datatypes.S d)))) →
  body (z + Z.of_nat k) (st k) = Done (Leave r) →
  until_steps n z body (st 0%nat) = Done (Leave r).
Proof.
  intros Hk Hstep Hlast.
  assert (∀ m i, (i ≤ k)%nat → (i + m = n)%nat →
            until_steps m (z + Z.of_nat i) body (st i)
            = Done (Leave r)) as H.
  { induction m as [|m IH]; intros i Hi Hn; [lia|].
    simpl. destruct (decide (i = k)) as [->|Hne].
    - by rewrite Hlast.
    - rewrite Hstep by lia. simpl.
      replace (z + Z.of_nat i + 1) with (z + Z.of_nat (Datatypes.S i)) by lia.
      apply IH; lia. }
  specialize (H n 0%nat). rewrite Z.add_0_r in H. apply H; lia.
Qed.

Lemma synthesized_fresh prefix c n :
  prefix +:+ pretty (c + Z.of_nat n) ∉ synthesized prefix c n.
Proof.
  unfold synthesized. intros Hin.
  apply list_elem_of_fmap in Hin as (e & Heq & He).
  apply synthesized_name_inj in Heq.
  apply elem_of_seq in He. lia.
Qed.

(** An iteration whose synthesized name is in the hash takes the failure
    branch. *)
Lemma addColNames_body_taken (size iCol : Z) (lp : HighsLp) :
  is_Some (name2index (col_hash_ lp)
             !! ("col_ekk_" +:+ pretty (new_col_name_ix_ lp))) →
  addColNames_body size iCol lp
  = Done (Leave (with_col_hash_ (mkHighsNameHash ∅)
                   (with_new_col_name_ix_ (new_col_name_ix_ lp + 1) lp))).
Proof.
  intros [w Hw]. unfold addColNames_body.
  destruct lp as [nc nr cc cl cu rl ru mx sn off mn on cix rix cn rn ty
                  [ch] rh sc isc imv crl md].
  simpl in *. by rewrite Hw.
Qed.

(** X19. When the loop of [addColNames] is entered with the names vector
    exactly as long as the column count, the first [n] names of the batch
    are not in the hash and the next one is, and the counter advanced
    [n + 1] times and the column count raised by the batch are in the
    range of [HighsInt], the call returns with the [n] names appended, the
    counter advanced past the name that was found and still in range, and
    the hash empty: the names added before the collision stay. *)
Theorem addColNames_partial_batch
    (kHashIsDuplicate : Z) (name : string) (num_new_col : Z)
    (lp lp0 : HighsLp) (n : nat) :
  addColNames_entry kHashIsDuplicate name lp = Done (Next lp0) →
  vsize (col_names_ lp) = num_col_ lp →
  Z.of_nat n < num_new_col →
  col_batch_in_range num_new_col (Z.of_nat n + 1) lp →
  (∀ d : nat, (d < n)%nat →
     name2index (col_hash_ lp0)
       !! ("col_ekk_" +:+ pretty (new_col_name_ix_ lp + Z.of_nat d)) = None) →
  is_Some (name2index (col_hash_ lp0)
             !! ("col_ekk_" +:+ pretty (new_col_name_ix_ lp + Z.of_nat n))) →
  ∃ lp',
    addColNames kHashIsDuplicate name num_new_col lp = Done lp' ∧
    col_names_ lp'
      = col_names_ lp ++ synthesized "col_ekk_" (new_col_name_ix_ lp) n ∧
    new_col_name_ix_ lp' = new_col_name_ix_ lp + Z.of_nat n + 1 ∧
    HighsInt_range (new_col_name_ix_ lp') ∧
    name2index (col_hash_ lp') = ∅.
Proof.
  intros Hentry Hsize Hn (_ & _ & _ & Hlo & Hhi) Hfree Htaken.
  destruct (addColNames_entry_Next _ _ _ _ Hentry)
    as (_ & _ & _ & Hnc & Hcn & Hix).
  set (lpn := named_cols lp0 n).
  exists (with_col_hash_ (mkHighsNameHash ∅)
            (with_new_col_name_ix_ (new_col_name_ix_ lpn + 1) lpn)).
  split.
  - unfold addColNames. rewrite Hentry. simpl. unfold until_range.
    replace (num_col_ lp0 + num_new_col - num_col_ lp0)
      with num_new_col by lia.
    rewrite <- (named_cols_0 lp0) at 2.
    rewrite <- Hcn.
    rewrite (until_steps_chain_leave _ (named_cols lp0) _ _ n
               (with_col_hash_ (mkHighsNameHash ∅)
                  (with_new_col_name_ix_ (new_col_name_ix_ lpn + 1) lpn)));
      [done|lia| |].
    + intros d Hd. apply addColNames_body_appends.
      * by rewrite Hcn, Hnc.
      * rewrite Hix. by apply Hfree.
    + apply addColNames_body_taken. unfold lpn, named_cols.
      rewrite <- Hix in Htaken.
      destruct lp0 as [? ? ? ? ? ? ? ? ? ? ? ? ? ? ? ? ? [?] ? ? ? ? ? ?].
      simpl in *. rewrite hash_with_lookup_old; [done|].
      apply synthesized_fresh.
  - unfold lpn, named_cols. rewrite <- Hcn, <- Hix.
    rewrite <- Hix in Hhi.
    destruct lp0 as [? ? ? ? ? ? ? ? ? ? ? ? ? ? ? ? ? [?] ? ? ? ? ? ?].
    simpl in *. split_and!; [done|done| |done].
    by rewrite <- Z.add_assoc.
Qed.

Lemma addColNames_partial_batch_witness :
  ∃ lp',
    addColNames (-1) "" 3 Sample.named2 = Done lp' ∧
    col_names_ lp' = ["a"; "col_ekk_1"; "col_ekk_0"] ∧
    new_col_name_ix_ lp' = 2 ∧
    HighsInt_range (new_col_name_ix_ lp') ∧
    name2index (col_hash_ lp') = ∅.
Proof.
  apply (addColNames_partial_batch (-1) "" 3 Sample.named2
           (with_col_hash_
              (mkHighsNameHash (<["a" := 0]> {["col_ekk_1" := 1]}))
              Sample.named2) 1).
  - by vm_compute.
  - reflexivity.
  - lia.
  - unfold col_batch_in_range, HighsInt_range. simpl. lia.
  - intros [|d] Hd; [by vm_compute|lia].
  - exists 1. by vm_compute.
Defined.

(** ** addRowNames: the same three properties for the rows *)

Lemma addRowNames_entry_Next kdup name lp lp0 :
  addRowNames_entry kdup name lp = Done (Next lp0) →
  num_row_ lp ≠ 0 ∧ num_row_ lp ≤ vsize (row_names_ lp) ∧ name = "" ∧
  num_row_ lp0 = num_row_ lp ∧ row_names_ lp0 = row_names_ lp ∧
  new_row_name_ix_ lp0 = new_row_name_ix_ lp.
Proof.
  unfold addRowNames_entry.
  case_decide as Hz; [done|]. case_decide as Hc; [done|].
  intros H.
  destruct (decide (size (name2index (row_hash_ lp)) = 0%nat)).
  - destruct (HighsNameHash_form _ _ _) as [h|]; simpl in H; [|done].
    unfold cpp_assert in H. case_bool_decide; simpl in H; [|done].
    injection H as <-. destruct lp. simpl in *. split_and!; done || lia.
  - simpl in H.
    unfold cpp_assert in H. case_bool_decide; simpl in H; [|done].
    injection H as <-. split_and!; done || lia.
Qed.

Lemma named_rows_0 lp0 : named_rows lp0 0 = lp0.
Proof.
  unfold named_rows, synthesized, hash_with. simpl.
  rewrite app_nil_r, Z.add_0_r. by destruct lp0 as [? ? ? ? ? ? ? ? ? ? ? ? ? ? ? ? ? ? [?] ? ? ? ? ?].
Qed.

(** One iteration that finds no collision appends the synthesized
    name. *)
Lemma addRowNames_body_appends (lp0 : HighsLp) (d : nat) :
  vsize (row_names_ lp0) = num_row_ lp0 →
  name2index (row_hash_ lp0)
    !! ("row_ekk_" +:+ pretty (new_row_name_ix_ lp0 + Z.of_nat d)) = None →
  addRowNames_body (vsize (row_names_ lp0)) (num_row_ lp0 + Z.of_nat d)
    (named_rows lp0 d)
  = Done (Next (named_rows lp0 (Datatypes.S d))).
Proof.
  intros Hsize Hfree.
  set (nm := "row_ekk_" +:+ pretty (new_row_name_ix_ lp0 + Z.of_nat d)).
  assert (hash_with "row_ekk_" (new_row_name_ix_ lp0) (num_row_ lp0) d
            (name2index (row_hash_ lp0)) !! nm = None) as Hnone.
  { rewrite hash_with_lookup_old; [done|].
    unfold synthesized. intros Hin.
    apply list_elem_of_fmap in Hin as (e & Heq & He).
    apply synthesized_name_inj in Heq.
    apply elem_of_seq in He. lia. }
  unfold named_rows at 2.
  rewrite synthesized_S, hash_with_S. fold nm.
  replace (new_row_name_ix_ lp0 + Z.of_nat (Datatypes.S d))
    with (new_row_name_ix_ lp0 + Z.of_nat d + 1) by lia.
  assert ((row_names_ lp0 ++ synthesized "row_ekk_" (new_row_name_ix_ lp0) d
             ++ [nm]) !! Z.to_nat (num_row_ lp0 + Z.of_nat d) = Some nm)
    as Hlast.
  { rewrite app_assoc. apply list_lookup_middle.
    rewrite length_app, length_synthesized. unfold vsize in Hsize. lia. }
  assert (0 ≤ num_row_ lp0 + Z.of_nat d) as Hnn
    by (unfold vsize in Hsize; lia).
  unfold addRowNames_body, named_rows.
  destruct lp0 as [nc nr cc cl cu rl ru mx sn off mn on cix rix cn rn ty
                   ch [rh] sc isc imv crl md].
  simpl in *. fold nm. rewrite Hnone.
  rewrite decide_True by done. simpl.
  unfold emplace. rewrite Hnone. simpl.
  rewrite <- app_assoc.
  rewrite (at_Done_Z _ _ _ Hnn Hlast). simpl.
  rewrite bool_decide_eq_true_2 by done. simpl.
  rewrite lookup_insert_eq. simpl.
  by rewrite bool_decide_eq_true_2 by done.
Qed.

(** X20. When the loop of [addRowNames] is entered with the names vector
    exactly as long as the row count, none of the names the batch
    synthesizes is in the hash, and the counter advanced by the size of
    the batch and the row count raised by it are in the range of
    [HighsInt], the call returns with these names appended in order, the
    counter advanced by the size of the batch and still in range, every
    new name entered in the hash under its index and the entries of all
    other names as they were. *)
Theorem addRowNames_appends
    (kHashIsDuplicate : Z) (name : string) (num_new_row : Z)
    (lp lp0 : HighsLp) :
  addRowNames_entry kHashIsDuplicate name lp = Done (Next lp0) →
  vsize (row_names_ lp) = num_row_ lp →
  row_batch_in_range num_new_row (Z.max 0 num_new_row) lp →
  (∀ d : nat, Z.of_nat d < num_new_row →
     name2index (row_hash_ lp0)
       !! ("row_ekk_" +:+ pretty (new_row_name_ix_ lp + Z.of_nat d)) = None) →
  ∃ lp',
    addRowNames kHashIsDuplicate name num_new_row lp = Done lp' ∧
    row_names_ lp'
      = row_names_ lp
        ++ synthesized "row_ekk_" (new_row_name_ix_ lp)
             (Z.to_nat num_new_row) ∧
    new_row_name_ix_ lp'
      = new_row_name_ix_ lp + Z.of_nat (Z.to_nat num_new_row) ∧
    HighsInt_range (new_row_name_ix_ lp') ∧
    (∀ d : nat, Z.of_nat d < num_new_row →
       name2index (row_hash_ lp')
         !! ("row_ekk_" +:+ pretty (new_row_name_ix_ lp + Z.of_nat d))
       = Some (num_row_ lp + Z.of_nat d)) ∧
    (∀ nm,
       nm ∉ synthesized "row_ekk_" (new_row_name_ix_ lp)
              (Z.to_nat num_new_row) →
       name2index (row_hash_ lp') !! nm
       = name2index (row_hash_ lp0) !! nm).
Proof.
  intros Hentry Hsize (_ & _ & _ & Hlo & Hhi) Hfree.
  destruct (addRowNames_entry_Next _ _ _ _ Hentry)
    as (_ & _ & _ & Hnc & Hcn & Hix).
  exists (named_rows lp0 (Z.to_nat num_new_row)).
  split.
  - unfold addRowNames. rewrite Hentry. simpl. unfold until_range.
    replace (num_row_ lp0 + num_new_row - num_row_ lp0)
      with num_new_row by lia.
    rewrite <- (named_rows_0 lp0) at 2.
    rewrite <- Hcn.
    rewrite (until_steps_chain _ (named_rows lp0)); [done|].
    intros d Hd. apply addRowNames_body_appends.
    + by rewrite Hcn, Hnc.
    + rewrite Hix. apply Hfree. lia.
  - unfold named_rows. rewrite <- Hcn, <- Hix, <- Hnc.
    rewrite <- Hix in Hlo, Hhi.
    destruct lp0 as [? ? ? ? ? ? ? ? ? ? ? ? ? ? ? ? ? ? [?] ? ? ? ? ?].
    simpl in *. split_and!; [done|done| | |].
    + unfold HighsInt_range in *. lia.
    + intros d Hd. apply hash_with_lookup_new. lia.
    + intros nm Hnm. by apply hash_with_lookup_old.
Qed.

Lemma addRowNames_appends_witness :
  ∃ lp',
    addRowNames (-1) "" 2 Sample.named_ab = Done lp' ∧
    row_names_ lp' = ["r"; "row_ekk_0"; "row_ekk_1"] ∧
    new_row_name_ix_ lp' = 2 ∧
    name2index (row_hash_ lp') !! "row_ekk_1" = Some 2.
Proof.
  destruct (addRowNames_appends (-1) "" 2 Sample.named_ab
              (with_row_hash_ (mkHighsNameHash {["r" := 0]})
                 Sample.named_ab))
    as (lp' & H & Hnames & Hix & _ & Hnew & _).
  - by vm_compute.
  - reflexivity.
  - unfold row_batch_in_range, HighsInt_range. simpl. lia.
  - intros [|[|d]] Hd; [by vm_compute..|lia].
  - exists lp'. split_and!; [done|done|done|].
    apply (Hnew 1%nat). lia.
Defined.

Lemma reset_row_naming_with_row_hash_ lp0 v lp :
  reset_row_naming lp0 (with_row_hash_ v lp) = reset_row_naming lp0 lp.
Proof. by destruct lp. Qed.

Lemma reset_row_naming_with_row_names_ lp0 v lp :
  reset_row_naming lp0 (with_row_names_ v lp) = reset_row_naming lp0 lp.
Proof. by destruct lp. Qed.

Lemma reset_row_naming_with_new_row_name_ix_ lp0 v lp :
  reset_row_naming lp0 (with_new_row_name_ix_ v lp) = reset_row_naming lp0 lp.
Proof. by destruct lp. Qed.

Lemma row_naming_inv_refl lp : row_naming_inv lp lp.
Proof. split_and!; [by destruct lp|done|done|done]. Qed.

Lemma row_naming_inv_hash lp0 lp h :
  row_naming_inv lp0 lp → row_naming_inv lp0 (with_row_hash_ h lp).
Proof.
  intros (Hr & Hrest). split.
  - by rewrite reset_row_naming_with_row_hash_.
  - clear Hr. by destruct lp.
Qed.

Lemma row_naming_inv_ix lp0 lp :
  row_naming_inv lp0 lp →
  row_naming_inv lp0 (with_new_row_name_ix_ (new_row_name_ix_ lp + 1) lp).
Proof.
  intros (Hr & Hlen & Hix & Hj). split.
  - by rewrite reset_row_naming_with_new_row_name_ix_.
  - clear Hr. destruct lp; simpl in *. split_and!; [done|lia|done].
Qed.

Lemma row_naming_inv_names lp0 lp v :
  (length (row_names_ lp) ≤ length v)%nat →
  (∀ j : nat, Z.of_nat j < num_row_ lp0 → v !! j = row_names_ lp !! j) →
  row_naming_inv lp0 lp → row_naming_inv lp0 (with_row_names_ v lp).
Proof.
  intros Hlen' Hj' (Hr & Hlen & Hix & Hj). split.
  - by rewrite reset_row_naming_with_row_names_.
  - clear Hr. destruct lp; simpl in *. split_and!; [lia|done|].
    intros j Hlt. rewrite Hj' by done. by apply Hj.
Qed.

(** One iteration, from a row index that is not one of the model's
    own. *)
Lemma addRowNames_body_frame (lp0 : HighsLp) (size i : Z) (lp : HighsLp)
    (r : flow HighsLp HighsLp) :
  num_row_ lp0 ≤ vsize (row_names_ lp0) → num_row_ lp0 ≤ i →
  addRowNames_body size i lp = Done r →
  row_naming_inv lp0 lp → row_naming_inv lp0 (flow_state r).
Proof.
  intros Hsz Hi H Hinv.
  apply row_naming_inv_ix in Hinv.
  unfold addRowNames_body in H. cbv zeta in H.
  set (lp1 := with_new_row_name_ix_ _ lp) in *.
  set (nm := String.append _ _) in *. clearbody lp1 nm.
  bind_named H E p. destruct p as [lp2 added].
  assert (row_naming_inv lp0 lp2) as Hinv2.
  { destruct Hinv as (Hr & Hlen & Hix & Hj).
    assert (row_naming_inv lp0 lp1) as Hinv by done.
    unfold mret, outcome_ret in E.
    destruct (name2index (row_hash_ lp1) !! nm); [by injection E as <- <-|].
    case_decide.
    { injection E as <- <-. apply row_naming_inv_names; [| |done].
      - rewrite length_app. lia.
      - intros j Hlt. apply lookup_app_l. unfold vsize in Hsz. lia. }
    case_decide; [|by injection E as <- <-].
    bind_named E E1 cur.
    case_decide; [|by injection E as <- <-].
    bind_named E E2 v. injection E as <- <-.
    apply row_naming_inv_names; [| |done].
    - by destruct (set_at_other _ _ _ _ 0%nat E2) as [-> _].
    - intros j Hlt. destruct (set_at_other _ _ _ _ j E2) as [_ Hother].
      apply Hother. lia. }
  clear E. destruct added.
  - destruct (emplace _ _ _) as [m ins]. bind_all H. simpl.
    by apply row_naming_inv_hash.
  - injection H as <-. simpl. by apply row_naming_inv_hash.
Qed.

Lemma new_row_name_ix_with_row_hash_ v lp :
  new_row_name_ix_ (with_row_hash_ v lp) = new_row_name_ix_ lp.
Proof. by destruct lp. Qed.

Lemma new_row_name_ix_with_row_names_ v lp :
  new_row_name_ix_ (with_row_names_ v lp) = new_row_name_ix_ lp.
Proof. by destruct lp. Qed.

Lemma new_row_name_ix_with_new_row_name_ix_ v lp :
  new_row_name_ix_ (with_new_row_name_ix_ v lp) = v.
Proof. by destruct lp. Qed.

(** Every iteration increments the counter, whichever branch it takes. *)
Lemma addRowNames_body_counter (size i : Z) (lp : HighsLp)
    (r : flow HighsLp HighsLp) :
  addRowNames_body size i lp = Done r →
  new_row_name_ix_ (flow_state r) = new_row_name_ix_ lp + 1.
Proof.
  intros H. unfold addRowNames_body in H. cbv zeta in H.
  rewrite <- (new_row_name_ix_with_new_row_name_ix_
                (new_row_name_ix_ lp + 1) lp).
  set (lp1 := with_new_row_name_ix_ _ lp) in *.
  set (nm := String.append _ _) in *. clearbody lp1 nm.
  bind_named H E p. destruct p as [lp2 added].
  assert (new_row_name_ix_ lp2 = new_row_name_ix_ lp1) as Hsame.
  { unfold mret, outcome_ret in E.
    destruct (name2index (row_hash_ lp1) !! nm); [by injection E as <- <-|].
    case_decide.
    { injection E as <- <-. apply new_row_name_ix_with_row_names_. }
    case_decide; [|by injection E as <- <-].
    bind_named E E1 cur.
    case_decide; [|by injection E as <- <-].
    bind_named E E2 v. injection E as <- <-.
    apply new_row_name_ix_with_row_names_. }
  clear E. rewrite <- Hsame. destruct added.
  - destruct (emplace _ _ _) as [m ins]. bind_all H. simpl.
    apply new_row_name_ix_with_row_hash_.
  - injection H as <-. simpl. apply new_row_name_ix_with_row_hash_.
Qed.

(** X21. Whenever [addRowNames] returns, it has assigned nothing but the
    row names, the row hash and the row-name counter; the names
    of the rows the model already had are as they were, the names
    vector is not shorter than before and the counter is not smaller. The
    counter has advanced by at most the size of the batch, so that it is
    still in the range of [HighsInt] when the counter advanced by the size
    of the batch is. *)
Theorem addRowNames_frame
    (kHashIsDuplicate : Z) (name : string) (num_new_row : Z)
    (lp lp' : HighsLp) :
  row_batch_in_range num_new_row (Z.max 0 num_new_row) lp →
  addRowNames kHashIsDuplicate name num_new_row lp = Done lp' →
  row_naming_inv lp lp' ∧
  new_row_name_ix_ lp' ≤ new_row_name_ix_ lp + Z.max 0 num_new_row ∧
  HighsInt_range (new_row_name_ix_ lp').
Proof.
  intros (_ & _ & _ & Hlo & Hhi) H.
  assert (row_naming_inv lp lp' ∧
          new_row_name_ix_ lp' ≤ new_row_name_ix_ lp + Z.max 0 num_new_row)
    as [Hinv Hle];
    [|split_and!; [done|done|];
      destruct Hinv as (_ & _ & Hge & _);
      unfold HighsInt_range in *; lia].
  revert H. unfold addRowNames. intros H.
  bind_named H Hentry e. destruct e as [lp0|lp0].
  - destruct (addRowNames_entry_Next _ _ _ _ Hentry)
      as (_ & Hsz & _ & Hnc & Hcn & Hix).
    assert (row_naming_inv lp lp0) as Hinv0.
    { unfold addRowNames_entry in Hentry.
      do 2 (case_decide; [done|]).
      bind_named Hentry E lp1. bind_all Hentry.
      case_decide.
      - bind_named E Ef h. injection E as <-.
        apply row_naming_inv_hash, row_naming_inv_refl.
      - injection E as <-. apply row_naming_inv_refl. }
    bind_named H Hloop r.
    assert (row_naming_inv lp (flow_state r)) as Hr.
    { unfold until_range in Hloop.
      assert (num_row_ lp ≤ num_row_ lp0) as Hle by lia.
      refine (until_steps_preserves (row_naming_inv lp) _ (num_row_ lp)
                _ _ _ _ _ Hle Hloop Hinv0).
      intros i s r' Hi Hbody Hs. by eapply addRowNames_body_frame. }
    assert (new_row_name_ix_ (flow_state r)
            ≤ new_row_name_ix_ lp + Z.max 0 num_new_row) as Hc.
    { unfold until_range in Hloop.
      apply (until_steps_counts new_row_name_ix_) in Hloop;
        [lia|apply addRowNames_body_counter]. }
    destruct r; by injection H as <-.
  - unfold addRowNames_entry in Hentry.
    assert (lp0 = lp) as ->;
      [|injection H as <-; split; [apply row_naming_inv_refl|lia]].
    case_decide; [by injection Hentry|].
    case_decide; [by injection Hentry|].
    bind_named Hentry E lp1. bind_named Hentry E1 u. done.
Qed.

Lemma addRowNames_frame_witness :
  ∃ lp',
    addRowNames (-1) "" 3 Sample.rows2 = Done lp' ∧
    row_naming_inv Sample.rows2 lp' ∧
    new_row_name_ix_ lp' ≤ 3 ∧
    HighsInt_range (new_row_name_ix_ lp').
Proof.
  eexists. split; [by vm_compute|].
  apply (addRowNames_frame (-1) "" 3).
  - unfold row_batch_in_range, HighsInt_range. simpl. lia.
  - by vm_compute.
Defined.

(** An iteration whose synthesized name is in the hash takes the failure
    branch. *)
Lemma addRowNames_body_taken (size iRow : Z) (lp : HighsLp) :
  is_Some (name2index (row_hash_ lp)
             !! ("row_ekk_" +:+ pretty (new_row_name_ix_ lp))) →
  addRowNames_body size iRow lp
  = Done (Leave (with_row_hash_ (mkHighsNameHash ∅)
                   (with_new_row_name_ix_ (new_row_name_ix_ lp + 1) lp))).
Proof.
  intros [w Hw]. unfold addRowNames_body.
  destruct lp as [nc nr cc cl cu rl ru mx sn off mn on cix rix cn rn ty
                  ch [rh] sc isc imv crl md].
  simpl in *. by rewrite Hw.
Qed.

(** X22. When the loop of [addRowNames] is entered with the names vector
    exactly as long as the row count, the first [n] names of the batch
    are not in the hash and the next one is, and the counter advanced
    [n + 1] times and the row count raised by the batch are in the
    range of [HighsInt], the call returns with the [n] names appended, the
    counter advanced past the name that was found and still in range, and
    the hash empty: the names added before the collision stay. *)
Theorem addRowNames_partial_batch
    (kHashIsDuplicate : Z) (name : string) (num_new_row : Z)
    (lp lp0 : HighsLp) (n : nat) :
  addRowNames_entry kHashIsDuplicate name lp = Done (Next lp0) →
  vsize (row_names_ lp) = num_row_ lp →
  Z.of_nat n < num_new_row →
  row_batch_in_range num_new_row (Z.of_nat n + 1) lp →
  (∀ d : nat, (d < n)%nat →
     name2index (row_hash_ lp0)
       !! ("row_ekk_" +:+ pretty (new_row_name_ix_ lp + Z.of_nat d)) = None) →
  is_Some (name2index (row_hash_ lp0)
             !! ("row_ekk_" +:+ pretty (new_row_name_ix_ lp + Z.of_nat n))) →
  ∃ lp',
    addRowNames kHashIsDuplicate name num_new_row lp = Done lp' ∧
    row_names_ lp'
      = row_names_ lp ++ synthesized "row_ekk_" (new_row_name_ix_ lp) n ∧
    new_row_name_ix_ lp' = new_row_name_ix_ lp + Z.of_nat n + 1 ∧
    HighsInt_range (new_row_name_ix_ lp') ∧
    name2index (row_hash_ lp') = ∅.
Proof.
  intros Hentry Hsize Hn (_ & _ & _ & Hlo & Hhi) Hfree Htaken.
  destruct (addRowNames_entry_Next _ _ _ _ Hentry)
    as (_ & _ & _ & Hnc & Hcn & Hix).
  set (lpn := named_rows lp0 n).
  exists (with_row_hash_ (mkHighsNameHash ∅)
            (with_new_row_name_ix_ (new_row_name_ix_ lpn + 1) lpn)).
  split.
  - unfold addRowNames. rewrite Hentry. simpl. unfold until_range.
    replace (num_row_ lp0 + num_new_row - num_row_ lp0)
      with num_new_row by lia.
    rewrite <- (named_rows_0 lp0) at 2.
    rewrite <- Hcn.
    rewrite (until_steps_chain_leave _ (named_rows lp0) _ _ n
               (with_row_hash_ (mkHighsNameHash ∅)
                  (with_new_row_name_ix_ (new_row_name_ix_ lpn + 1) lpn)));
      [done|lia| |].
    + intros d Hd. apply addRowNames_body_appends.
      * by rewrite Hcn, Hnc.
      * rewrite Hix. by apply Hfree.
    + apply addRowNames_body_taken. unfold lpn, named_rows.
      rewrite <- Hix in Htaken.
      destruct lp0 as [? ? ? ? ? ? ? ? ? ? ? ? ? ? ? ? ? ? [?] ? ? ? ? ?].
      simpl in *. rewrite hash_with_lookup_old; [done|].
      apply synthesized_fresh.
  - unfold lpn, named_rows. rewrite <- Hcn, <- Hix.
    rewrite <- Hix in Hhi.
    destruct lp0 as [? ? ? ? ? ? ? ? ? ? ? ? ? ? ? ? ? ? [?] ? ? ? ? ?].
    simpl in *. split_and!; [done|done| |done].
    by rewrite <- Z.add_assoc.
Qed.

Lemma addRowNames_partial_batch_witness :
  ∃ lp',
    addRowNames (-1) "" 3 Sample.rows2 = Done lp' ∧
    row_names_ lp' = ["r"; "row_ekk_1"; "row_ekk_0"] ∧
    new_row_name_ix_ lp' = 2 ∧
    HighsInt_range (new_row_name_ix_ lp') ∧
    name2index (row_hash_ lp') = ∅.
Proof.
  apply (addRowNames_partial_batch (-1) "" 3 Sample.rows2
           (with_row_hash_
              (mkHighsNameHash (<["r" := 0]> {["row_ekk_1" := 1]}))
              Sample.rows2) 1).
  - by vm_compute.
  - reflexivity.
  - lia.
  - unfold row_batch_in_range, HighsInt_range. simpl. lia.
  - intros [|d] Hd; [by vm_compute|lia].
  - exists 1. by vm_compute.
Defined.

(** ** clear *)

(** X23. The model [clear] leaves answers like an empty model: it is not
    a MIP, has no semi-variables, its journal is clear, and its objective
    value is zero whatever the solution vector. *)
Theorem clear_queries
    (kSimplexScaleStrategyOff : Z)
    (matrix_clear : HighsSparseMatrix.t → HighsSparseMatrix.t)
    (lp : HighsLp) :
  let cleared := clear kSimplexScaleStrategyOff matrix_clear lp in
  isMip cleared = Done false ∧
  hasSemiVariables cleared = Done false ∧
  HighsLpMods_isClear (mods_ cleared) = true ∧
  ∀ solution, objectiveValue solution cleared = Done 0%Qc.
Proof.
  simpl. split_and!; [done|done|done|].
  intros solution. unfold objectiveValue, clear, clearScale. simpl.
  rewrite bool_decide_eq_true_2 by (unfold vsize; lia). done.
Qed.

(** X24. On the model [clear] leaves, the operations that change a model
    find nothing to do: [applyScale], [unapplyScale], [clearScaling],
    [unapplyMods], [addColNames] and [addRowNames] return it as it is,
    and [exactResize] passes it on with only the matrix handed to the
    matrix's own resize. *)
Theorem clear_settled
    (kSimplexScaleStrategyOff kHashIsDuplicate : Z)
    (matrix_clear matrix_exactResize : HighsSparseMatrix.t → HighsSparseMatrix.t)
    (lp : HighsLp) :
  let cleared := clear kSimplexScaleStrategyOff matrix_clear lp in
  applyScale cleared = Done cleared ∧
  unapplyScale cleared = Done cleared ∧
  clearScaling kSimplexScaleStrategyOff cleared = Done cleared ∧
  unapplyMods cleared = Done cleared ∧
  (∀ name n, addColNames kHashIsDuplicate name n cleared = Done cleared) ∧
  (∀ name n, addRowNames kHashIsDuplicate name n cleared = Done cleared) ∧
  exactResize matrix_exactResize cleared
  = Done (with_a_matrix_ (matrix_exactResize (a_matrix_ cleared)) cleared).
Proof.
  simpl. split_and!; done.
Qed.

(** ** exactResize: when it returns, and applying it twice *)

(** X25. [exactResize] returns exactly when the column count and the row
    count are not negative; otherwise it stops with the length error of
    the first resize to a negative size. *)
Theorem exactResize_outcome
    (matrix_exactResize : HighsSparseMatrix.t → HighsSparseMatrix.t)
    (lp : HighsLp) :
  match exactResize matrix_exactResize lp with
  | Done _ => 0 ≤ num_col_ lp ∧ 0 ≤ num_row_ lp
  | Fault f => f = LengthError ∧ (num_col_ lp < 0 ∨ num_row_ lp < 0)
  end.
Proof.
  destruct lp. unfold exactResize, vresize. simpl.
  destruct (decide (0 ≤ num_col_0)); simpl; [|split; [done|lia]].
  destruct (decide (0 ≤ num_row_0)); simpl; [|split; [done|lia]].
  repeat (case_decide; simpl); done.
Qed.

(** X26. Applied to the model it has returned, [exactResize] changes
    nothing but the matrix, which it hands to the matrix's own resize
    again. *)
Theorem exactResize_twice
    (matrix_exactResize : HighsSparseMatrix.t → HighsSparseMatrix.t)
    (lp lp1 : HighsLp) :
  exactResize matrix_exactResize lp = Done lp1 →
  exactResize matrix_exactResize lp1
  = Done (with_a_matrix_ (matrix_exactResize (a_matrix_ lp1)) lp1).
Proof.
  intros H. destruct lp. unfold exactResize, vresize in H. simpl in H.
  repeat match type of H with
         | context [decide ?P] => destruct (decide P); simpl in H; try done
         end;
    injection H as <-; unfold exactResize, vresize; simpl;
    rewrite !decide_True by done; simpl;
    rewrite ?resize_idemp;
    repeat (case_decide; simpl; rewrite ?resize_idemp); done.
Qed.

Lemma exactResize_twice_witness :
  ∃ lp1,
    exactResize id Sample.grown5 = Done lp1 ∧
    col_cost_ lp1 = [1%Qc; 1%Qc; 1%Qc; 0%Qc; 0%Qc] ∧
    exactResize id lp1 = Done lp1.
Proof.
  eexists. split; [by vm_compute|]. split; [by vm_compute|].
  apply (exactResize_twice id Sample.grown5). by vm_compute.
Defined.

(** ** operator== *)

(** X27. [operator==] returns true exactly when the two models have the
    same matrix, the same scale, the same objective name and the same row
    and column names; the members that [equalButForNames] compares before
    the matrix do not take part. *)
Theorem HighsLp_eq_true_iff (this lp : HighsLp) :
  HighsLp_eq this lp = true ↔
  a_matrix_ this = a_matrix_ lp ∧ scale_ this = scale_ lp ∧
  objective_name_ this = objective_name_ lp ∧
  row_names_ this = row_names_ lp ∧ col_names_ this = col_names_ lp.
Proof.
  unfold HighsLp_eq. cbv zeta.
  rewrite andb_true_iff, equalButForNames_true_iff.
  unfold equalNames. cbv zeta.
  rewrite !andb_true_iff, !bool_decide_eq_true. tauto.
Qed.

(** ** isMip and hasSemiVariables: the assertion, and how the two relate *)

(** X28. With a types vector that is not empty and whose length is not
    the column count, [isMip] and [hasSemiVariables] both stop at their
    assertion. *)
Theorem isMip_hasSemiVariables_assert (lp : HighsLp) :
  integrality_ lp ≠ [] → vsize (integrality_ lp) ≠ num_col_ lp →
  isMip lp = Fault AssertionFailure ∧
  hasSemiVariables lp = Fault AssertionFailure.
Proof.
  intros Hne Hlen.
  assert (vsize (integrality_ lp) ≠ 0) as Hsz.
  { unfold vsize. destruct (integrality_ lp); [done|simpl; lia]. }
  unfold isMip, hasSemiVariables. cbv zeta.
  rewrite !(decide_True _ _ Hsz), !bool_decide_eq_false_2 by done.
  done.
Qed.

Lemma isMip_hasSemiVariables_assert_witness :
  isMip (with_integrality_ [kInteger] Sample.mip2) = Fault AssertionFailure ∧
  hasSemiVariables (with_integrality_ [kInteger] Sample.mip2)
  = Fault AssertionFailure.
Proof.
  apply (isMip_hasSemiVariables_assert
           (with_integrality_ [kInteger] Sample.mip2)); by vm_compute.
Defined.

(** X29. A model that [hasSemiVariables] reports to have semi-variables
    is one that [isMip] reports to be a MIP. *)
Theorem hasSemiVariables_isMip (lp : HighsLp) :
  hasSemiVariables lp = Done true → isMip lp = Done true.
Proof.
  unfold hasSemiVariables, isMip. cbv zeta.
  case_decide as Hsz; [|done].
  unfold cpp_assert. case_bool_decide as Hlen; [|done]. simpl.
  unfold until_range. rewrite <- Hlen, Z.sub_0_r. unfold vsize.
  rewrite Nat2Z.id.
  rewrite (until_steps_scan
             (λ t, t = kSemiContinuous ∨ t = kSemiInteger) _ _ 0) by done.
  rewrite (until_steps_scan (λ t, t ≠ kContinuous) _ _ 0) by done.
  simpl. destruct (decide (Exists _ _)) as [Hsemi|Hsemi]; [|done].
  intros _. rewrite decide_True; [done|].
  eapply Exists_impl; [exact Hsemi|].
  intros t [->| ->]; done.
Qed.

Lemma hasSemiVariables_isMip_witness :
  isMip (with_integrality_ [kContinuous; kSemiInteger] Sample.mip2)
  = Done true.
Proof.
  apply (hasSemiVariables_isMip
           (with_integrality_ [kContinuous; kSemiInteger] Sample.mip2)).
  by vm_compute.
Defined.
